(** * HashyStepTable: a shallow embedding of [hashy_step_table.py]

    The table is an open-addressing hash table with a key-dependent probe
    step ([hash2]), lazy deletion through the [SENTINEL_DELETED] marker and
    growth along a ladder of capacities ([TABLE_SIZES]).

    Python integers are unbounded, so they are [Z]; the slot array is a
    [list] read and written by index; an instance of the class is a record
    threaded through a state-and-exception monad, because a Python method
    that raises leaves behind whatever it already wrote to [self]. *)

From Stdlib Require Import ZArith Zdivisibility Lia String Ascii.
From stdpp Require Import base list strings.

Local Open Scope string_scope.
Local Open Scope Z_scope.

(** ** Exceptions and outcomes *)

Inductive exn : Type :=
| KeyError (key : string)
| FullError
| IndexError
| ValueError
| ZeroDivisionError
| TypeError.

(** What a call does: it returns, it raises, or it never comes back. *)
Inductive outcome (A : Type) : Type :=
| Return (a : A)
| Raise (e : exn)
| Diverge.
Arguments Return {A} a.
Arguments Raise {A} e.
Arguments Diverge {A}.

#[global] Instance outcome_ret : MRet outcome := @Return.
#[global] Instance outcome_bind : MBind outcome := λ A B f o,
  match o with
  | Return a => f a
  | Raise e => Raise e
  | Diverge => Diverge
  end.

(** Python's [%]: floor semantics like [Z.modulo], but a zero divisor raises. *)
Definition pymod (a b : Z) : outcome Z :=
  if b =? 0 then Raise ZeroDivisionError else Return (a mod b).

(** Keys are strings of 8-bit characters here, so [ord] ranges over 0..255;
    nothing below depends on that range. *)
Definition ord (char : ascii) : Z := Z.of_N (N_of_ascii char).

(** [not x] for a variable that holds [None] or an integer: 0 is falsy. *)
Definition not_ (x : option Z) : bool :=
  match x with
  | None => true
  | Some i => i =? 0
  end.

(** ** Class constants *)

Definition TABLE_SIZES : list Z :=
  [5; 13; 29; 53; 97; 193; 389; 769; 1543; 3079; 6151; 12289; 24593; 49157;
   98317; 196613; 393241; 786433; 1572869].

Definition HASH_BASE : Z := 31.

(** ** The two hash functions, for a table of [table_size] slots *)

Fixpoint hash_loop (table_size : Z) (key : string) (value a : Z) : outcome Z :=
  match key with
  | EmptyString => Return value
  | String char key' =>
      value ← pymod (ord char + a * value) table_size;
      a ← pymod (a * HASH_BASE) (table_size - 1);
      hash_loop table_size key' value a
  end.

Fixpoint hash2_loop (table_size : Z) (key : string) (value a : Z) : outcome Z :=
  match key with
  | EmptyString => Return value
  | String char key' =>
      value ← pymod (ord char + a * value) (table_size - 1);
      a ← pymod (a * HASH_BASE) (table_size - 1);
      hash2_loop table_size key' value a
  end.

Definition hash_at (table_size : Z) (key : string) : outcome Z :=
  hash_loop table_size key 0 31415.

Definition hash2_at (table_size : Z) (key : string) : outcome Z :=
  value ← hash2_loop table_size key 0 31415; Return (value + 1).

(** ** Ladders of primes, for the proofs

    Trial division up to the square root; [is_prime_sound] below. *)

Fixpoint no_divisor (m : Z) (n : nat) : bool :=
  match n with
  | O => true
  | S n' => negb (m mod (Z.of_nat n' + 2) =? 0) && no_divisor m n'
  end.

Definition is_prime (m : Z) : bool :=
  (1 <? m) && no_divisor m (Z.to_nat (Z.sqrt m) - 1).

(** Each rung is at least two slots larger than the one before. *)
Fixpoint grows (sizes : list Z) : bool :=
  match sizes with
  | m :: sizes' =>
      match sizes' with
      | m' :: _ => (m + 2 <=? m') && grows sizes'
      | [] => true
      end
  | [] => true
  end.

Definition ladder_ok (sizes : list Z) : bool :=
  forallb is_prime sizes && grows sizes.

Section Table.

(** The value type, and [str] on values (used by [__str__] only). *)
Context {V : Type} (str : V → string).

(** ** Slots and the table object *)

(** A slot holds [None], the deletion sentinel, or a [(key, value)] tuple. *)
Inductive cell : Type :=
| PyNone
| SENTINEL_DELETED
| Item (key : string) (value : V).

Record HashyStepTable : Type := mkTable {
  self_TABLE_SIZES : list Z;
  size_index : nat;
  array : list cell;
  count : Z
}.

Definition set_size_index (i : nat) (self : HashyStepTable) : HashyStepTable :=
  mkTable (self_TABLE_SIZES self) i (array self) (count self).
Definition set_array (a : list cell) (self : HashyStepTable) : HashyStepTable :=
  mkTable (self_TABLE_SIZES self) (size_index self) a (count self).
Definition set_count (c : Z) (self : HashyStepTable) : HashyStepTable :=
  mkTable (self_TABLE_SIZES self) (size_index self) (array self) c.

(** Modelled from the spec: [ArrayR] (data_structures/referential_array.py)
    is not among the sources. The spec describes it as a fixed-size array of
    slots whose length is the requested capacity, every slot starting out
    empty; capacities are positive integers, so a non-positive length is
    rejected. *)
Definition ArrayR (length : Z) : outcome (list cell) :=
  if length <=? 0 then Raise ValueError
  else Return (replicate (Z.to_nat length) PyNone).

(** ** The monad of methods: state is [self], results are outcomes *)

Definition M (A : Type) : Type := HashyStepTable → outcome A * HashyStepTable.

#[global] Instance M_ret : MRet M := λ A a self, (Return a, self).
#[global] Instance M_bind : MBind M := λ A B f m self,
  match m self with
  | (Return a, self') => f a self'
  | (Raise e, self') => (Raise e, self')
  | (Diverge, self') => (Diverge, self')
  end.

Definition raise {A} (e : exn) : M A := λ self, (Raise e, self).
Definition diverge {A} : M A := λ self, (Diverge, self).
Definition lift {A} (o : outcome A) : M A := λ self, (o, self).
Definition gets {A} (f : HashyStepTable → A) : M A := λ self, (Return (f self), self).
Definition modify (f : HashyStepTable → HashyStepTable) : M unit :=
  λ self, (Return tt, f self).

Fixpoint for_each {A} (l : list A) (body : A → M unit) : M unit :=
  match l with
  | [] => mret tt
  | x :: l' => body x;; for_each l' body
  end.

(** ** Methods *)

(** [__init__]: the only constructor; [sizes = None] keeps the class ladder. *)
Definition __init__ (sizes : option (list Z)) : outcome HashyStepTable :=
  let sizes := default TABLE_SIZES sizes in
  match sizes !! 0%nat with
  | None => Raise IndexError
  | Some n => a ← ArrayR n; Return (mkTable sizes 0 a 0)
  end.

Definition table_size : M Z := gets (λ self, Z.of_nat (length (array self))).

Definition hash (key : string) : M Z := m ← table_size; lift (hash_at m key).
Definition hash2 (key : string) : M Z := m ← table_size; lift (hash2_at m key).

Definition __len__ : M Z := gets count.

(** The builtin [len(self)] refuses a negative [__len__]. *)
Definition len : M Z :=
  n ← __len__; if n <? 0 then raise ValueError else mret n.

Definition is_full : M bool := c ← gets count; m ← table_size; mret (c =? m).

(** [self.array[position]] and [self.array[position] = c]. *)
Definition array_getitem (position : Z) : M cell := λ self,
  if position <? 0 then (Raise IndexError, self)
  else match array self !! Z.to_nat position with
       | Some c => (Return c, self)
       | None => (Raise IndexError, self)
       end.

Definition array_setitem (position : Z) (c : cell) : M unit := λ self,
  if (position <? 0) || (Z.of_nat (length (array self)) <=? position)
  then (Raise IndexError, self)
  else (Return tt, set_array (<[Z.to_nat position := c]> (array self)) self).

(** [if not step: step = self.hash2(key)], then the advance. *)
Definition next_position (key : string) (position : Z) (step : option Z) : M (Z * Z) :=
  step ← (if not_ step then hash2 key else mret (default 0 step));
  m ← table_size;
  position ← lift (pymod (position + step) m);
  mret (position, step).

(** The swap [array[first], array[position] = array[position], array[first]]
    followed by [position = first]. *)
Definition compact (position first : Z) : M Z :=
  found ← array_getitem position;
  tomb ← array_getitem first;
  array_setitem first found;;
  array_setitem position tomb;;
  mret first.

(** The [while True] loop of [_hashy_probe]; [fuel] bounds the number of
    iterations, and running out of it is [Diverge]. *)
Fixpoint probe_loop (fuel : nat) (key : string) (is_insert : bool)
    (position : Z) (step first_empty_index : option Z) : M Z :=
  match fuel with
  | O => diverge
  | S fuel =>
      full ← is_full;
      if (full : bool) then
        if is_insert then raise FullError else raise (KeyError key)
      else
        c ← array_getitem position;
        match c with
        | PyNone =>
            if is_insert then mret position else raise (KeyError key)
        | SENTINEL_DELETED =>
            if is_insert then mret position
            else
              let first_empty_index :=
                if not_ first_empty_index then Some position
                else first_empty_index in
              '(position, step) ← next_position key position step;
              probe_loop fuel key is_insert position (Some step) first_empty_index
        | Item k _ =>
            if String.eqb k key then
              if not_ first_empty_index then mret position
              else compact position (default 0 first_empty_index)
            else
              '(position, step) ← next_position key position step;
              probe_loop fuel key is_insert position (Some step) first_empty_index
        end
  end.

(** The walk is periodic with period [table_size]: a loop that has not left
    after [table_size + 1] iterations never leaves (lemma
    [probe_loop_decided] below), so that many iterations decide it. *)
Definition _hashy_probe (key : string) (is_insert : bool) : M Z :=
  position ← hash key;
  m ← table_size;
  probe_loop (S (Z.to_nat m)) key is_insert position None None.



Definition __getitem__ (key : string) : M V :=
  position ← _hashy_probe key false;
  c ← array_getitem position;
  match c with
  | Item _ v => mret v
  | _ => raise TypeError
  end.

Definition __contains__ (key : string) : M bool := λ self,
  match __getitem__ key self with
  | (Return _, self') => (Return true, self')
  | (Raise (KeyError _), self') => (Return false, self')
  | (Raise e, self') => (Raise e, self')
  | (Diverge, self') => (Diverge, self')
  end.

Definition __delitem__ (key : string) : M unit :=
  position ← _hashy_probe key false;
  array_setitem position SENTINEL_DELETED;;
  modify (λ self, set_count (count self - 1) self).

(** [_rehash], with the [self[key] = value] it calls back as a parameter. *)
Definition _rehash_with (setitem : string → V → M unit) : M unit :=
  old_array ← gets array;
  modify (λ self, set_size_index (S (size_index self)) self);;
  i ← gets size_index;
  sizes ← gets self_TABLE_SIZES;
  if (i =? length sizes)%nat then mret tt
  else
    match sizes !! i with
    | None => raise IndexError
    | Some n =>
        a ← lift (ArrayR n);
        modify (set_array a);;
        modify (set_count 0);;
        for_each old_array (λ item,
          match item with
          | Item key value => setitem key value
          | _ => mret tt
          end)
    end.

(** [__setitem__], with the recursive call through [_rehash] as a parameter.
    [len(self) > self.table_size * 2 / 3] compares an integer with a float
    quotient; for array lengths below 2^51 that is [3 * len > 2 * size]. *)
Definition setitem_body (setitem : string → V → M unit)
    (key : string) (data : V) : M unit :=
  position ← _hashy_probe key true;
  c ← array_getitem position;
  match c with
  | PyNone => modify (λ self, set_count (count self + 1) self)
  | _ => mret tt
  end;;
  array_setitem position (Item key data);;
  n ← len;
  m ← table_size;
  if 2 * m <? 3 * n then _rehash_with setitem else mret tt.

(** [__setitem__] and [_rehash] call each other; every nested [_rehash]
    moves [size_index] one rung up, and past the ladder it raises before it
    calls back, so the rungs left bound the nesting: more fuel than that
    changes nothing (lemma [setitem_fuel_decided] below). Python's own
    recursion limit is not modelled. *)
Fixpoint setitem_fuel (fuel : nat) (key : string) (data : V) {struct fuel} : M unit :=
  setitem_body
    (match fuel with
     | O => λ _ _, diverge
     | S fuel' => setitem_fuel fuel'
     end) key data.

Definition __setitem__ (key : string) (data : V) : M unit := λ self,
  setitem_fuel (length (self_TABLE_SIZES self) - size_index self) key data self.

Definition _rehash : M unit := _rehash_with __setitem__.

Definition newline : string := String (ascii_of_nat 10) EmptyString.

Fixpoint str_loop (items : list cell) (result : string) : outcome string :=
  match items with
  | [] => Return result
  | PyNone :: items' => str_loop items' result
  | SENTINEL_DELETED :: _ => Raise TypeError
  | Item key value :: items' =>
      str_loop items' (result ++ "(" ++ key ++ "," ++ str value ++ ")" ++ newline)
  end.

Definition __str__ : M string := a ← gets array; lift (str_loop a "").

(** ** Client programs: sequences of calls on one table *)

Inductive call : Type :=
| Set_ (key : string) (data : V)
| Get (key : string)
| Del (key : string)
| Contains (key : string)
| Len.

Inductive answer : Type :=
| Done
| Value (v : V)
| Truth (b : bool)
| Int (n : Z).

Definition perform (c : call) : M answer :=
  match c with
  | Set_ key data => __setitem__ key data;; mret Done
  | Get key => v ← __getitem__ key; mret (Value v)
  | Del key => __delitem__ key;; mret Done
  | Contains key => b ← __contains__ key; mret (Truth b)
  | Len => n ← len; mret (Int n)
  end.

(** The client catches every exception and carries on with the same object;
    a call that never returns ends the program. *)
Fixpoint run (calls : list call) (self : HashyStepTable)
    : list (outcome answer) * HashyStepTable :=
  match calls with
  | [] => ([], self)
  | c :: calls' =>
      match perform c self with
      | (Diverge, self') => ([Diverge], self')
      | (o, self') =>
          let '(os, self'') := run calls' self' in (o :: os, self'')
      end
  end.

Definition is_Diverge {A} (o : outcome A) : bool :=
  match o with Diverge => true | _ => false end.

(** A state is reachable when some client program, all of whose calls come
    back (normally or with an exception), leads to it from the constructor. *)
Definition reachable (self : HashyStepTable) : Prop :=
  ∃ sizes self0 calls outs,
    __init__ sizes = Return self0 ∧
    run calls self0 = (outs, self) ∧
    forallb (λ o, negb (is_Diverge o)) outs = true.

Definition is_Item (c : cell) : bool :=
  match c with Item _ _ => true | _ => false end.

(** The slots holding a tuple, and the slots holding a given key. *)
Definition occupied (self : HashyStepTable) : Z :=
  Z.of_nat (length (filter (λ c, is_Item c = true) (array self))).

Definition slots_of (key : string) (self : HashyStepTable) : list nat :=
  omap (λ '(i, c), match c with
                   | Item k _ => if String.eqb k key then Some i else None
                   | _ => None
                   end) (imap pair (array self)).

(** ** One iteration of the probe loop, for the proofs

    [iteration] is the body of the [while True] loop read as a function: the
    loop is left with a result, or entered again at the next position.
    Lemma [probe_loop_unfold] ties it to [probe_loop]. *)

Inductive step_result : Type :=
| Leave (r : outcome Z * HashyStepTable)
| Again (position step : Z) (first_empty_index : option Z).

Definition advance (key : string) (position : Z) (step first_empty_index : option Z)
    (self : HashyStepTable) : step_result :=
  match next_position key position step self with
  | (Return (position', step'), _) => Again position' step' first_empty_index
  | (Raise e, self') => Leave (Raise e, self')
  | (Diverge, self') => Leave (Diverge, self')
  end.

Definition iteration (key : string) (is_insert : bool) (position : Z)
    (step first_empty_index : option Z) (self : HashyStepTable) : step_result :=
  if count self =? Z.of_nat (length (array self)) then
    Leave (if is_insert then Raise FullError else Raise (KeyError key), self)
  else
    match array_getitem position self with
    | (Return PyNone, _) =>
        Leave (if is_insert then Return position else Raise (KeyError key), self)
    | (Return SENTINEL_DELETED, _) =>
        if is_insert then Leave (Return position, self)
        else advance key position step
               (if not_ first_empty_index then Some position else first_empty_index)
               self
    | (Return (Item k _), _) =>
        if String.eqb k key then
          if not_ first_empty_index then Leave (Return position, self)
          else Leave (compact position (default 0 first_empty_index) self)
        else advance key position step first_empty_index self
    | (Raise e, _) => Leave (Raise e, self)
    | (Diverge, _) => Leave (Diverge, self)
    end.

(** The slot at [position] sends the walk on: the table is not full and the
    slot holds another key, or a tombstone under lookup intent. *)
Definition continues (key : string) (is_insert : bool) (self : HashyStepTable)
    (position : Z) : bool :=
  negb (count self =? Z.of_nat (length (array self))) &&
  (0 <=? position) &&
  match array self !! Z.to_nat position with
  | Some SENTINEL_DELETED => negb is_insert
  | Some (Item k _) => negb (String.eqb k key)
  | _ => false
  end.

(** The [j]-th slot visited from [h] with step [s] in a table of [m] slots. *)
Definition probe_position (m h s : Z) (j : nat) : Z := (h + Z.of_nat j * s) mod m.

(** ** What [_rehash] alone touches *)

(** The ladder never changes, and [size_index] only grows. *)
Definition frame (self self' : HashyStepTable) : Prop :=
  self_TABLE_SIZES self' = self_TABLE_SIZES self ∧
  (size_index self ≤ size_index self')%nat.

Definition preserves {A} (m : M A) : Prop :=
  ∀ self o self', m self = (o, self') → frame self self'.

(** ** Tidy tables: no tombstone, every entry where a lookup finds it *)

Definition bindings (a : list cell) : list (string * V) :=
  omap (λ c, match c with Item k v => Some (k, v) | _ => None end) a.

(** Every entry sits on the probe sequence of its key, behind slots that
    hold other keys only. *)
Definition placed (self : HashyStepTable) : Prop :=
  let m := Z.of_nat (length (array self)) in
  ∀ i k v, array self !! i = Some (Item k v) →
    ∃ h s j, hash_at m k = Return h ∧ hash2_at m k = Return s ∧
      (j < length (array self))%nat ∧
      probe_position m h s j = Z.of_nat i ∧
      ∀ j', (j' < j)%nat →
        ∃ k' v', array self !! Z.to_nat (probe_position m h s j') = Some (Item k' v') ∧
                 k' ≠ k.

Record tidy (self : HashyStepTable) : Prop := {
  tidy_prime : Z.prime (Z.of_nat (length (array self)));
  tidy_no_tombstone : SENTINEL_DELETED ∉ array self;
  tidy_count : count self = Z.of_nat (length (bindings (array self)));
  tidy_NoDup : NoDup (bindings (array self)).*1;
  tidy_placed : placed self
}.

(** A tidy table on a rung of its ladder, at or below the load factor. *)
Record on_ladder (self : HashyStepTable) : Prop := {
  on_tidy : tidy self;
  on_rung : self_TABLE_SIZES self !! size_index self
            = Some (Z.of_nat (length (array self)));
  on_load : 3 * count self ≤ 2 * Z.of_nat (length (array self))
}.

(** The table after [key] went into the free slot at [position]. *)
Definition insert_at (self : HashyStepTable) (position : Z) (key : string) (data : V)
    : HashyStepTable :=
  mkTable (self_TABLE_SIZES self) (size_index self)
    (<[Z.to_nat position := Item key data]> (array self)) (count self + 1).

(** The client program that sets every pair of [kvs] in order. *)
Definition sets (kvs : list (string * V)) : list call :=
  map (λ kv, Set_ kv.1 kv.2) kvs.

End Table.

Arguments cell : clear implicits.
Arguments HashyStepTable : clear implicits.
Arguments M : clear implicits.
Arguments call : clear implicits.
Arguments answer : clear implicits.
Arguments step_result : clear implicits.

(** ** Notions for the properties of the walks and of the ladder *)

Section Notions.
Context {V : Type}.
Implicit Types (self : HashyStepTable V) (key : string).

(** What a lookup walk knows about [first_empty_index]: it is unset, or the
    index of a tombstone. *)
Definition fei_ok self (fei : option Z) : Prop :=
  match fei with
  | None => True
  | Some i => 0 ≤ i ∧ array self !! Z.to_nat i = Some SENTINEL_DELETED
  end.

(** How a lookup walk ends, in any state: with the key's slot (possibly
    after the swap with a tombstone), or with KeyError and the table
    untouched. *)
Definition lookup_result self key (r : outcome Z * HashyStepTable V) : Prop :=
  match r.1 with
  | Return p =>
      0 ≤ p ∧
      ∃ v, (key, v) ∈ bindings (array self) ∧
           array r.2 !! Z.to_nat p = Some (Item key v) ∧
           bindings (array r.2) ≡ₚ bindings (array self) ∧
           (PyNone ∈ array self → PyNone ∈ array r.2) ∧
           length (array r.2) = length (array self) ∧
           self_TABLE_SIZES r.2 = self_TABLE_SIZES self ∧
           size_index r.2 = size_index self ∧
           count r.2 = count self ∧
           count self ≠ Z.of_nat (length (array self))
  | Raise e => e = KeyError key ∧ r.2 = self
  | Diverge => r.2 = self
  end.

(** What an insert walk that returns has seen: only other keys before the
    slot it returns, and at that slot [None], a tombstone or the key. *)
Definition insert_slot self key (h s : Z) (p : Z) : Prop :=
  let m := Z.of_nat (length (array self)) in
  count self ≠ m ∧
  ∃ j, (j ≤ length (array self))%nat ∧ p = probe_position m h s j ∧
    (∀ j', (j' < j)%nat →
       ∃ k' v', array self !! Z.to_nat (probe_position m h s j') = Some (Item k' v') ∧ k' ≠ key) ∧
    ∃ c, array self !! Z.to_nat p = Some c ∧
         match c with Item k _ => k = key | _ => True end.


(** What holds of the table whatever was called on it: [count] is at most
    the number of stored tuples, and the array has the size of one of the
    rungs of the ladder. *)
Record counted self : Prop := {
  counted_le : count self ≤ Z.of_nat (length (bindings (array self)));
  counted_rung : Z.of_nat (length (array self)) ∈ self_TABLE_SIZES self;
  counted_pos : (0 < length (array self))%nat
}.

(** A method keeps [counted], however it ends. *)
Definition keeps {A} (m : M V A) : Prop :=
  ∀ self o self', counted self → m self = (o, self') → counted self'.

End Notions.


Section Dictionary.
Context {V : Type}.

(** ** The dictionary a client expects

    What a Python [dict] with string keys answers to the calls that do not
    delete: the reference the table is compared with. *)

Definition dict_get (d : list (string * V)) (key : string) : option V :=
  snd <$> find (λ kv, String.eqb kv.1 key) d.

Definition dict_set (key : string) (data : V) (d : list (string * V))
    : list (string * V) :=
  (key, data) :: filter (λ kv, kv.1 ≠ key) d.

Definition dict_perform (c : call V) (d : list (string * V))
    : outcome (answer V) * list (string * V) :=
  match c with
  | Set_ key data => (Return Done, dict_set key data d)
  | Get key =>
      (match dict_get d key with
       | Some v => Return (Value v)
       | None => Raise (KeyError key)
       end, d)
  | Del key =>
      (match dict_get d key with
       | Some _ => Return Done
       | None => Raise (KeyError key)
       end, filter (λ kv, kv.1 ≠ key) d)
  | Contains key => (Return (Truth (bool_decide (key ∈ d.*1))), d)
  | Len => (Return (Int (Z.of_nat (length d))), d)
  end.

Fixpoint dict_run (calls : list (call V)) (d : list (string * V))
    : list (outcome (answer V)) * list (string * V) :=
  match calls with
  | [] => ([], d)
  | c :: calls' =>
      let '(o, d') := dict_perform c d in
      let '(os, d'') := dict_run calls' d' in (o :: os, d'')
  end.

Definition is_Del (c : call V) : bool :=
  match c with Del _ => true | _ => false end.

End Dictionary.

(** * The season's fixtures: [season.py] *)

(** A value of [Team] stands for one [Team] object: the class defines no
    [__eq__], so teams are compared by identity. [get_number] is
    [Team.get_number]. *)
Class TeamOps (Team : Type) : Type := {
  Team_eq_dec :: EqDecision Team;
  get_number : Team → Z
}.

(** The data structures of the repository that are not among the sources
    are parameters: [BSet] with its constructor, [in] and [add] (which
    returns the set it updated), and [ArrayR.from_list], an array being the
    list of its slots. *)
Class Structures : Type := {
  BSet : Type;
  BSet_new : BSet;
  BSet_contains : BSet → Z → outcome bool;
  BSet_add : BSet → Z → outcome BSet;
  from_list : ∀ A : Type, list A → outcome (list A)
}.

Section Season.
Context {Team : Type} {team_ops : TeamOps Team} {structures : Structures}.

(** The [Game] dataclass; the [__eq__] that [dataclass] generates compares
    the two fields. *)
Record Game : Type := mkGame { home_team : Team; away_team : Team }.

Definition Game_eq (g1 g2 : Game) : bool :=
  bool_decide (home_team g1 = home_team g2) && bool_decide (away_team g1 = away_team g2).

(** ** [WeekOfGames] *)

(** [next_game_index] does not exist until [__iter__] has run. *)
Record WeekOfGames : Type := mkWeek {
  games : list Game;
  week : Z;
  next_game_index : option Z
}.

Definition WeekOfGames___init__ (week : Z) (games : list Game) : WeekOfGames :=
  mkWeek games week None.

Definition get_games (self : WeekOfGames) : list Game := games self.
Definition get_week (self : WeekOfGames) : Z := week self.

Inductive iter_exn : Type :=
| StopIteration
| AttributeError
| Other (e : exn).

Definition WeekOfGames___iter__ (self : WeekOfGames) : WeekOfGames :=
  mkWeek (games self) (week self) (Some 0).

(** The index is advanced before the array is read. *)
Definition WeekOfGames___next__ (self : WeekOfGames) : (iter_exn + Game) * WeekOfGames :=
  match next_game_index self with
  | None => (inl AttributeError, self)
  | Some i =>
      if Z.of_nat (length (games self)) <=? i then (inl StopIteration, self)
      else
        let self' := mkWeek (games self) (week self) (Some (i + 1)) in
        if i <? 0 then (inl (Other IndexError), self')
        else match games self !! Z.to_nat i with
             | Some game => (inr game, self')
             | None => (inl (Other IndexError), self')
             end
  end.

(** [for game in week_of_games: yield game], the inner loop of
    [Season.get_next_game], after [iter] has been called: the games yielded
    until [StopIteration]; [None] when [fuel] calls of [next] did not end it. *)
Fixpoint yield_from (fuel : nat) (self : WeekOfGames)
    : option ((iter_exn + list Game) * WeekOfGames) :=
  match fuel with
  | O => None
  | S fuel' =>
      match WeekOfGames___next__ self with
      | (inl StopIteration, self') => Some (inr [], self')
      | (inl e, self') => Some (inl e, self')
      | (inr game, self') =>
          match yield_from fuel' self' with
          | Some (inr yielded, self'') => Some (inr (game :: yielded), self'')
          | r => r
          end
      end
  end.

(** ** [Season._generate_schedule] *)

(** The two nested [range] loops over the indices of [self.teams]; both
    indices are in range, so the last branch is never taken. *)
Definition matchups (teams : list Team) : list Game :=
  let num_teams := length teams in
  i ← seq 0 num_teams;
  j ← seq (S i) (num_teams - S i);
  match teams !! i, teams !! j with
  | Some team1, Some team2 => [mkGame team1 team2]
  | _, _ => []
  end.

(** [list.remove]: the first equal item goes; ValueError when there is none. *)
Fixpoint list_remove (game : Game) (l : list Game) : outcome (list Game) :=
  match l with
  | [] => Raise ValueError
  | g :: l' =>
      if Game_eq g game then Return l'
      else l'' ← list_remove game l'; Return (g :: l'')
  end.

(** The variables of one pass of the [while] loop. *)
Record week_state : Type := mkWeekState {
  current_week : list Game;
  flipped_week : list Game;
  used_teams : BSet;
  remaining : list Game
}.

(** The body of [for game in games[:]]: [and] evaluates its second operand
    only when the first holds. The counters [week] and [week_game_no] are
    written and never read; they are left out. *)
Definition pick (game : Game) (st : week_state) : outcome week_state :=
  home_used ← BSet_contains (used_teams st) (get_number (home_team game));
  if home_used : bool then Return st
  else
    away_used ← BSet_contains (used_teams st) (get_number (away_team game));
    if away_used : bool then Return st
    else
      used ← BSet_add (used_teams st) (get_number (home_team game));
      used ← BSet_add used (get_number (away_team game));
      rest ← list_remove game (remaining st);
      Return (mkWeekState (current_week st ++ [game])
                (flipped_week st ++ [mkGame (away_team game) (home_team game)])
                used rest).

Fixpoint fill_week (copy : list Game) (st : week_state) : outcome week_state :=
  match copy with
  | [] => Return st
  | game :: copy' => st' ← pick game st; fill_week copy' st'
  end.

(** [while games:], one week per pass. A pass that removes no game leaves
    [games] as it was, so the loop either removes a game in every pass or
    never ends: [length games] passes decide it. *)
Fixpoint allocate (fuel : nat) (games : list Game)
    (weekly_games flipped_weeks : list (list Game))
    : outcome (list (list Game) * list (list Game)) :=
  match games with
  | [] => Return (weekly_games, flipped_weeks)
  | _ :: _ =>
      match fuel with
      | O => Diverge
      | S fuel' =>
          st ← fill_week games (mkWeekState [] [] BSet_new games);
          current ← from_list Game (current_week st);
          flipped ← from_list Game (flipped_week st);
          allocate fuel' (remaining st)
            (weekly_games ++ [current]) (flipped_weeks ++ [flipped])
      end
  end.

Definition _generate_schedule (teams : list Team) : outcome (list (list Game)) :=
  let games := matchups teams in
  '(weekly_games, flipped_weeks) ← allocate (length games) games [] [];
  from_list (list Game) (weekly_games ++ flipped_weeks).

(** The return fixture of a game, and of a week's games. *)
Definition flip_game (game : Game) : Game := mkGame (away_team game) (home_team game).
Definition flip_week (w : list Game) : list Game := flip_game <$> w.

(** The team numbers that play in a week. *)
Definition numbers (w : list Game) : list Z :=
  g ← w; [get_number (home_team g); get_number (away_team g)].

(** [used_teams] holds the numbers of the teams in [current_week]. *)
Definition tracks (s : BSet) (w : list Game) : Prop :=
  ∀ y, 0 < y → BSet_contains s y = Return (bool_decide (y ∈ numbers w)).

Definition positive_numbers (l : list Game) : Prop :=
  ∀ g, g ∈ l → 0 < get_number (home_team g) ∧ 0 < get_number (away_team g).

Definition distinct_numbers (l : list Game) : Prop :=
  ∀ g, g ∈ l → get_number (home_team g) ≠ get_number (away_team g).

(** What the schedule needs of the parameters: on positive numbers [BSet]
    is a set, and [from_list] of a non-empty list is the array of its items. *)
Record structures_ok : Prop := {
  BSet_contains_new : ∀ x, 0 < x → BSet_contains BSet_new x = Return false;
  BSet_add_spec : ∀ s x, 0 < x →
    ∃ s', BSet_add s x = Return s' ∧
          ∀ y, 0 < y → BSet_contains s' y
                       = if decide (y = x) then Return true else BSet_contains s y;
  from_list_spec : ∀ (A : Type) (l : list A), l ≠ [] → from_list A l = Return l
}.

End Season.

Arguments Game : clear implicits.
Arguments WeekOfGames : clear implicits.
Arguments week_state Team {_}.

(** Teams that are their numbers, and list-backed structures, to run the
    schedule on. *)
Definition numbered_teams : TeamOps Z := {| get_number := id |}.

Definition list_structures : Structures := {|
  BSet := list Z;
  BSet_new := [];
  BSet_contains s x := if x <=? 0 then Raise TypeError else Return (bool_decide (x ∈ s));
  BSet_add s x := if x <=? 0 then Raise TypeError else Return (x :: s);
  from_list A l := match l with [] => Raise ValueError | _ => Return l end
|}.

(** * Properties *)

(** ** The hash functions stay in range *)

Lemma pymod_Return (a b : Z) :
  b ≠ 0 → pymod a b = Return (a mod b).
Proof.
  intros Hb. unfold pymod. destruct (Z.eqb_spec b 0); [contradiction | reflexivity].
Qed.

Lemma hash_loop_range (m : Z) (key : string) :
  2 ≤ m → ∀ value a, 0 ≤ value < m →
  ∃ h, hash_loop m key value a = Return h ∧ 0 ≤ h < m.
Proof.
  intros Hm. induction key as [|c key IH]; intros value a Hv; simpl.
  - eauto.
  - rewrite !pymod_Return by lia. simpl.
    apply IH. apply Z.mod_pos_bound. lia.
Qed.

Lemma hash2_loop_range (m : Z) (key : string) :
  2 ≤ m → ∀ value a, 0 ≤ value < m - 1 →
  ∃ h, hash2_loop m key value a = Return h ∧ 0 ≤ h < m - 1.
Proof.
  intros Hm. induction key as [|c key IH]; intros value a Hv; simpl.
  - eauto.
  - rewrite !pymod_Return by lia. simpl.
    apply IH. apply Z.mod_pos_bound. lia.
Qed.

Lemma hash_at_range (m : Z) (key : string) :
  2 ≤ m → ∃ h, hash_at m key = Return h ∧ 0 ≤ h < m.
Proof. intros Hm. apply hash_loop_range; lia. Qed.

Lemma hash2_at_range (m : Z) (key : string) :
  2 ≤ m → ∃ s, hash2_at m key = Return s ∧ 1 ≤ s ≤ m - 1.
Proof.
  intros Hm. unfold hash2_at.
  destruct (hash2_loop_range m key Hm 0 31415) as (h & -> & Hh); [lia|].
  simpl. eexists; split; [reflexivity | lia].
Qed.

Lemma TABLE_SIZES_ge_5 (m : Z) : m ∈ TABLE_SIZES → 5 ≤ m.
Proof.
  unfold TABLE_SIZES. rewrite !elem_of_cons, elem_of_nil. lia.
Qed.

Section Proofs.
Context {V : Type}.
Implicit Types (self : HashyStepTable V) (key : string).

(** ** Running the monad *)

Lemma bind_Return {A B} (m : M V A) (f : A → M V B) self a self' :
  m self = (Return a, self') → (m ≫= f) self = f a self'.
Proof. intros H. unfold mbind, M_bind. rewrite H. reflexivity. Qed.

Lemma bind_Raise {A B} (m : M V A) (f : A → M V B) self e self' :
  m self = (Raise e, self') → (m ≫= f) self = (Raise e, self').
Proof. intros H. unfold mbind, M_bind. rewrite H. reflexivity. Qed.

Lemma bind_Diverge {A B} (m : M V A) (f : A → M V B) self self' :
  m self = (Diverge, self') → (m ≫= f) self = (Diverge, self').
Proof. intros H. unfold mbind, M_bind. rewrite H. reflexivity. Qed.

Lemma is_full_eq self :
  is_full self = (Return (count self =? Z.of_nat (length (array self))), self).
Proof. reflexivity. Qed.

Lemma table_size_eq self :
  table_size self = (Return (Z.of_nat (length (array self))), self).
Proof. reflexivity. Qed.

Lemma array_getitem_self position self o self' :
  array_getitem position self = (o, self') → self' = self ∧ o ≠ Diverge.
Proof. unfold array_getitem. intros H. repeat case_match; by simplify_eq. Qed.

(** ** The probe loop, one iteration at a time *)

Lemma pymod_not_Diverge a b : pymod a b ≠ Diverge.
Proof. unfold pymod. by destruct (b =? 0). Qed.

Lemma hash_loop_not_Diverge m key : ∀ value a, hash_loop m key value a ≠ Diverge.
Proof.
  induction key as [|c key IH]; intros value a; simpl; [done|].
  unfold pymod. repeat (case_match; simpl; try done).
Qed.

Lemma hash2_loop_not_Diverge m key : ∀ value a, hash2_loop m key value a ≠ Diverge.
Proof.
  induction key as [|c key IH]; intros value a; simpl; [done|].
  unfold pymod. repeat (case_match; simpl; try done).
Qed.

Lemma hash2_at_not_Diverge m key : hash2_at m key ≠ Diverge.
Proof.
  unfold hash2_at. pose proof (hash2_loop_not_Diverge m key 0 31415).
  by destruct (hash2_loop m key 0 31415).
Qed.

Lemma hash2_eq key self :
  hash2 key self = (hash2_at (Z.of_nat (length (array self))) key, self).
Proof. reflexivity. Qed.

Lemma hash_eq key self :
  hash key self = (hash_at (Z.of_nat (length (array self))) key, self).
Proof. reflexivity. Qed.

Lemma next_position_self key position step self o self' :
  next_position key position step self = (o, self') → self' = self ∧ o ≠ Diverge.
Proof.
  unfold next_position, table_size, gets, lift, mbind, M_bind, mret, M_ret.
  pose proof (hash2_at_not_Diverge (Z.of_nat (length (array self))) key) as Hh.
  pose proof (pymod_not_Diverge) as Hp.
  intros H. destruct (not_ step).
  - rewrite hash2_eq in H. destruct (hash2_at _ key) as [s| |]; [|by simplify_eq..].
    specialize (Hp (position + s) (Z.of_nat (length (array self)))).
    destruct (pymod _ _); by simplify_eq.
  - specialize (Hp (position + default 0 step) (Z.of_nat (length (array self)))).
    destruct (pymod _ _); by simplify_eq.
Qed.

Lemma probe_loop_unfold key ins n position step fei self :
  probe_loop (S n) key ins position step fei self =
  match iteration key ins position step fei self with
  | Leave r => r
  | Again position' step' fei' => probe_loop n key ins position' (Some step') fei' self
  end.
Proof.
  cbn [probe_loop]. rewrite (bind_Return _ _ _ _ _ (is_full_eq self)).
  unfold iteration.
  destruct (count self =? Z.of_nat (length (array self))).
  { destruct ins; reflexivity. }
  destruct (array_getitem position self) as [[c| |] self1] eqn:Hget;
    destruct (array_getitem_self _ _ _ _ Hget) as [-> Hnd].
  - rewrite (bind_Return _ _ _ _ _ Hget).
    destruct c as [| |k v].
    + destruct ins; reflexivity.
    + destruct ins; [reflexivity|]. unfold advance.
      destruct (next_position key position step self) as [[[p' s']| |] self2] eqn:Hnext;
        destruct (next_position_self _ _ _ _ _ _ Hnext) as [-> Hnd'].
      * rewrite (bind_Return _ _ _ _ _ Hnext). reflexivity.
      * rewrite (bind_Raise _ _ _ _ _ Hnext). reflexivity.
      * contradiction.
    + destruct (String.eqb k key).
      * destruct (not_ fei); reflexivity.
      * unfold advance.
        destruct (next_position key position step self) as [[[p' s']| |] self2] eqn:Hnext;
          destruct (next_position_self _ _ _ _ _ _ Hnext) as [-> Hnd'].
        -- rewrite (bind_Return _ _ _ _ _ Hnext). reflexivity.
        -- rewrite (bind_Raise _ _ _ _ _ Hnext). reflexivity.
        -- contradiction.
  - rewrite (bind_Raise _ _ _ _ _ Hget). reflexivity.
  - contradiction.
Qed.

Lemma compact_not_Diverge position first self :
  fst (compact position first self) ≠ Diverge.
Proof.
  unfold compact, array_getitem, array_setitem, mbind, M_bind, mret, M_ret.
  repeat (case_match; simplify_eq; simpl; try done).
Qed.

Lemma iteration_Leave key ins position step fei self r :
  iteration key ins position step fei self = Leave r → fst r ≠ Diverge.
Proof.
  unfold iteration, advance. intros H.
  repeat (case_match; simplify_eq; simpl; try done);
    try apply compact_not_Diverge;
    try (edestruct array_getitem_self as [_ ?]; [eassumption|done]);
    try (edestruct next_position_self as [_ ?]; [eassumption|done]).
Qed.

Lemma probe_loop_mono key ins :
  ∀ n n' position step fei self,
    (n ≤ n')%nat →
    fst (probe_loop n key ins position step fei self) ≠ Diverge →
    probe_loop n' key ins position step fei self
    = probe_loop n key ins position step fei self.
Proof.
  induction n as [|n IH]; intros n' position step fei self Hle Hnd.
  - simpl in Hnd. contradiction.
  - destruct n' as [|n']; [lia|].
    rewrite !probe_loop_unfold in *.
    destruct (iteration key ins position step fei self); [reflexivity|].
    apply IH; [lia | assumption].
Qed.

(** The step the loop uses: computed on first use, cached afterwards. *)
Lemma next_position_eq key position step self s :
  hash2_at (Z.of_nat (length (array self))) key = Return s →
  step = None ∨ step = Some s →
  array self ≠ [] →
  next_position key position step self
  = (Return ((position + s) mod Z.of_nat (length (array self)), s), self).
Proof.
  intros Hs Hstep Hne. unfold next_position.
  assert (Z.of_nat (length (array self)) ≠ 0) as Hm.
  { destruct (array self); [done | simpl; lia]. }
  assert ((if not_ step then hash2 key else mret (default 0 step)) self = (Return s, self)) as H1.
  { destruct Hstep as [->| ->]; simpl.
    - rewrite hash2_eq, Hs. reflexivity.
    - destruct (s =? 0); [rewrite hash2_eq, Hs|]; reflexivity. }
  rewrite (bind_Return _ _ _ _ _ H1).
  rewrite (bind_Return _ _ _ _ _ (table_size_eq self)).
  unfold lift. unfold mbind, M_bind. rewrite pymod_Return by assumption. reflexivity.
Qed.

Lemma continues_inv key ins self position :
  continues key ins self position = true →
  count self ≠ Z.of_nat (length (array self)) ∧
  0 ≤ position < Z.of_nat (length (array self)) ∧
  ∃ c, array self !! Z.to_nat position = Some c ∧
       array_getitem position self = (Return c, self) ∧
       match c with
       | PyNone => False
       | SENTINEL_DELETED => ins = false
       | Item k _ => String.eqb k key = false
       end.
Proof.
  unfold continues. rewrite !andb_true_iff, negb_true_iff, Z.eqb_neq, Z.leb_le.
  intros [[Hc Hp] Hcell].
  destruct (array self !! Z.to_nat position) as [c|] eqn:Hlk; [|done].
  pose proof (lookup_lt_Some _ _ _ Hlk).
  split; [done|]. split; [lia|]. exists c. split; [done|]. split.
  - unfold array_getitem. destruct (Z.ltb_spec position 0); [lia|]. by rewrite Hlk.
  - destruct c; [done | by apply negb_true_iff | by apply negb_true_iff].
Qed.

Lemma iteration_continues key ins self position step fei s :
  continues key ins self position = true →
  hash2_at (Z.of_nat (length (array self))) key = Return s →
  step = None ∨ step = Some s →
  ∃ fei', iteration key ins position step fei self
          = Again ((position + s) mod Z.of_nat (length (array self))) s fei'.
Proof.
  intros (Hc & Hp & c & Hlk & Hget & Hcell)%continues_inv Hs Hstep.
  assert (array self ≠ []) as Hne by (intros E; rewrite E in Hlk; done).
  unfold iteration. apply Z.eqb_neq in Hc. rewrite Hc, Hget.
  destruct c as [| |k v]; [done| |].
  - subst ins. unfold advance. rewrite (next_position_eq _ _ _ _ s) by done. eauto.
  - rewrite Hcell. unfold advance. rewrite (next_position_eq _ _ _ _ s) by done. eauto.
Qed.

Lemma iteration_Again key ins self position step fei position' s' fei' :
  iteration key ins position step fei self = Again position' s' fei' →
  continues key ins self position = true ∧
  next_position key position step self = (Return (position', s'), self).
Proof.
  unfold iteration, continues, advance, array_getitem.
  intros H. repeat (case_match; simplify_eq; simpl in *; try done).
  all: match goal with
       | Hn : next_position _ _ _ _ = _ |- _ =>
           destruct (next_position_self _ _ _ _ _ _ Hn) as [-> _]
       end.
  all: split; [|done].
  all: rewrite ?andb_true_iff, ?negb_true_iff, ?Z.leb_le; rewrite ?Z.ltb_ge in *.
  all: repeat split; try done; lia.
Qed.

Lemma next_position_None key position self position' s' :
  next_position key position None self = (Return (position', s'), self) →
  hash2_at (Z.of_nat (length (array self))) key = Return s'.
Proof.
  unfold next_position. cbn [not_].
  unfold mbind at 1, M_bind at 1. rewrite hash2_eq.
  destruct (hash2_at _ key) as [s| |]; [|done..].
  rewrite (bind_Return _ _ _ _ _ (table_size_eq self)).
  unfold lift, mbind, M_bind, mret, M_ret.
  destruct (pymod _ _); intros; by simplify_eq.
Qed.

Lemma probe_position_0 m p s : 0 ≤ p < m → probe_position m p s 0 = p.
Proof.
  intros Hp. unfold probe_position. rewrite Z.mul_0_l, Z.add_0_r.
  apply Z.mod_small. lia.
Qed.

Lemma probe_position_S m p s j :
  m ≠ 0 → probe_position m ((p + s) mod m) s j = probe_position m p s (S j).
Proof.
  intros Hm. unfold probe_position.
  rewrite Zplus_mod_idemp_l. f_equal. lia.
Qed.

Lemma probe_position_mod m p s j :
  0 < m → probe_position m p s j = probe_position m p s (j mod Z.to_nat m).
Proof.
  intros Hm. unfold probe_position.
  pose proof (Nat.div_mod_eq j (Z.to_nat m)) as Hj.
  assert (Z.of_nat j = m * Z.of_nat (j / Z.to_nat m) + Z.of_nat (j mod Z.to_nat m)) as -> by lia.
  replace (p + (m * Z.of_nat (j / Z.to_nat m) + Z.of_nat (j mod Z.to_nat m)) * s)
    with (p + Z.of_nat (j mod Z.to_nat m) * s + (Z.of_nat (j / Z.to_nat m) * s) * m) by ring.
  apply Z_mod_plus_full.
Qed.

(** A walk that runs out of fuel was sent on at every slot it visited. *)
Lemma diverge_continues key ins self s :
  hash2_at (Z.of_nat (length (array self))) key = Return s →
  ∀ n position step fei,
    step = None ∨ step = Some s →
    fst (probe_loop n key ins position step fei self) = Diverge →
    ∀ i, (i < n)%nat →
      continues key ins self (probe_position (Z.of_nat (length (array self))) position s i) = true.
Proof.
  intros Hs. induction n as [|n IH]; intros position step fei Hstep Hd i Hi; [lia|].
  rewrite probe_loop_unfold in Hd.
  destruct (iteration key ins position step fei self) as [r|p' s' fei'] eqn:Hit.
  { by apply iteration_Leave in Hit. }
  apply iteration_Again in Hit as [Hc Hnext].
  pose proof Hc as (_ & Hp & c & Hlk & _)%continues_inv.
  assert (array self ≠ []) as Hne by (intros E; rewrite E in Hlk; done).
  rewrite (next_position_eq _ _ _ _ s) in Hnext by done. simplify_eq.
  destruct i as [|i].
  - rewrite probe_position_0 by done. exact Hc.
  - rewrite <- probe_position_S by lia. eapply IH; [by right | exact Hd | lia].
Qed.

(** A walk that is sent on at every slot it visits runs out of any fuel. *)
Lemma continues_diverge key ins self s :
  hash2_at (Z.of_nat (length (array self))) key = Return s →
  ∀ n position step fei,
    step = None ∨ step = Some s →
    0 ≤ position < Z.of_nat (length (array self)) →
    (∀ i, (i < n)%nat →
      continues key ins self (probe_position (Z.of_nat (length (array self))) position s i) = true) →
    probe_loop n key ins position step fei self = (Diverge, self).
Proof.
  intros Hs. induction n as [|n IH]; intros position step fei Hstep Hp Hall; [reflexivity|].
  rewrite probe_loop_unfold.
  pose proof (Hall 0%nat ltac:(lia)) as Hc. rewrite probe_position_0 in Hc by done.
  destruct (iteration_continues _ _ _ _ step fei s Hc Hs Hstep) as [fei' ->].
  apply IH; [by right | apply Z.mod_pos_bound; lia |].
  intros i Hi. rewrite probe_position_S by lia. apply Hall. lia.
Qed.

(** A walk still running after [table_size + 1] iterations has been sent on
    at every slot of its cycle, and runs forever. *)
Lemma probe_loop_runs_forever key ins self position :
  fst (probe_loop (S (length (array self))) key ins position None None self) = Diverge →
  ∀ n, probe_loop n key ins position None None self = (Diverge, self).
Proof.
  intros Hrun n.
  pose proof Hrun as Hrun'. rewrite probe_loop_unfold in Hrun'.
  destruct (iteration key ins position None None self) as [r|p' s fei'] eqn:Hit.
  { by apply iteration_Leave in Hit. }
  pose proof Hit as [Hc Hnext]%iteration_Again.
  pose proof (next_position_None _ _ _ _ _ Hnext) as Hs.
  pose proof Hc as (_ & Hp & _)%continues_inv.
  apply (continues_diverge key ins self s Hs); [by left | done |].
  intros i _. rewrite probe_position_mod by lia.
  apply (diverge_continues key ins self s Hs (S (length (array self))) position None None);
    [by left | done |].
  rewrite Nat2Z.id. pose proof (Nat.mod_upper_bound i (length (array self))). lia.
Qed.

(** The walk is decided after [table_size + 1] iterations: more fuel never
    changes the answer. *)
Theorem probe_loop_decided key ins self position n :
  (S (length (array self)) ≤ n)%nat →
  probe_loop n key ins position None None self
  = probe_loop (S (length (array self))) key ins position None None self.
Proof.
  intros Hn.
  destruct (probe_loop (S (length (array self))) key ins position None None self)
    as [o self'] eqn:Hrun.
  assert (o = Diverge ∨ o ≠ Diverge) as [->|Hnd] by (destruct o; auto).
  - pose proof (probe_loop_runs_forever key ins self position) as Hall.
    rewrite Hrun in Hall. specialize (Hall eq_refl).
    rewrite Hall. rewrite Hall in Hrun. exact Hrun.
  - rewrite <- Hrun. apply probe_loop_mono; [lia|]. by rewrite Hrun.
Qed.

(** ** The nesting of [__setitem__] and [_rehash] is bounded *)


Lemma frame_refl self : frame self self.
Proof. by split. Qed.

Lemma frame_trans self1 self2 self3 :
  frame self1 self2 → frame self2 self3 → frame self1 self3.
Proof. intros [H1 H2] [H3 H4]. split; [congruence | lia]. Qed.

Lemma preserves_bind {A B} (m : M V A) (f : A → M V B) :
  preserves m → (∀ a, preserves (V:=V) (f a)) → preserves (V:=V) (m ≫= f).
Proof.
  intros Hm Hf self o self'. unfold mbind, M_bind.
  destruct (m self) as [[a| |] self1] eqn:E; intros H.
  - eapply frame_trans; [by eapply Hm | by eapply Hf].
  - simplify_eq. by eapply Hm.
  - simplify_eq. by eapply Hm.
Qed.

Lemma preserves_mret {A} (a : A) : preserves (V:=V) (mret a : M V A).
Proof. intros self o self' H. unfold mret, M_ret in H. simplify_eq. apply frame_refl. Qed.

Lemma preserves_raise {A} e : preserves (V:=V) (raise e : M V A).
Proof. intros self o self' H. unfold raise in H. simplify_eq. apply frame_refl. Qed.

Lemma preserves_diverge {A} : preserves (V:=V) (diverge : M V A).
Proof. intros self o self' H. unfold diverge in H. simplify_eq. apply frame_refl. Qed.

Lemma preserves_lift {A} (o : outcome A) : preserves (V:=V) (lift o : M V A).
Proof. intros self o' self' H. unfold lift in H. simplify_eq. apply frame_refl. Qed.

Lemma preserves_gets {A} (f : HashyStepTable V → A) : preserves (V:=V) (gets f).
Proof. intros self o self' H. unfold gets in H. simplify_eq. apply frame_refl. Qed.

Lemma preserves_modify (f : HashyStepTable V → HashyStepTable V) :
  (∀ self, frame self (f self)) → preserves (V:=V) (modify f).
Proof. intros Hf self o self' H. unfold modify in H. simplify_eq. apply Hf. Qed.

Lemma preserves_array_getitem position : preserves (V:=V) (array_getitem position).
Proof.
  intros self o self' H. apply array_getitem_self in H as [-> _]. apply frame_refl.
Qed.

Lemma preserves_array_setitem position c : preserves (V:=V) (array_setitem position c).
Proof.
  intros self o self'. unfold array_setitem. case_match; intros; simplify_eq; by split.
Qed.

Lemma preserves_for_each {A} (l : list A) (body : A → M V unit) :
  (∀ x, preserves (V:=V) (body x)) → preserves (V:=V) (for_each l body).
Proof.
  intros Hb. induction l as [|x l IH]; simpl.
  - apply preserves_mret.
  - apply preserves_bind; auto.
Qed.

Lemma preserves_next_position key position step : preserves (V:=V) (next_position key position step).
Proof.
  intros self o self' H. apply next_position_self in H as [-> _]. apply frame_refl.
Qed.

Lemma preserves_compact position first : preserves (V:=V) (compact position first).
Proof.
  unfold compact. repeat (apply preserves_bind; [|intros ?]);
    auto using preserves_array_getitem, preserves_array_setitem, preserves_mret.
Qed.

Lemma iteration_Leave_frame key ins position step fei self o self' :
  iteration key ins position step fei self = Leave (o, self') → frame self self'.
Proof.
  unfold iteration, advance.
  repeat (case_match; simplify_eq; try done); intros; simplify_eq;
    try apply frame_refl;
    try (eapply preserves_next_position; eassumption);
    try (eapply preserves_compact; eassumption).
Qed.

Lemma preserves_probe_loop key ins :
  ∀ n position step fei, preserves (V:=V) (probe_loop n key ins position step fei).
Proof.
  induction n as [|n IH]; intros position step fei self o self' H.
  - simpl in H. unfold diverge in H. simplify_eq. apply frame_refl.
  - rewrite probe_loop_unfold in H.
    destruct (iteration key ins position step fei self) as [r|p' s' fei'] eqn:Hit.
    + subst r. by eapply iteration_Leave_frame.
    + by eapply IH.
Qed.

Lemma preserves__hashy_probe key ins : preserves (V:=V) (_hashy_probe key ins).
Proof.
  unfold _hashy_probe. apply preserves_bind; [|intros position].
  - unfold hash. apply preserves_bind; [apply preserves_gets | intros; apply preserves_lift].
  - apply preserves_bind; [apply preserves_gets | intros; apply preserves_probe_loop].
Qed.

Lemma preserves__rehash_with (setitem : string → V → M V unit) :
  (∀ k v, preserves (V:=V) (setitem k v)) → preserves (V:=V) (_rehash_with setitem).
Proof.
  intros Hs. unfold _rehash_with.
  apply preserves_bind; [apply preserves_gets | intros old_array].
  apply preserves_bind; [|intros _].
  { apply preserves_modify. intros self. split; simpl; [done | lia]. }
  apply preserves_bind; [apply preserves_gets | intros i].
  apply preserves_bind; [apply preserves_gets | intros sizes].
  destruct (i =? length sizes)%nat; [apply preserves_mret|].
  destruct (sizes !! i) as [n|]; [|apply preserves_raise].
  apply preserves_bind; [apply preserves_lift | intros a].
  apply preserves_bind; [apply preserves_modify; by split | intros _].
  apply preserves_bind; [apply preserves_modify; by split | intros _].
  apply preserves_for_each. intros [| |k v]; auto using preserves_mret.
Qed.

Lemma preserves_len : preserves (V:=V) (len : M V Z).
Proof.
  unfold len. apply preserves_bind; [apply preserves_gets | intros n].
  destruct (n <? 0); [apply preserves_raise | apply preserves_mret].
Qed.

Lemma preserves_setitem_body (setitem : string → V → M V unit) key data :
  (∀ k v, preserves (V:=V) (setitem k v)) → preserves (V:=V) (setitem_body setitem key data).
Proof.
  intros Hs. unfold setitem_body.
  apply preserves_bind; [apply preserves__hashy_probe | intros position].
  apply preserves_bind; [apply preserves_array_getitem | intros c].
  apply preserves_bind; [|intros _].
  { destruct c; try apply preserves_mret. apply preserves_modify. by split. }
  apply preserves_bind; [apply preserves_array_setitem | intros _].
  apply preserves_bind; [apply preserves_len | intros n].
  apply preserves_bind; [apply preserves_gets | intros m].
  destruct (2 * m <? 3 * n); [by apply preserves__rehash_with | apply preserves_mret].
Qed.

Lemma preserves_setitem_fuel : ∀ fuel key data, preserves (V:=V) (setitem_fuel fuel key data).
Proof.
  induction fuel as [|fuel IH]; intros key data; simpl;
    apply preserves_setitem_body; auto using preserves_diverge.
Qed.

Lemma for_each_ext {A} (I : HashyStepTable V → Prop) (l : list A)
    (body1 body2 : A → M V unit) :
  (∀ x self, I self → body1 x self = body2 x self) →
  (∀ x self o self', I self → body1 x self = (o, self') → I self') →
  ∀ self, I self → for_each l body1 self = for_each l body2 self.
Proof.
  intros Heq Hinv. induction l as [|x l IH]; intros self HI; simpl; [reflexivity|].
  unfold mbind, M_bind. rewrite <- (Heq x self HI).
  destruct (body1 x self) as [[[]| |] self1] eqn:E; try reflexivity.
  apply IH. by eapply Hinv.
Qed.

Lemma bind_ext {A B} (m : M V A) (f g : A → M V B) self :
  (∀ a self1, m self = (Return a, self1) → f a self1 = g a self1) →
  (m ≫= f) self = (m ≫= g) self.
Proof.
  intros H. unfold mbind, M_bind.
  destruct (m self) as [[a| |] self1]; auto.
Qed.

Lemma _rehash_with_ext (f g : string → V → M V unit) self :
  (∀ k v, preserves (V:=V) (f k v)) →
  (∀ k v self', frame self self' →
     (S (size_index self) ≤ size_index self')%nat →
     (S (size_index self) < length (self_TABLE_SIZES self))%nat →
     f k v self' = g k v self') →
  _rehash_with f self = _rehash_with g self.
Proof.
  intros Hf Hfg. unfold _rehash_with.
  unfold mbind, M_bind, gets, modify, lift. cbn [self_TABLE_SIZES size_index set_size_index].
  destruct (S (size_index self) =? length (self_TABLE_SIZES self))%nat; [reflexivity|].
  destruct (self_TABLE_SIZES self !! S (size_index self)) as [n|] eqn:Hn; [|reflexivity].
  apply lookup_lt_Some in Hn.
  destruct (ArrayR n) as [a| |]; try reflexivity.
  apply (for_each_ext (λ s, frame self s ∧ (S (size_index self) ≤ size_index s)%nat)).
  - intros [| |k v] s [Hfr Hidx]; auto.
  - intros [| |k v] s o s' [Hfr Hidx] Hrun.
    + unfold mret, M_ret in Hrun. by simplify_eq.
    + unfold mret, M_ret in Hrun. by simplify_eq.
    + apply Hf in Hrun as Hfr'. split; [by eapply frame_trans|].
      destruct Hfr' as [_ ?]. lia.
  - split; [split|]; simpl; [done | lia | lia].
Qed.

Lemma setitem_body_ext (f g : string → V → M V unit) key data self :
  (∀ k v, preserves (V:=V) (f k v)) →
  (∀ k v self', frame self self' →
     (S (size_index self) ≤ size_index self')%nat →
     (S (size_index self) < length (self_TABLE_SIZES self))%nat →
     f k v self' = g k v self') →
  setitem_body f key data self = setitem_body g key data self.
Proof.
  intros Hf Hfg. unfold setitem_body.
  apply bind_ext. intros position self1 H1%preserves__hashy_probe.
  apply bind_ext. intros c self2 H2%preserves_array_getitem.
  apply bind_ext. intros [] self3 H3.
  assert (frame self2 self3) as H3'.
  { destruct c; unfold modify, mret, M_ret in H3; simplify_eq; by split. }
  apply bind_ext. intros [] self4 H4%preserves_array_setitem.
  apply bind_ext. intros n self5 H5%preserves_len.
  apply bind_ext. intros m self6 H6%(preserves_gets _).
  destruct (2 * m <? 3 * n); [|reflexivity].
  assert (frame self self6) as Hfr6 by eauto 10 using frame_trans.
  apply _rehash_with_ext; [done|].
  intros k v self' Hfr' Hle Hlt. destruct Hfr6 as [Hsz Hidx]. rewrite Hsz in Hlt.
  apply Hfg; [|lia..]. eapply frame_trans; [|exact Hfr']. by split.
Qed.

(** More fuel than rungs left on the ladder changes nothing. *)
Lemma setitem_fuel_enough :
  ∀ fuel key data self,
    (length (self_TABLE_SIZES self) - size_index self ≤ fuel)%nat →
    setitem_fuel (S fuel) key data self = setitem_fuel fuel key data self.
Proof.
  induction fuel as [|fuel IH]; intros key data self Hfuel.
  - cbn [setitem_fuel]. apply setitem_body_ext.
    + intros k v. apply preserves_setitem_body. intros; apply preserves_diverge.
    + intros k v self' _ _ Hlt. lia.
  - change (setitem_body (setitem_fuel (S fuel)) key data self
            = setitem_body (setitem_fuel fuel) key data self).
    apply setitem_body_ext; [apply preserves_setitem_fuel|].
    intros k v self' [Hsz _] Hle Hlt. apply IH. rewrite Hsz. lia.
Qed.

Theorem setitem_fuel_decided fuel key data self :
  (length (self_TABLE_SIZES self) - size_index self ≤ fuel)%nat →
  setitem_fuel fuel key data self = __setitem__ key data self.
Proof.
  unfold __setitem__. induction 1 as [|fuel Hle IH]; [reflexivity|].
  rewrite setitem_fuel_enough; assumption.
Qed.

(** ** Primes and probe sequences *)

Lemma no_divisor_spec m n :
  no_divisor m n = true → ∀ d, 2 ≤ d ≤ Z.of_nat n + 1 → m mod d ≠ 0.
Proof.
  induction n as [|n IH]; intros H d Hd; [lia|].
  simpl in H. apply andb_true_iff in H as [H1 H2].
  apply negb_true_iff, Z.eqb_neq in H1.
  destruct (Z.eq_dec d (Z.of_nat n + 2)) as [->|Hne]; [exact H1|].
  apply IH; [exact H2 | lia].
Qed.

Lemma is_prime_sound m : is_prime m = true → Z.prime m.
Proof.
  unfold is_prime. intros [Hm Hnd]%andb_true_iff. apply Z.ltb_lt in Hm.
  split; [exact Hm|]. intros n Hn [q Hq].
  assert (0 < q) as Hq0 by nia.
  assert (∀ d, 2 ≤ d → d * d ≤ m → m mod d ≠ 0) as Hsmall.
  { intros d Hd Hdd. apply (no_divisor_spec _ _ Hnd).
    assert (d ≤ Z.sqrt m) by (apply Z.sqrt_le_square; lia). lia. }
  destruct (Z_le_gt_dec (n * n) m) as [Hle|Hgt].
  - apply (Hsmall n); [lia | exact Hle |].
    subst m. apply Z_mod_mult.
  - apply (Hsmall q); [nia | nia |].
    subst m. rewrite Z.mul_comm. apply Z_mod_mult.
Qed.

Lemma TABLE_SIZES_prime : Forall Z.prime TABLE_SIZES.
Proof.
  apply Forall_forall. intros m Hm.
  apply is_prime_sound.
  unfold TABLE_SIZES in Hm. repeat (apply elem_of_cons in Hm as [->|Hm]; [vm_compute; reflexivity|]).
  by apply elem_of_nil in Hm.
Qed.

(** The walk from [h] with a step coprime to [m] reaches every slot. *)
Lemma probe_position_onto m h s q :
  Z.prime m → 1 ≤ s < m → 0 ≤ q < m →
  ∃ j, (j < Z.to_nat m)%nat ∧ probe_position m h s j = q.
Proof.
  intros Hm Hs Hq.
  destruct (Z.Bezout_coprime _ _ (Z.coprime_prime_small m s Hm Hs)) as (v & u & Huv).
  pose proof (Z.prime_ge_2 _ Hm) as Hm2.
  exists (Z.to_nat (((q - h) * u) mod m)).
  pose proof (Z.mod_pos_bound ((q - h) * u) m ltac:(lia)) as Hj.
  split; [lia|].
  unfold probe_position. rewrite Z2Nat.id by lia.
  rewrite (Z.mod_eq ((q - h) * u) m) by lia.
  assert (u * s = 1 - v * m) as E by lia.
  replace (h + ((q - h) * u - m * ((q - h) * u / m)) * s)
    with (q + (- ((q - h) * v) - ((q - h) * u / m) * s) * m).
  - rewrite Z_mod_plus_full. apply Z.mod_small. lia.
  - replace ((q - h) * u - m * ((q - h) * u / m)) with ((q - h) * u - m * ((q - h) * u / m)) by ring.
    transitivity (h + (q - h) * (u * s) - m * ((q - h) * u / m) * s); [rewrite E|]; ring.
Qed.

(** ** Lookups and insertions on tidy tables *)

Lemma array_getitem_eq position self c :
  0 ≤ position → array self !! Z.to_nat position = Some c →
  array_getitem position self = (Return c, self).
Proof.
  intros Hp Hlk. unfold array_getitem.
  destruct (Z.ltb_spec position 0); [lia|]. by rewrite Hlk.
Qed.

Lemma iteration_other key ins self position step fei s k' v' :
  count self ≠ Z.of_nat (length (array self)) →
  0 ≤ position →
  array self !! Z.to_nat position = Some (Item k' v') → k' ≠ key →
  hash2_at (Z.of_nat (length (array self))) key = Return s →
  step = None ∨ step = Some s →
  iteration key ins position step fei self
  = Again ((position + s) mod Z.of_nat (length (array self))) s fei.
Proof.
  intros Hc Hp Hlk Hne Hs Hstep. unfold iteration.
  apply Z.eqb_neq in Hc. rewrite Hc, (array_getitem_eq _ _ _ Hp Hlk).
  apply String.eqb_neq in Hne. rewrite Hne. unfold advance.
  rewrite (next_position_eq _ _ _ _ s); [done..|].
  intros E. by rewrite E in Hlk.
Qed.

Lemma iteration_found key ins self position step v :
  count self ≠ Z.of_nat (length (array self)) →
  0 ≤ position →
  array self !! Z.to_nat position = Some (Item key v) →
  iteration key ins position step None self = Leave (Return position, self).
Proof.
  intros Hc Hp Hlk. unfold iteration.
  apply Z.eqb_neq in Hc. rewrite Hc, (array_getitem_eq _ _ _ Hp Hlk).
  by rewrite String.eqb_refl.
Qed.

Lemma iteration_free key self position step fei :
  count self ≠ Z.of_nat (length (array self)) →
  0 ≤ position →
  array self !! Z.to_nat position = Some PyNone →
  iteration key true position step fei self = Leave (Return position, self).
Proof.
  intros Hc Hp Hlk. unfold iteration.
  apply Z.eqb_neq in Hc. by rewrite Hc, (array_getitem_eq _ _ _ Hp Hlk).
Qed.

Lemma probe_position_nonneg m h s j : 0 < m → 0 ≤ probe_position m h s j < m.
Proof. intros Hm. unfold probe_position. apply Z.mod_pos_bound. lia. Qed.

Lemma probe_position_next m h s j :
  (probe_position m h s j + s) mod m = probe_position m h s (S j).
Proof.
  unfold probe_position. rewrite Zplus_mod_idemp_l. f_equal. lia.
Qed.

(** Slots held by other keys are walked over, whatever the intent. *)
Lemma walk_items key ins self h s :
  count self ≠ Z.of_nat (length (array self)) →
  hash2_at (Z.of_nat (length (array self))) key = Return s →
  array self ≠ [] →
  ∀ d a step fei n,
    step = None ∨ step = Some s →
    (∀ j, (a ≤ j < a + d)%nat →
       ∃ k' v', array self !! Z.to_nat (probe_position (Z.of_nat (length (array self))) h s j)
                = Some (Item k' v') ∧ k' ≠ key) →
    ∃ step', (step' = None ∨ step' = Some s) ∧
      probe_loop (d + n) key ins
        (probe_position (Z.of_nat (length (array self))) h s a) step fei self
      = probe_loop n key ins
          (probe_position (Z.of_nat (length (array self))) h s (a + d)) step' fei self.
Proof.
  intros Hc Hs Hne.
  assert (0 < Z.of_nat (length (array self))) as Hm.
  { destruct (array self); [done | simpl; lia]. }
  induction d as [|d IH]; intros a step fei n Hstep Hitems.
  - exists step. split; [done|]. by rewrite Nat.add_0_r.
  - destruct (Hitems a ltac:(lia)) as (k' & v' & Hlk & Hk').
    cbn [Nat.add]. rewrite probe_loop_unfold.
    rewrite (iteration_other _ _ _ _ _ _ s k' v'); try done.
    2: apply probe_position_nonneg; lia.
    rewrite probe_position_next.
    destruct (IH (S a) (Some s) fei n) as (step' & Hstep' & ->); [by right | |].
    + intros j Hj. apply Hitems. lia.
    + exists step'. split; [done|]. f_equal. f_equal. lia.
Qed.

Lemma hash_at_prime m key :
  Z.prime m → ∃ h s, hash_at m key = Return h ∧ hash2_at m key = Return s ∧
                   0 ≤ h < m ∧ 1 ≤ s < m.
Proof.
  intros Hm%Z.prime_ge_2.
  destruct (hash_at_range m key Hm) as (h & Hh & ?).
  destruct (hash2_at_range m key Hm) as (s & Hs & ?).
  exists h, s. repeat split; try done; lia.
Qed.

Lemma _hashy_probe_eq key ins self h :
  hash_at (Z.of_nat (length (array self))) key = Return h →
  _hashy_probe key ins self
  = probe_loop (S (length (array self))) key ins h None None self.
Proof.
  intros Hh. unfold _hashy_probe.
  rewrite (bind_Return _ _ _ _ _ (eq_trans (hash_eq key self) (f_equal (λ o, (o, self)) Hh))).
  rewrite (bind_Return _ _ _ _ _ (table_size_eq self)).
  by rewrite Nat2Z.id.
Qed.

(** On a tidy table that is not full, a lookup walks to the key's slot and
    leaves the table as it is. *)
Lemma _hashy_probe_finds key v self i :
  tidy self → count self ≠ Z.of_nat (length (array self)) →
  array self !! i = Some (Item key v) →
  _hashy_probe key false self = (Return (Z.of_nat i), self).
Proof.
  intros Ht Hc Hlk.
  destruct (tidy_placed _ Ht i key v Hlk) as (h & s & j & Hh & Hs & Hj & Hpos & Hpre).
  pose proof (Z.prime_ge_2 _ (tidy_prime _ Ht)) as Hm.
  assert (array self ≠ []) as Hne by (intros E; by rewrite E in Hlk).
  rewrite (_hashy_probe_eq _ _ _ h Hh).
  destruct (hash_at_prime _ key (tidy_prime _ Ht)) as (h' & s' & Hh' & Hs' & Hhr & Hsr).
  assert (h' = h) as -> by congruence. assert (s' = s) as -> by congruence.
  rewrite <- (probe_position_0 (Z.of_nat (length (array self))) h s) at 1 by lia.
  replace (S (length (array self))) with (j + S (length (array self) - j))%nat by lia.
  destruct (walk_items key false self h s Hc Hs Hne j 0%nat None None
              (S (length (array self) - j))) as (step' & _ & ->); [by left | |].
  { intros j' Hj'. apply Hpre. lia. }
  cbn [Nat.add]. rewrite probe_loop_unfold, Hpos.
  rewrite (iteration_found _ _ _ _ _ v); [done..| lia |].
  by rewrite Nat2Z.id.
Qed.

Lemma elem_of_bindings (a : list (cell V)) k v :
  (k, v) ∈ bindings a ↔ ∃ i, a !! i = Some (Item k v).
Proof.
  unfold bindings. rewrite list_elem_of_omap. split.
  - intros (c & Hc & Hkv). destruct c; simplify_eq.
    by apply list_elem_of_lookup in Hc.
  - intros (i & Hi). exists (Item k v). split; [|done].
    apply list_elem_of_lookup. eauto.
Qed.

Theorem __getitem___tidy key v self :
  tidy self → count self ≠ Z.of_nat (length (array self)) →
  (key, v) ∈ bindings (array self) →
  __getitem__ key self = (Return v, self).
Proof.
  intros Ht Hc (i & Hi)%elem_of_bindings. unfold __getitem__.
  rewrite (bind_Return _ _ _ _ _ (_hashy_probe_finds _ _ _ _ Ht Hc Hi)).
  rewrite (bind_Return _ _ _ (Item key v) self); [done|].
  apply array_getitem_eq; [lia|]. by rewrite Nat2Z.id.
Qed.

Lemma free_slot_exists (a : list (cell V)) :
  SENTINEL_DELETED ∉ a → (length (bindings a) < length a)%nat →
  ∃ i, a !! i = Some PyNone.
Proof.
  induction a as [|c a IH]; simpl; [lia|].
  rewrite not_elem_of_cons. intros [Hc Ha] Hlen.
  destruct c as [| |k v]; [by exists 0%nat | done |].
  simpl in Hlen. destruct IH as [i Hi]; [done | lia |]. by exists (S i).
Qed.

Lemma least_index (P : nat → Prop) :
  (∀ n, P n ∨ ¬ P n) →
  ∀ n, P n → ∃ j, (j ≤ n)%nat ∧ P j ∧ ∀ j', (j' < j)%nat → ¬ P j'.
Proof.
  intros Hdec.
  assert (∀ n, (∀ j', (j' < n)%nat → ¬ P j') ∨
               (∃ j, (j < n)%nat ∧ P j ∧ ∀ j', (j' < j)%nat → ¬ P j')) as Haux.
  { induction n as [|n [IH|(j & Hj & HP & Hl)]].
    - left. lia.
    - destruct (Hdec n) as [HP|HnP].
      + right. exists n. auto.
      + left. intros j' Hj'. destruct (decide (j' = n)) as [->|]; [done|]. apply IH. lia.
    - right. exists j. split; [lia | auto]. }
  intros n Hn. destruct (Haux n) as [Hnone|(j & Hj & HP & Hl)].
  - exists n. auto.
  - exists j. split; [lia | auto].
Qed.

Lemma bindings_length_le (a : list (cell V)) :
  (length (bindings a) ≤ length a)%nat.
Proof.
  induction a as [|[| |k v] a IH]; simpl; lia.
Qed.

Lemma elem_of_keys (a : list (cell V)) k :
  k ∈ (bindings a).*1 ↔ ∃ i v, a !! i = Some (Item k v).
Proof.
  rewrite list_elem_of_fmap. split.
  - intros ([k' v] & -> & (i & Hi)%elem_of_bindings). eauto.
  - intros (i & v & Hi). exists (k, v). split; [done|]. apply elem_of_bindings. eauto.
Qed.

(** On a tidy table that is not full, the walk for a key that is not stored
    ends on the first free slot of its probe sequence. *)
Lemma _hashy_probe_free key self :
  tidy self → count self ≠ Z.of_nat (length (array self)) →
  key ∉ (bindings (array self)).*1 →
  ∃ h s j,
    let m := Z.of_nat (length (array self)) in
    hash_at m key = Return h ∧ hash2_at m key = Return s ∧
    (j < length (array self))%nat ∧
    array self !! Z.to_nat (probe_position m h s j) = Some PyNone ∧
    (∀ j', (j' < j)%nat →
       ∃ k' v', array self !! Z.to_nat (probe_position m h s j') = Some (Item k' v') ∧ k' ≠ key) ∧
    _hashy_probe key true self = (Return (probe_position m h s j), self).
Proof.
  intros Ht Hc Hfresh.
  pose proof (Z.prime_ge_2 _ (tidy_prime _ Ht)) as Hm.
  destruct (hash_at_prime _ key (tidy_prime _ Ht)) as (h & s & Hh & Hs & Hhr & Hsr).
  assert (array self ≠ []) as Hne by (intros E; rewrite E in Hm; simpl in Hm; lia).
  (* some slot is free, and the walk reaches it *)
  destruct (free_slot_exists (array self) (tidy_no_tombstone _ Ht)) as [q Hq].
  { pose proof (tidy_count _ Ht). pose proof (bindings_length_le (array self)). lia. }
  pose proof (lookup_lt_Some _ _ _ Hq) as Hqlt.
  destruct (probe_position_onto (Z.of_nat (length (array self))) h s (Z.of_nat q)
              (tidy_prime _ Ht) Hsr ltac:(lia)) as (j0 & Hj0 & Hpos0).
  (* the first free slot on the walk *)
  destruct (least_index
              (λ j, array self !! Z.to_nat (probe_position (Z.of_nat (length (array self))) h s j)
                    = Some PyNone)) with (n := j0)
    as (j & Hj & Hfree & Hleast).
  { intros n. cbn beta.
    destruct (array self !! Z.to_nat (probe_position (Z.of_nat (length (array self))) h s n))
      as [[| |]|]; auto; right; congruence. }
  { by rewrite Hpos0, Nat2Z.id. }
  assert (∀ j', (j' < j)%nat →
     ∃ k' v', array self !! Z.to_nat (probe_position (Z.of_nat (length (array self))) h s j')
              = Some (Item k' v') ∧ k' ≠ key) as Hpre.
  { intros j' Hj'. specialize (Hleast j' Hj').
    pose proof (probe_position_nonneg (Z.of_nat (length (array self))) h s j' ltac:(lia)) as Hr.
    destruct (lookup_lt_is_Some_2 (array self)
                (Z.to_nat (probe_position (Z.of_nat (length (array self))) h s j')))
      as [c Hlk]; [lia|].
    destruct c as [| |k' v'].
    - done.
    - exfalso. apply (tidy_no_tombstone _ Ht). apply list_elem_of_lookup. eauto.
    - exists k', v'. split; [done|]. intros ->. apply Hfresh, elem_of_keys. eauto. }
  exists h, s, j. cbn zeta. split_and!; try done; [lia|].
  rewrite (_hashy_probe_eq _ _ _ h Hh).
  rewrite <- (probe_position_0 (Z.of_nat (length (array self))) h s) at 1 by lia.
  replace (S (length (array self))) with (j + S (length (array self) - j))%nat by lia.
  destruct (walk_items key true self h s Hc Hs Hne j 0%nat None None
              (S (length (array self) - j))) as (step' & _ & ->); [by left | |].
  { intros j' Hj'. apply Hpre. lia. }
  cbn [Nat.add]. rewrite probe_loop_unfold.
  rewrite iteration_free; [done..| |done].
  apply probe_position_nonneg. lia.
Qed.

Lemma bindings_insert (a : list (cell V)) i k v :
  a !! i = Some PyNone →
  bindings (<[i := Item k v]> a) ≡ₚ (k, v) :: bindings a.
Proof.
  intros Hi. pose proof (lookup_lt_Some _ _ _ Hi) as Hlt.
  rewrite insert_take_drop by done.
  rewrite <- (take_drop_middle a i PyNone Hi) at 3.
  unfold bindings. rewrite !omap_app. simpl.
  by rewrite Permutation_middle.
Qed.


Lemma tidy_insert_at self key data h s j :
  let m := Z.of_nat (length (array self)) in
  tidy self →
  key ∉ (bindings (array self)).*1 →
  hash_at m key = Return h → hash2_at m key = Return s →
  (j < length (array self))%nat →
  array self !! Z.to_nat (probe_position m h s j) = Some PyNone →
  (∀ j', (j' < j)%nat →
     ∃ k' v', array self !! Z.to_nat (probe_position m h s j') = Some (Item k' v') ∧ k' ≠ key) →
  tidy (insert_at self (probe_position m h s j) key data).
Proof.
  intros m Ht Hfresh Hh Hs Hj Hfree Hpre.
  pose proof (Z.prime_ge_2 _ (tidy_prime _ Ht)) as Hm.
  pose proof (bindings_insert _ _ key data Hfree) as Hperm.
  assert (∀ x k v, array self !! x = Some (Item k v) →
            <[Z.to_nat (probe_position m h s j) := Item key data]> (array self) !! x
            = Some (Item k v)) as Hkeep.
  { intros x k v Hx. rewrite list_lookup_insert_ne; [done|]. intros <-. congruence. }
  constructor; simpl.
  - rewrite length_insert. apply Ht.
  - intros Hin. apply list_elem_of_lookup in Hin as [x Hx].
    apply list_lookup_insert_Some in Hx as [(_ & ? & _)|[_ Hx]]; [done|].
    apply (tidy_no_tombstone _ Ht), list_elem_of_lookup. eauto.
  - rewrite Hperm. simpl. rewrite (tidy_count _ Ht). lia.
  - rewrite Hperm. simpl. apply NoDup_cons. split; [done | apply Ht].
  - unfold placed. simpl. rewrite length_insert. fold m.
    intros x k v Hx.
    apply list_lookup_insert_Some in Hx as [(Hxp & Hkv & _)|[Hxp Hx]].
    + simplify_eq. exists h, s, j. split_and!; try done.
      * subst m. pose proof (probe_position_nonneg (Z.of_nat (length (array self))) h s j). lia.
      * intros j' Hj'. destruct (Hpre j' Hj') as (k' & v' & Hlk & Hne). eauto.
    + destruct (tidy_placed _ Ht x k v Hx) as (h' & s' & j' & Hh' & Hs' & Hj' & Hpos' & Hpre').
      exists h', s', j'. split_and!; try done.
      intros j'' Hj''. destruct (Hpre' j'' Hj'') as (k' & v' & Hlk & Hne). eauto.
Qed.

(** ** Setting keys along the ladder *)

Lemma setitem_fuel_unfold fuel key (data : V) self :
  setitem_fuel fuel key data self
  = setitem_body (match fuel with
                  | O => λ _ _, diverge
                  | S fuel' => setitem_fuel fuel'
                  end) key data self.
Proof. destruct fuel; reflexivity. Qed.

Lemma setitem_body_free (f : string → V → M V unit) key data self position :
  _hashy_probe key true self = (Return position, self) →
  0 ≤ position →
  array self !! Z.to_nat position = Some PyNone →
  0 ≤ count self →
  setitem_body f key data self
  = (if 2 * Z.of_nat (length (array self)) <? 3 * (count self + 1)
     then _rehash_with f else mret tt) (insert_at self position key data).
Proof.
  intros Hprobe Hp Hfree Hcount. unfold setitem_body.
  pose proof (lookup_lt_Some _ _ _ Hfree) as Hlt.
  rewrite (bind_Return _ _ _ _ _ Hprobe).
  rewrite (bind_Return _ _ _ _ _ (array_getitem_eq _ _ _ Hp Hfree)).
  rewrite (bind_Return _ _ _ tt (set_count (count self + 1) self)) by reflexivity.
  rewrite (bind_Return _ _ _ tt (insert_at self position key data)).
  2:{ unfold array_setitem. simpl.
      destruct (Z.ltb_spec position 0); [lia|].
      destruct (Z.leb_spec (Z.of_nat (length (array self))) position); [lia|]. reflexivity. }
  rewrite (bind_Return _ _ _ (count self + 1) (insert_at self position key data)).
  2:{ unfold len, __len__, gets, mbind, M_bind. simpl.
      destruct (Z.ltb_spec (count self + 1) 0); [lia | reflexivity]. }
  rewrite (bind_Return _ _ _ _ _ (table_size_eq _)).
  simpl. by rewrite length_insert.
Qed.

(** Setting a key that is not stored, below the load factor: the entry goes
    to the first free slot of its walk and nothing else changes. *)
Lemma setitem_body_tidy (f : string → V → M V unit) key data self :
  tidy self →
  key ∉ (bindings (array self)).*1 →
  3 * (count self + 1) ≤ 2 * Z.of_nat (length (array self)) →
  ∃ self',
    setitem_body f key data self = (Return tt, self') ∧
    tidy self' ∧
    bindings (array self') ≡ₚ (key, data) :: bindings (array self) ∧
    length (array self') = length (array self) ∧
    self_TABLE_SIZES self' = self_TABLE_SIZES self ∧
    size_index self' = size_index self.
Proof.
  intros Ht Hfresh Hload.
  pose proof (tidy_count _ Ht) as Hcnt.
  destruct (_hashy_probe_free key self Ht ltac:(lia) Hfresh)
    as (h & s & j & Hh & Hs & Hj & Hfree & Hpre & Hprobe).
  pose proof (probe_position_nonneg (Z.of_nat (length (array self))) h s j ltac:(lia)) as Hr.
  eexists. split.
  - rewrite (setitem_body_free _ _ _ _ _ Hprobe); [|lia | done | lia].
    destruct (Z.ltb_spec (2 * Z.of_nat (length (array self))) (3 * (count self + 1))); [lia|].
    reflexivity.
  - split_and!; simpl; try done.
    + by apply tidy_insert_at.
    + by apply bindings_insert.
    + by rewrite length_insert.
Qed.

(** Re-inserting the entries of an old array into a tidy table with room. *)
Lemma reinsert_tidy fuel (items : list (cell V)) :
  ∀ self,
    tidy self →
    NoDup (bindings items).*1 →
    (∀ k, k ∈ (bindings items).*1 → k ∉ (bindings (array self)).*1) →
    3 * (count self + Z.of_nat (length (bindings items))) ≤ 2 * Z.of_nat (length (array self)) →
    ∃ self',
      for_each items (λ item, match item with
                              | Item key value => setitem_fuel fuel key value
                              | _ => mret tt
                              end) self = (Return tt, self') ∧
      tidy self' ∧
      bindings (array self') ≡ₚ bindings items ++ bindings (array self) ∧
      length (array self') = length (array self) ∧
      self_TABLE_SIZES self' = self_TABLE_SIZES self ∧
      size_index self' = size_index self.
Proof.
  induction items as [|c items IH]; intros self Ht Hnd Hdisj Hload.
  - exists self. by split_and!.
  - destruct c as [| |k v]; [by apply IH | by apply IH |].
    simpl in Hnd, Hdisj, Hload. apply NoDup_cons in Hnd as [Hk Hnd].
    destruct (setitem_body_tidy
                (match fuel with O => λ _ _, diverge | S fuel' => setitem_fuel fuel' end)
                k v self Ht) as (self1 & Hset & Ht1 & Hb1 & Hl1 & Hs1 & Hi1).
    { apply Hdisj. left. }
    { lia. }
    destruct (IH self1 Ht1 Hnd) as (self' & Hrun & Ht' & Hb' & Hl' & Hs' & Hi').
    { intros k' Hk'. rewrite Hb1. simpl. apply not_elem_of_cons. split.
      - intros ->. done.
      - apply Hdisj. by right. }
    { rewrite (tidy_count _ Ht1), Hb1, Hl1. simpl.
      rewrite (tidy_count _ Ht) in Hload. lia. }
    exists self'. split_and!; try congruence.
    + cbn [for_each]. rewrite <- setitem_fuel_unfold in Hset.
      by rewrite (bind_Return _ _ _ _ _ Hset).
    + rewrite Hb', Hb1. simpl. by rewrite Permutation_middle.
Qed.


Lemma grows_lookup sizes :
  grows sizes = true →
  ∀ i m m', sizes !! i = Some m → sizes !! S i = Some m' → m + 2 ≤ m'.
Proof.
  induction sizes as [|m0 sizes IH]; intros Hg i m m' Hm Hm'; [done|].
  simpl in Hg. destruct sizes as [|m1 sizes]; [by destruct i|].
  apply andb_true_iff in Hg as [H01 Hg]. apply Z.leb_le in H01.
  destruct i as [|i]; simpl in *.
  - by simplify_eq.
  - by eapply IH.
Qed.

Lemma ladder_ok_prime sizes i m :
  ladder_ok sizes = true → sizes !! i = Some m → Z.prime m.
Proof.
  intros [Hp _]%andb_true_iff Hm. apply is_prime_sound.
  rewrite forallb_forall in Hp. apply Hp.
  apply list_elem_of_In, list_elem_of_lookup. eauto.
Qed.

Lemma bindings_replicate (n : nat) : bindings (replicate n (@PyNone V)) = [].
Proof. induction n as [|n IH]; [reflexivity | exact IH]. Qed.

Lemma tidy_fresh_array sizes i (n : nat) :
  Z.prime (Z.of_nat n) → tidy (mkTable sizes i (replicate n (@PyNone V)) 0).
Proof.
  intros Hn. constructor; simpl.
  - by rewrite length_replicate.
  - intros [? _]%elem_of_replicate. done.
  - by rewrite bindings_replicate.
  - rewrite bindings_replicate. constructor.
  - intros x k v [? _]%lookup_replicate. done.
Qed.

(** One [__setitem__] of a key that is not stored, on a table that sits on a
    rung of a ladder of primes, as long as the last rung's load factor is
    not breached: it returns, and the table sits on a rung again. *)
Lemma __setitem___on_ladder key data self mlast :
  ladder_ok (self_TABLE_SIZES self) = true →
  last (self_TABLE_SIZES self) = Some mlast →
  on_ladder self →
  key ∉ (bindings (array self)).*1 →
  3 * (count self + 1) ≤ 2 * mlast →
  ∃ self',
    __setitem__ key data self = (Return tt, self') ∧
    on_ladder self' ∧
    bindings (array self') ≡ₚ (key, data) :: bindings (array self) ∧
    self_TABLE_SIZES self' = self_TABLE_SIZES self.
Proof.
  intros Hok Hlast [Ht Hrung Hload] Hfresh Hroom.
  pose proof (tidy_count _ Ht) as Hcnt.
  pose proof (Z.prime_ge_2 _ (tidy_prime _ Ht)) as Hm.
  unfold __setitem__. rewrite setitem_fuel_unfold.
  destruct (Z.le_gt_cases (3 * (count self + 1)) (2 * Z.of_nat (length (array self))))
    as [Hfits|Hbreach].
  { (* below the load factor *)
    destruct (setitem_body_tidy
                (match (length (self_TABLE_SIZES self) - size_index self)%nat with
                 | O => λ _ _, diverge | S fuel' => setitem_fuel fuel' end)
                key data self Ht Hfresh Hfits) as (self' & Hset & Ht' & Hb' & Hl' & Hs' & Hi').
    exists self'. split_and!; try done.
    constructor; [done | by rewrite Hs', Hi', Hl' |].
    rewrite (tidy_count _ Ht'), Hb', Hl'. simpl. lia. }
  (* the load factor is breached: this rung is not the last *)
  pose proof (lookup_lt_Some _ _ _ Hrung) as Hidx.
  assert (S (size_index self) < length (self_TABLE_SIZES self))%nat as Hnext.
  { destruct (decide (S (size_index self) = length (self_TABLE_SIZES self))) as [E|]; [|lia].
    rewrite last_lookup, <- E in Hlast. simpl in Hlast. rewrite Hrung in Hlast.
    simplify_eq. lia. }
  destruct (lookup_lt_is_Some_2 _ _ Hnext) as [m' Hm'].
  pose proof (ladder_ok_prime _ _ _ Hok Hm') as Hprime'.
  pose proof (grows_lookup _ ltac:(by apply andb_true_iff in Hok as [_ ?]) _ _ _ Hrung Hm') as Hgrow.
  destruct (length (self_TABLE_SIZES self) - size_index self)%nat as [|fuel] eqn:Hfuel; [lia|].
  destruct (_hashy_probe_free key self Ht ltac:(lia) Hfresh)
    as (h & s & j & Hh & Hs & Hj & Hfree & Hpre & Hprobe).
  pose proof (probe_position_nonneg (Z.of_nat (length (array self))) h s j ltac:(lia)) as Hr.
  rewrite (setitem_body_free _ _ _ _ _ Hprobe); [|lia | done | lia].
  destruct (Z.ltb_spec (2 * Z.of_nat (length (array self))) (3 * (count self + 1))); [|lia].
  pose proof (tidy_insert_at self key data h s j Ht Hfresh Hh Hs Hj Hfree Hpre) as Ht1.
  pose proof (bindings_insert _ _ key data Hfree) as Hb1.
  set (self1 := insert_at self (probe_position (Z.of_nat (length (array self))) h s j) key data) in *.
  assert (bindings (array self1) ≡ₚ (key, data) :: bindings (array self)) as Hb1' by exact Hb1.
  assert (Z.of_nat (length (bindings (array self1))) = count self + 1) as Hlen1.
  { rewrite Hb1'. simpl. lia. }
  pose proof (Z.prime_ge_2 _ Hprime') as Hm'2.
  (* the fresh array of the next rung, and the re-insertion *)
  destruct (reinsert_tidy fuel (array self1)
              (mkTable (self_TABLE_SIZES self) (S (size_index self))
                 (replicate (Z.to_nat m') PyNone) 0))
    as (self' & Hrun & Ht' & Hb' & Hl' & Hs' & Hi').
  { apply tidy_fresh_array. pose proof (Z.prime_ge_2 _ Hprime'). by rewrite Z2Nat.id by lia. }
  { apply Ht1. }
  { intros k _. simpl. rewrite bindings_replicate. apply not_elem_of_nil. }
  { cbn [count array]. rewrite length_replicate, Hlen1. lia. }
  simpl in Hl', Hs', Hi'. rewrite length_replicate in Hl'.
  exists self'. split_and!; try done.
  - unfold _rehash_with, mbind, M_bind, gets, modify, lift.
    cbn [self_TABLE_SIZES size_index set_size_index self1 insert_at].
    destruct (Nat.eqb_spec (S (size_index self)) (length (self_TABLE_SIZES self))); [lia|].
    rewrite Hm'. unfold ArrayR.
    pose proof (Z.prime_ge_2 _ Hprime').
    destruct (Z.leb_spec m' 0); [lia|]. exact Hrun.
  - constructor; [done | |].
    + rewrite Hs', Hi', Hl', Hm'. f_equal. pose proof (Z.prime_ge_2 _ Hprime'). lia.
    + rewrite (tidy_count _ Ht'), Hb', Hl', length_app. cbn [array].
      rewrite bindings_replicate. cbn [length]. lia.
  - rewrite Hb'. cbn [array]. by rewrite bindings_replicate, app_nil_r.
Qed.

Lemma perform_Set__Return key (data : V) self self' :
  __setitem__ key data self = (Return tt, self') →
  perform (Set_ key data) self = (Return Done, self').
Proof. intros H. unfold perform. by rewrite (bind_Return _ _ _ _ _ H). Qed.

(** Setting pairwise distinct new keys, as long as the last rung's load
    factor is not breached: every call returns and every pair is stored. *)
Lemma run_sets_on_ladder mlast (kvs : list (string * V)) :
  ∀ self,
    ladder_ok (self_TABLE_SIZES self) = true →
    last (self_TABLE_SIZES self) = Some mlast →
    on_ladder self →
    NoDup kvs.*1 →
    (∀ k, k ∈ kvs.*1 → k ∉ (bindings (array self)).*1) →
    3 * (count self + Z.of_nat (length kvs)) ≤ 2 * mlast →
    ∃ self',
      run (sets kvs) self = (map (λ _, Return Done) kvs, self') ∧
      on_ladder self' ∧
      bindings (array self') ≡ₚ kvs ++ bindings (array self).
Proof.
  induction kvs as [|[k v] kvs IH]; intros self Hok Hlast Hon Hnd Hnew Hroom.
  - exists self. by split_and!.
  - cbn [fmap list_fmap fst length] in Hnd, Hnew, Hroom.
    apply NoDup_cons in Hnd as [Hk Hnd].
    destruct (__setitem___on_ladder k v self mlast Hok Hlast Hon)
      as (self1 & Hset & Hon1 & Hb1 & Hs1).
    { apply Hnew. left. }
    { lia. }
    destruct (IH self1) as (self' & Hrun & Hon' & Hb'); try done.
    { by rewrite Hs1. }
    { by rewrite Hs1. }
    { intros k' Hk'. rewrite Hb1. cbn [fmap list_fmap fst]. apply not_elem_of_cons. split.
      - by intros ->.
      - apply Hnew. by right. }
    { rewrite (tidy_count _ (on_tidy _ Hon1)), Hb1. cbn [length].
      rewrite (tidy_count _ (on_tidy _ Hon)) in Hroom. lia. }
    exists self'. split_and!; [|done|].
    + cbn [sets map run fst snd]. rewrite (perform_Set__Return _ _ _ _ Hset).
      fold (sets kvs). by rewrite Hrun.
    + rewrite Hb', Hb1. by rewrite <- Permutation_middle.
Qed.

(** The table [__init__] builds sits on the first rung of its ladder. *)
Lemma __init___on_ladder sizes (self0 : HashyStepTable V) :
  __init__ sizes = Return self0 →
  ladder_ok (default TABLE_SIZES sizes) = true →
  self_TABLE_SIZES self0 = default TABLE_SIZES sizes ∧
  count self0 = 0 ∧ bindings (array self0) = [] ∧ on_ladder self0.
Proof.
  unfold __init__. intros Hinit Hok.
  destruct (default TABLE_SIZES sizes !! 0%nat) as [n|] eqn:Hn; [|done].
  pose proof (Z.prime_ge_2 _ (ladder_ok_prime _ _ _ Hok Hn)) as Hn2.
  unfold ArrayR in Hinit. destruct (Z.leb_spec n 0); [lia|].
  cbn in Hinit. simplify_eq. cbn [self_TABLE_SIZES count array size_index].
  split_and!; try done; [apply bindings_replicate|].
  constructor; cbn [self_TABLE_SIZES count array size_index].
  - apply tidy_fresh_array. rewrite Z2Nat.id by lia. by eapply ladder_ok_prime.
  - rewrite Hn, length_replicate. f_equal. lia.
  - lia.
Qed.

(** Round trip on any ladder of growing primes: from the table [__init__]
    builds, setting [n] pairwise distinct keys with [3 n ≤ 2 mlast], [mlast]
    the last rung, returns every time, across every rehash on the way, and
    afterwards [get] of every key returns the value set for it and leaves
    the table as it is. *)
Theorem round_trip_on_ladder sizes mlast (self0 : HashyStepTable V)
    (kvs : list (string * V)) :
  __init__ sizes = Return self0 →
  ladder_ok (default TABLE_SIZES sizes) = true →
  last (default TABLE_SIZES sizes) = Some mlast →
  NoDup kvs.*1 →
  3 * Z.of_nat (length kvs) ≤ 2 * mlast →
  ∃ self,
    run (sets kvs) self0 = (map (λ _, Return Done) kvs, self) ∧
    ∀ k v, (k, v) ∈ kvs → __getitem__ k self = (Return v, self).
Proof.
  intros Hinit Hok Hlast Hnd Hroom.
  destruct (__init___on_ladder _ _ Hinit Hok) as (Hs0 & Hc0 & Hb0 & Hon0).
  destruct (run_sets_on_ladder mlast kvs self0) as (self & Hrun & Hon & Hb); try done.
  { by rewrite Hs0. }
  { by rewrite Hs0. }
  { intros k _. rewrite Hb0. apply not_elem_of_nil. }
  { lia. }
  exists self. split; [done|]. intros k v Hkv.
  apply __getitem___tidy; [apply Hon | |].
  - pose proof (on_load _ Hon).
    pose proof (Z.prime_ge_2 _ (tidy_prime _ (on_tidy _ Hon))). lia.
  - rewrite Hb, Hb0, app_nil_r. done.
Qed.

End Proofs.

(** * The claims of the specification *)

(** ** Rehash requests at the end of the ladder *)

(** On the last rung a rehash request only moves [size_index] past the end. *)
Lemma _rehash_on_last_rung {V} (self : HashyStepTable V) :
  S (size_index self) = length (self_TABLE_SIZES self) →
  _rehash self = (Return tt, set_size_index (S (size_index self)) self).
Proof.
  intros Hlast. unfold _rehash, _rehash_with, mbind, M_bind, gets, modify.
  cbn -[Nat.eqb lookup].
  destruct (Nat.eqb_spec (S (size_index self)) (length (self_TABLE_SIZES self)));
    [reflexivity | contradiction].
Qed.

(** Once [size_index] is past the end, the guard no longer matches and the
    ladder lookup raises. *)
Lemma _rehash_past_the_ladder {V} (self : HashyStepTable V) :
  (length (self_TABLE_SIZES self) ≤ size_index self)%nat →
  _rehash self = (Raise IndexError, set_size_index (S (size_index self)) self).
Proof.
  intros Hpast. unfold _rehash, _rehash_with, mbind, M_bind, gets, modify.
  cbn -[Nat.eqb lookup].
  destruct (Nat.eqb_spec (S (size_index self)) (length (self_TABLE_SIZES self))); [lia|].
  rewrite lookup_ge_None_2 by lia. reflexivity.
Qed.

(** C1: on the one-rung ladder [5] the table sits on its last rung from the
    start. The fourth insertion breaches the load factor and the rehash
    request is silently dropped (same array, same count), but it leaves
    [size_index] past the end of the ladder, so the next breach, on the fifth
    insertion, is not ignored: it raises IndexError after the write. *)
Theorem second_breach_on_last_rung_raises :
  ∃ self0 self4 self5 : HashyStepTable Z,
    __init__ (Some [5]) = Return self0 ∧
    run [Set_ "a" 1; Set_ "b" 2; Set_ "c" 3; Set_ "d" 4] self0
      = ([Return Done; Return Done; Return Done; Return Done], self4) ∧
    self4 = mkTable [5] 1 [Item "d" 4; PyNone; Item "a" 1; Item "b" 2; Item "c" 3] 4 ∧
    __setitem__ "e" 5 self4 = (Raise IndexError, self5) ∧
    self5 = mkTable [5] 2 [Item "d" 4; Item "e" 5; Item "a" 1; Item "b" 2; Item "c" 3] 5.
Proof.
  eexists _, _, _. split; [reflexivity|].
  split; [vm_compute; reflexivity|].
  split; [reflexivity|].
  split; [vm_compute; reflexivity|reflexivity].
Qed.

(** ** The count and the occupied slots *)

(** C2: set, delete, set of one key on the default table. The second set
    lands on the tombstone the delete left, and [count] is not incremented
    for it: [len] answers 0 while one slot is occupied. One more delete
    drives [count] to -1, and [len] itself raises. *)
Theorem count_misses_reused_tombstone :
  ∃ self0 self self' : HashyStepTable Z,
    __init__ None = Return self0 ∧
    run [Set_ "a" 1; Del "a"; Set_ "a" 2] self0
      = ([Return Done; Return Done; Return Done], self) ∧
    array self = [PyNone; PyNone; Item "a" 2; PyNone; PyNone] ∧
    __len__ self = (Return 0, self) ∧
    occupied self = 1 ∧
    run [Del "a"; Len] self = ([Return Done; Raise ValueError], self') ∧
    count self' = -1.
Proof.
  eexists _, _, _. split; [reflexivity|].
  split; [vm_compute; reflexivity|].
  repeat split; vm_compute; reflexivity.
Qed.

(** ** Uniqueness of keys *)

(** C3: "a" and "f" both hash to slot 2 of the default table, so "f" is
    stored at slot 0, one step further. After "a" is deleted, setting "f"
    again stops at the tombstone in slot 2 and writes a second binding: "f"
    now occupies slots 0 and 2. Deleting "f" once leaves the stale binding
    visible. *)
Theorem insert_duplicates_key_behind_tombstone :
  ∃ self0 self self' : HashyStepTable Z,
    __init__ None = Return self0 ∧
    run [Set_ "a" 1; Set_ "f" 2; Del "a"; Set_ "f" 3] self0
      = ([Return Done; Return Done; Return Done; Return Done], self) ∧
    array self = [Item "f" 2; PyNone; Item "f" 3; PyNone; PyNone] ∧
    slots_of "f" self = [0%nat; 2%nat] ∧
    run [Del "f"; Contains "f"; Get "f"] self
      = ([Return Done; Return (Truth true); Return (Value 2)], self').
Proof.
  eexists _, _, _. split; [reflexivity|].
  split; [vm_compute; reflexivity|].
  repeat split; vm_compute; reflexivity.
Qed.

(** ** Lookups on a full table *)

(** On a full table the walk is left at once, whatever the key and whatever
    the slots hold. *)
Lemma _hashy_probe_on_full_table {V} (self : HashyStepTable V) (key : string)
    (is_insert : bool) :
  count self = Z.of_nat (length (array self)) →
  2 ≤ Z.of_nat (length (array self)) →
  _hashy_probe key is_insert self
  = (if is_insert then Raise FullError else Raise (KeyError key), self).
Proof.
  intros Hfull Hm.
  destruct (hash_at_range _ key Hm) as (h & Hh & _).
  rewrite (_hashy_probe_eq _ _ _ h Hh), probe_loop_unfold.
  unfold iteration. apply Z.eqb_eq in Hfull. rewrite Hfull. reflexivity.
Qed.

(** C4: the ladder [3] lets three insertions fill the table without any
    exception (the third one takes the silent no-op). On that full table the
    fullness test ends the walk under lookup intent too, before any slot is
    read: get and delete of the stored key "a" raise KeyError, and the
    membership test answers false. *)
Theorem lookup_on_full_table_raises_KeyError :
  ∃ self0 self : HashyStepTable Z,
    __init__ (Some [3]) = Return self0 ∧
    run [Set_ "a" 1; Set_ "b" 2; Set_ "c" 3] self0
      = ([Return Done; Return Done; Return Done], self) ∧
    self = mkTable [3] 1 [Item "c" 3; Item "a" 1; Item "b" 2] 3 ∧
    _hashy_probe "a" false self = (Raise (KeyError "a"), self) ∧
    __getitem__ "a" self = (Raise (KeyError "a"), self) ∧
    __delitem__ "a" self = (Raise (KeyError "a"), self) ∧
    __contains__ "a" self = (Return false, self) ∧
    _hashy_probe "a" true self = (Raise FullError, self).
Proof.
  eexists _, _. split; [reflexivity|].
  split; [vm_compute; reflexivity|].
  repeat split; vm_compute; reflexivity.
Qed.

(** ** Termination of the probe walk *)

(** C5: set and delete "a" to "e" on the default table; the five keys hash
    to the five slots, so every slot ends up a tombstone and [count] is 0.
    From then on a lookup of any key never leaves the loop: the table is not
    full and no slot is empty, so every slot sends the walk on. *)
Theorem lookup_among_tombstones_never_returns :
  ∃ self0 self : HashyStepTable Z,
    __init__ None = Return self0 ∧
    run [Set_ "a" 1; Del "a"; Set_ "b" 2; Del "b"; Set_ "c" 3; Del "c";
         Set_ "d" 4; Del "d"; Set_ "e" 5; Del "e"] self0
      = (replicate 10 (Return Done), self) ∧
    self = mkTable TABLE_SIZES 0 (replicate 5 SENTINEL_DELETED) 0 ∧
    ∀ key, ∃ h,
      hash key self = (Return h, self) ∧
      (∀ fuel, probe_loop fuel key false h None None self = (Diverge, self)) ∧
      _hashy_probe key false self = (Diverge, self) ∧
      __getitem__ key self = (Diverge, self).
Proof.
  set (self := mkTable TABLE_SIZES 0 (replicate 5 (@SENTINEL_DELETED Z)) 0).
  exists (mkTable TABLE_SIZES 0 (replicate 5 PyNone) 0), self.
  split; [reflexivity|].
  split; [vm_compute; reflexivity|].
  split; [reflexivity|].
  intros key.
  destruct (hash_at_range (Z.of_nat (length (array self))) key)
    as (h & Hh & Hhr); [cbn; lia|].
  destruct (hash2_at_range (Z.of_nat (length (array self))) key)
    as (s & Hs & Hsr); [cbn; lia|].
  assert (∀ fuel, probe_loop fuel key false h None None self = (Diverge, self)) as Hloop.
  { intros fuel. apply (continues_diverge key false self s Hs); [by left | exact Hhr |].
    intros i _.
    pose proof (probe_position_nonneg (Z.of_nat (length (array self))) h s i ltac:(simpl; lia)) as Hp.
    unfold continues. cbn [count array self] in Hp |- *.
    rewrite length_replicate in Hp |- *.
    destruct (Z.leb_spec 0 (probe_position (Z.of_nat 5) h s i)); [|lia].
    rewrite lookup_replicate_2 by lia. reflexivity. }
  exists h. split_and!.
  - by rewrite hash_eq, Hh.
  - exact Hloop.
  - rewrite (_hashy_probe_eq _ _ _ h Hh). apply Hloop.
  - unfold __getitem__. apply bind_Diverge.
    rewrite (_hashy_probe_eq _ _ _ h Hh). apply Hloop.
Qed.

(** ** Round trip *)

Lemma TABLE_SIZES_ok : ladder_ok TABLE_SIZES = true.
Proof. vm_compute. reflexivity. Qed.

Lemma TABLE_SIZES_last : last TABLE_SIZES = Some 1572869.
Proof. reflexivity. Qed.

(** C6: on the one-rung ladder [7] six pairwise distinct keys are fewer than
    the capacity, yet the round trip does not get through. The fifth
    insertion breaches the load factor and uses up the one silent no-op of
    [_rehash]; the sixth writes its entry and then raises IndexError. On the
    ladder [7; 17], where the breach finds a next rung, the same six
    insertions return and [get] gives back every value. *)
Theorem round_trip_breaks_on_last_rung :
  (∃ self0 self : HashyStepTable Z,
     __init__ (Some [7]) = Return self0 ∧
     NoDup [("a", 1); ("b", 2); ("c", 3); ("d", 4); ("e", 5); ("f", 6)].*1 ∧
     Z.of_nat (length [("a", 1); ("b", 2); ("c", 3); ("d", 4); ("e", 5); ("f", 6)])
     < Z.of_nat (length (array self0)) ∧
     run (sets [("a", 1); ("b", 2); ("c", 3); ("d", 4); ("e", 5); ("f", 6)]) self0
       = ([Return Done; Return Done; Return Done; Return Done; Return Done;
           Raise IndexError], self) ∧
     self = mkTable [7] 2
              [Item "b" 2; Item "c" 3; Item "d" 4; Item "e" 5; Item "f" 6; PyNone;
               Item "a" 1] 6) ∧
  (∃ self0 self : HashyStepTable Z,
     __init__ (Some [7; 17]) = Return self0 ∧
     run (sets [("a", 1); ("b", 2); ("c", 3); ("d", 4); ("e", 5); ("f", 6)]) self0
       = ([Return Done; Return Done; Return Done; Return Done; Return Done;
           Return Done], self) ∧
     size_index self = 1%nat ∧
     ∀ k v, (k, v) ∈ [("a", 1); ("b", 2); ("c", 3); ("d", 4); ("e", 5); ("f", 6)] →
            __getitem__ k self = (Return v, self)).
Proof.
  split.
  - eexists _, _. split; [reflexivity|].
    split; [apply (bool_decide_unpack _); vm_compute; exact I|].
    split; [vm_compute; reflexivity|].
    split; [vm_compute; reflexivity | reflexivity].
  - exists (mkTable [7; 17] 0 (replicate 7 PyNone) 0),
           (mkTable [7; 17] 1
              [Item "f" 6; PyNone; PyNone; PyNone; PyNone; PyNone; PyNone; PyNone;
               PyNone; PyNone; PyNone; PyNone; Item "a" 1; Item "b" 2; Item "c" 3;
               Item "d" 4; Item "e" 5] 6).
    split; [reflexivity|].
    split; [vm_compute; reflexivity|].
    split; [reflexivity|].
    intros k v Hin.
    repeat (apply elem_of_cons in Hin as [[= -> ->]|Hin]; [vm_compute; reflexivity|]).
    by apply elem_of_nil in Hin.
Qed.

(** ** Exhaustion of the ladder [5, 5] *)

(** C7: on the ladder [5, 5] the fourth insertion rehashes into the second
    rung and, while re-inserting, uses up the silent no-op; the fifth
    insertion of a distinct key writes its entry and then raises IndexError
    instead of succeeding. Only the sixth raises FullError. *)
Theorem exhaustion_5_5_fifth_insert_raises :
  ∃ self0 self : HashyStepTable Z,
    __init__ (Some [5; 5]) = Return self0 ∧
    run [Set_ "a" 1; Set_ "b" 2; Set_ "c" 3; Set_ "d" 4; Set_ "e" 5; Set_ "f" 6] self0
      = ([Return Done; Return Done; Return Done; Return Done;
          Raise IndexError; Raise FullError], self) ∧
    self = mkTable [5; 5] 3 [Item "d" 4; Item "e" 5; Item "a" 1; Item "b" 2; Item "c" 3] 5.
Proof.
  eexists _, _. split; [reflexivity|].
  split; [vm_compute; reflexivity|reflexivity].
Qed.

(** ** Compaction on lookup *)

(** C8: "d" and "i" both hash to slot 0 of the default table; "i" is stored
    at slot 2. After "d" is deleted the walk for "i" passes the tombstone at
    index 0 and finds "i" at index 2, but index 0 tests false in
    [if first_empty_index:], so nothing is swapped and 2 is returned. With
    the tombstone at a non-zero index (keys "a" and "f", tombstone at 2,
    entry at 0) the same walk does swap and returns the tombstone's index. *)
Theorem no_compaction_into_index_0 :
  ∃ self0 self other : HashyStepTable Z,
    __init__ None = Return self0 ∧
    run [Set_ "d" 1; Set_ "i" 2; Del "d"] self0
      = ([Return Done; Return Done; Return Done], self) ∧
    array self = [SENTINEL_DELETED; PyNone; Item "i" 2; PyNone; PyNone] ∧
    hash "i" self = (Return 0, self) ∧
    _hashy_probe "i" false self = (Return 2, self) ∧
    run [Set_ "a" 1; Set_ "f" 2; Del "a"] self0
      = ([Return Done; Return Done; Return Done], other) ∧
    array other = [Item "f" 2; PyNone; SENTINEL_DELETED; PyNone; PyNone] ∧
    _hashy_probe "f" false other
      = (Return 2, set_array [SENTINEL_DELETED; PyNone; Item "f" 2; PyNone; PyNone] other).
Proof.
  eexists _, _, _. split; [reflexivity|].
  split; [vm_compute; reflexivity|].
  repeat split; vm_compute; reflexivity.
Qed.

(** ** Range of the two hashes *)

(** C9: for a non-empty key and a table whose capacity is any entry of the
    default ladder, [hash] returns an index in [0, m) and [hash2] returns a
    step in [1, m-1] (so never 0); neither touches the table. *)
Theorem hash_and_step_in_range {V} (self : HashyStepTable V) (key : string) :
  key ≠ "" →
  Z.of_nat (length (array self)) ∈ TABLE_SIZES →
  ∃ h s, hash key self = (Return h, self) ∧
         hash2 key self = (Return s, self) ∧
         0 ≤ h < Z.of_nat (length (array self)) ∧
         1 ≤ s ≤ Z.of_nat (length (array self)) - 1 ∧ s ≠ 0.
Proof.
  intros _ Hm. apply TABLE_SIZES_ge_5 in Hm.
  destruct (hash_at_range (Z.of_nat (length (array self))) key) as (h & Hh & Hhr); [lia|].
  destruct (hash2_at_range (Z.of_nat (length (array self))) key) as (s & Hs & Hsr); [lia|].
  exists h, s. unfold hash, hash2, table_size, gets, lift, mbind, M_bind.
  rewrite Hh, Hs. repeat split; lia.
Qed.

Lemma hash_and_step_in_range_witness :
  ∃ h s, hash "ab" (mkTable TABLE_SIZES 0 (replicate 5 (@PyNone Z)) 0)
           = (Return h, mkTable TABLE_SIZES 0 (replicate 5 PyNone) 0) ∧
         hash2 "ab" (mkTable TABLE_SIZES 0 (replicate 5 (@PyNone Z)) 0)
           = (Return s, mkTable TABLE_SIZES 0 (replicate 5 PyNone) 0) ∧
         0 ≤ h < 5 ∧ 1 ≤ s ≤ 5 - 1 ∧ s ≠ 0.
Proof.
  apply (hash_and_step_in_range (mkTable TABLE_SIZES 0 (replicate 5 (@PyNone Z)) 0) "ab").
  - discriminate.
  - vm_compute. left.
Defined.

(** ** Rendering *)

Lemma str_loop_cases {V} (str : V → string) (items : list (cell V)) :
  ∀ result,
    (∃ s, str_loop str items result = Return s ∧ SENTINEL_DELETED ∉ items) ∨
    (str_loop str items result = Raise TypeError ∧ SENTINEL_DELETED ∈ items).
Proof.
  induction items as [|c items IH]; intros result; simpl.
  - left. eexists; split; [reflexivity | apply not_elem_of_nil].
  - destruct c as [| |k v].
    + destruct (IH result) as [(s & Hs & Hn)|[Hr Hin]].
      * left. exists s. split; [exact Hs|]. rewrite not_elem_of_cons. split; [discriminate | exact Hn].
      * right. split; [exact Hr | by apply list_elem_of_further].
    + right. split; [reflexivity | apply list_elem_of_here].
    + destruct (IH (result ++ "(" ++ k ++ "," ++ str v ++ ")" ++ newline)%string)
        as [(s & Hs & Hn)|[Hr Hin]].
      * left. exists s. split; [exact Hs|]. rewrite not_elem_of_cons. split; [discriminate | exact Hn].
      * right. split; [exact Hr | by apply list_elem_of_further].
Qed.

(** C10: [__str__] returns a string exactly on the states without a
    tombstone, and raises TypeError on every state that holds one; the state
    after set("a", 1), delete("a") on the default table is reachable, holds
    a tombstone, and [__str__] raises on it. *)
Theorem str_total_only_without_tombstones :
  (∀ (V : Type) (str : V → string) (self : HashyStepTable V),
     ((∃ s, __str__ str self = (Return s, self)) ↔ SENTINEL_DELETED ∉ array self) ∧
     (__str__ str self = (Raise TypeError, self) ↔ SENTINEL_DELETED ∈ array self)) ∧
  (∃ self0 self : HashyStepTable Z,
     __init__ None = Return self0 ∧
     run [Set_ "a" 1; Del "a"] self0 = ([Return Done; Return Done], self) ∧
     reachable self ∧
     SENTINEL_DELETED ∈ array self ∧
     ∀ str, __str__ str self = (Raise TypeError, self)).
Proof.
  split.
  - intros V str self. unfold __str__, mbind, M_bind, gets, lift.
    destruct (str_loop_cases str (array self) "") as [(s & Hs & Hn)|[Hr Hin]].
    + rewrite Hs. split; split.
      * intros _. exact Hn.
      * intros _. exists s. reflexivity.
      * discriminate.
      * intros Hin. contradiction.
    + rewrite Hr. split; split.
      * intros [s Hs]. discriminate.
      * intros Hn. contradiction.
      * intros _. exact Hin.
      * reflexivity.
  - eexists _, _. split; [reflexivity|].
    split; [vm_compute; reflexivity|].
    split; [|split].
    + exists None. eexists _, [Set_ "a" 1; Del "a"], _.
      split; [reflexivity|]. split; [vm_compute; reflexivity | reflexivity].
    + vm_compute. do 2 right. left.
    + intros str. reflexivity.
Qed.

(** * Further properties of the table

    What the operations do in any state of the table, tidy or not, and what
    they do on tidy tables beyond the round trip. *)

Section Further.
Context {V : Type}.
Implicit Types (self : HashyStepTable V) (key : string).

(** Writing a tuple over a slot that holds none adds its binding. *)
Lemma bindings_insert_Item (a : list (cell V)) i c k v :
  a !! i = Some c → is_Item c = false →
  bindings (<[i := Item k v]> a) ≡ₚ (k, v) :: bindings a.
Proof.
  intros Hi Hc. pose proof (lookup_lt_Some _ _ _ Hi) as Hlt.
  rewrite insert_take_drop by done.
  rewrite <- (take_drop_middle a i c Hi) at 3.
  unfold bindings. rewrite !omap_app. simpl.
  destruct c; [| |done]; simpl; by rewrite Permutation_middle.
Qed.

(** Writing anything but a tuple over a tuple removes its binding. *)
Lemma bindings_insert_free (a : list (cell V)) i c k v :
  a !! i = Some (Item k v) → is_Item c = false →
  (k, v) :: bindings (<[i := c]> a) ≡ₚ bindings a.
Proof.
  intros Hi Hc. pose proof (lookup_lt_Some _ _ _ Hi) as Hlt.
  rewrite insert_take_drop by done.
  rewrite <- (take_drop_middle a i (Item k v) Hi) at 3.
  unfold bindings. rewrite !omap_app. simpl.
  destruct c; [| |done]; simpl; by rewrite Permutation_middle.
Qed.

(** Overwriting a tuple with a tuple replaces its binding. *)
Lemma bindings_insert_over (a : list (cell V)) i k v k' v' :
  a !! i = Some (Item k v) →
  (k, v) :: bindings (<[i := Item k' v']> a) ≡ₚ (k', v') :: bindings a.
Proof.
  intros Hi. pose proof (lookup_lt_Some _ _ _ Hi) as Hlt.
  rewrite insert_take_drop by done.
  rewrite <- (take_drop_middle a i (Item k v) Hi) at 3.
  unfold bindings. rewrite !omap_app. simpl.
  rewrite <- !Permutation_middle. apply perm_swap.
Qed.

Lemma compact_eq position first self c1 c2 :
  0 ≤ position → 0 ≤ first →
  array self !! Z.to_nat position = Some c1 →
  array self !! Z.to_nat first = Some c2 →
  compact position first self
  = (Return first,
     set_array (<[Z.to_nat position := c2]> (<[Z.to_nat first := c1]> (array self))) self).
Proof.
  intros Hp Hf H1 H2. unfold compact.
  pose proof (lookup_lt_Some _ _ _ H1). pose proof (lookup_lt_Some _ _ _ H2).
  rewrite (bind_Return _ _ _ _ _ (array_getitem_eq _ _ _ Hp H1)).
  rewrite (bind_Return _ _ _ _ _ (array_getitem_eq _ _ _ Hf H2)).
  rewrite (bind_Return _ _ _ tt (set_array (<[Z.to_nat first := c1]> (array self)) self)).
  2:{ unfold array_setitem. destruct (Z.ltb_spec first 0); [lia|].
      destruct (Z.leb_spec (Z.of_nat (length (array self))) first); [lia|]. reflexivity. }
  rewrite (bind_Return _ _ _ tt
             (set_array (<[Z.to_nat position := c2]> (<[Z.to_nat first := c1]> (array self))) self)).
  2:{ unfold array_setitem. cbn [array set_array]. rewrite length_insert.
      destruct (Z.ltb_spec position 0); [lia|].
      destruct (Z.leb_spec (Z.of_nat (length (array self))) position); [lia|]. reflexivity. }
  reflexivity.
Qed.



Lemma probe_loop_lookup key self s :
  hash2_at (Z.of_nat (length (array self))) key = Return s →
  ∀ n position step fei,
    step = None ∨ step = Some s →
    0 ≤ position < Z.of_nat (length (array self)) →
    fei_ok self fei →
    lookup_result self key (probe_loop n key false position step fei self).
Proof.
  intros Hs. induction n as [|n IH]; intros position step fei Hstep Hp Hfei.
  { by cbn. }
  rewrite probe_loop_unfold. unfold iteration.
  destruct (Z.eqb_spec (count self) (Z.of_nat (length (array self)))) as [Hfull|Hfull].
  { by cbn. }
  destruct (lookup_lt_is_Some_2 (array self) (Z.to_nat position)) as [c Hc]; [lia|].
  assert (array self ≠ []) as Hne by (intros E; by rewrite E in Hc).
  rewrite (array_getitem_eq _ _ _ (proj1 Hp) Hc).
  destruct c as [| |k v].
  - by cbn.
  - unfold advance. rewrite (next_position_eq _ _ _ _ s) by done.
    apply IH; [by right | apply Z.mod_pos_bound; lia |].
    destruct (not_ fei); [cbn; split; [lia | done] | done].
  - destruct (String.eqb_spec k key) as [->|Hne'].
    + assert ((key, v) ∈ bindings (array self)) as Hin by (apply elem_of_bindings; eauto).
      destruct fei as [f|]; cbn [not_].
      * destruct (Z.eqb_spec f 0).
        -- cbn. split; [lia|]. exists v. by split_and!.
        -- destruct Hfei as [Hf0 Hf]. unfold default. cbn [from_option id].
           rewrite (compact_eq _ _ _ _ _ (proj1 Hp) Hf0 Hc Hf).
           unfold lookup_result.
           cbn [fst snd array set_array count self_TABLE_SIZES size_index].
           assert (Z.to_nat position ≠ Z.to_nat f) as Hpf by (intros E; congruence).
           split; [lia|]. exists v. split_and!; try done.
           ++ rewrite list_lookup_insert_ne by done.
              apply list_lookup_insert_eq. by eapply lookup_lt_Some.
           ++ apply (Permutation_cons_inv (a := (key, v))).
              rewrite bindings_insert_free; [|by rewrite list_lookup_insert_ne, Hc |done].
              by rewrite (bindings_insert_Item _ _ SENTINEL_DELETED).
           ++ intros [q Hq]%list_elem_of_lookup. apply list_elem_of_lookup. exists q.
              rewrite !list_lookup_insert_ne; [done | |]; intros E; congruence.
           ++ by rewrite !length_insert.
      * cbn. split; [lia|]. exists v. by split_and!.
    + unfold advance. rewrite (next_position_eq _ _ _ _ s) by done.
      apply IH; [by right | apply Z.mod_pos_bound; lia | done].
Qed.

Lemma _hashy_probe_lookup key self :
  2 ≤ Z.of_nat (length (array self)) →
  lookup_result self key (_hashy_probe key false self).
Proof.
  intros Hm.
  destruct (hash_at_range _ key Hm) as (h & Hh & Hhr).
  destruct (hash2_at_range _ key Hm) as (s & Hs & _).
  rewrite (_hashy_probe_eq _ _ _ h Hh).
  by apply (probe_loop_lookup key self s Hs); [left | |].
Qed.

(** [get] in any state of the table, tidy or not: a value it returns is
    bound to the key in some slot, the only exception it raises is KeyError
    for that key, and all it ever changes is the order of the slots. *)
Theorem __getitem___any_state key self :
  2 ≤ Z.of_nat (length (array self)) →
  match __getitem__ key self with
  | (Return v, self') =>
      (key, v) ∈ bindings (array self) ∧
      bindings (array self') ≡ₚ bindings (array self) ∧
      (PyNone ∈ array self → PyNone ∈ array self') ∧
      length (array self') = length (array self) ∧
      self_TABLE_SIZES self' = self_TABLE_SIZES self ∧
      size_index self' = size_index self ∧
      count self' = count self
  | (Raise e, self') => e = KeyError key ∧ self' = self
  | (Diverge, self') => self' = self
  end.
Proof.
  intros Hm. pose proof (_hashy_probe_lookup key self Hm) as Hr.
  unfold __getitem__, mbind, M_bind.
  destruct (_hashy_probe key false self) as [[p| |] self1]; unfold lookup_result in Hr;
    cbn [fst snd] in Hr; [|done..].
  destruct Hr as (Hp & v & Hin & Hlk & Hperm & Hnone & Hlen & Hs & Hi & Hc & _).
  rewrite (array_getitem_eq _ _ _ Hp Hlk). by split_and!.
Qed.

(** [in] in any state answers [True] only for a key bound in some slot; the
    only exception it catches is the KeyError of [get]. *)
Theorem __contains___any_state key self :
  2 ≤ Z.of_nat (length (array self)) →
  match __contains__ key self with
  | (Return true, self') => key ∈ (bindings (array self)).*1 ∧
                            bindings (array self') ≡ₚ bindings (array self)
  | (Return false, self') => self' = self
  | (Raise e, self') => False
  | (Diverge, self') => self' = self
  end.
Proof.
  intros Hm. pose proof (_hashy_probe_lookup key self Hm) as Hr.
  unfold __contains__, __getitem__, mbind, M_bind.
  destruct (_hashy_probe key false self) as [[p| |] self1]; unfold lookup_result in Hr;
    cbn [fst snd] in Hr.
  - destruct Hr as (Hp & v & Hin & Hlk & Hperm & _).
    rewrite (array_getitem_eq _ _ _ Hp Hlk). split; [|done].
    apply list_elem_of_fmap. by exists (key, v).
  - by destruct Hr as [-> ->].
  - done.
Qed.

(** [del] in any state: when it returns, exactly one binding of the key is
    gone, every other binding is kept and [count] went down by one; the only
    exception is KeyError for that key, with the table untouched. *)
Theorem __delitem___any_state key self :
  2 ≤ Z.of_nat (length (array self)) →
  match __delitem__ key self with
  | (Return _, self') =>
      (∃ v, (key, v) :: bindings (array self') ≡ₚ bindings (array self)) ∧
      (PyNone ∈ array self → PyNone ∈ array self') ∧
      count self' = count self - 1 ∧
      length (array self') = length (array self) ∧
      self_TABLE_SIZES self' = self_TABLE_SIZES self ∧
      size_index self' = size_index self
  | (Raise e, self') => e = KeyError key ∧ self' = self
  | (Diverge, self') => self' = self
  end.
Proof.
  intros Hm. pose proof (_hashy_probe_lookup key self Hm) as Hr.
  unfold __delitem__. unfold mbind at 1, M_bind at 1.
  destruct (_hashy_probe key false self) as [[p| |] self1]; unfold lookup_result in Hr;
    cbn [fst snd] in Hr; [|done..].
  destruct Hr as (Hp & v & Hin & Hlk & Hperm & Hnone & Hlen & Hs & Hi & Hc & _).
  pose proof (lookup_lt_Some _ _ _ Hlk) as Hlt.
  rewrite (bind_Return _ _ _ tt
             (set_array (<[Z.to_nat p := SENTINEL_DELETED]> (array self1)) self1)).
  2:{ unfold array_setitem. destruct (Z.ltb_spec p 0); [lia|].
      destruct (Z.leb_spec (Z.of_nat (length (array self1))) p); [lia|]. reflexivity. }
  unfold modify. cbn [array set_array set_count count self_TABLE_SIZES size_index].
  split_and!; try done; [| |lia | by rewrite length_insert].
  - exists v. by rewrite bindings_insert_free.
  - intros [q Hq]%Hnone%list_elem_of_lookup. apply list_elem_of_lookup. exists q.
    rewrite list_lookup_insert_ne; [done|]. intros E. congruence.
Qed.

(** A slot holding [None] on a table of prime capacity ends every walk:
    the probe sequence reaches every slot, and [None] never sends it on. *)
Lemma _hashy_probe_not_Diverge key ins self :
  Z.prime (Z.of_nat (length (array self))) →
  PyNone ∈ array self →
  (_hashy_probe key ins self).1 ≠ Diverge.
Proof.
  intros Hprime [q Hq]%list_elem_of_lookup Hdiv.
  pose proof (Z.prime_ge_2 _ Hprime) as Hm.
  pose proof (lookup_lt_Some _ _ _ Hq) as Hqlt.
  destruct (hash_at_range _ key Hm) as (h & Hh & Hhr).
  destruct (hash2_at_range _ key Hm) as (s & Hs & Hsr).
  rewrite (_hashy_probe_eq _ _ _ h Hh) in Hdiv.
  destruct (probe_position_onto (Z.of_nat (length (array self))) h s (Z.of_nat q)
              Hprime ltac:(lia) ltac:(lia)) as (j & Hj & Hpos).
  pose proof (diverge_continues key ins self s Hs _ h None None ltac:(by left) Hdiv j
                ltac:(lia)) as Hc.
  apply continues_inv in Hc as (_ & _ & c & Hlk & _ & Hcell).
  rewrite Hpos, Nat2Z.id, Hq in Hlk. by simplify_eq.
Qed.

Lemma bind_Return_inv {A B} (m : M V A) (f : A → M V B) self b self' :
  (m ≫= f) self = (Return b, self') →
  ∃ a self1, m self = (Return a, self1) ∧ f a self1 = (Return b, self').
Proof.
  unfold mbind, M_bind. destruct (m self) as [[a| |] self1]; [eauto | done..].
Qed.


Lemma probe_loop_insert key self h s :
  hash2_at (Z.of_nat (length (array self))) key = Return s →
  0 < Z.of_nat (length (array self)) →
  ∀ n j step,
    step = None ∨ step = Some s →
    (j + n ≤ S (length (array self)))%nat →
    (∀ j', (j' < j)%nat →
       ∃ k' v', array self !! Z.to_nat (probe_position (Z.of_nat (length (array self))) h s j')
                = Some (Item k' v') ∧ k' ≠ key) →
    match probe_loop n key true (probe_position (Z.of_nat (length (array self))) h s j)
            step None self with
    | (Return p, self') => self' = self ∧ insert_slot self key h s p
    | (Raise e, self') => self' = self ∧ e = FullError ∧
                          count self = Z.of_nat (length (array self))
    | (Diverge, self') => self' = self
    end.
Proof.
  intros Hs Hm. induction n as [|n IH]; intros j step Hstep Hjn Hpre.
  { by cbn. }
  rewrite probe_loop_unfold. unfold iteration.
  destruct (Z.eqb_spec (count self) (Z.of_nat (length (array self)))) as [Hfull|Hfull].
  { by cbn. }
  pose proof (probe_position_nonneg (Z.of_nat (length (array self))) h s j Hm) as Hp.
  destruct (lookup_lt_is_Some_2 (array self)
              (Z.to_nat (probe_position (Z.of_nat (length (array self))) h s j)))
    as [c Hc]; [lia|].
  assert (array self ≠ []) as Hne by (intros E; by rewrite E in Hc).
  rewrite (array_getitem_eq _ _ _ (proj1 Hp) Hc).
  assert (∀ c', c = c' → match c' with Item k _ => k = key | _ => True end →
            insert_slot self key h s (probe_position (Z.of_nat (length (array self))) h s j))
    as Hdone.
  { intros c' -> Hc'. split; [done|]. exists j. split; [lia|]. split; [done|].
    split; [done|]. eauto. }
  destruct c as [| |k v].
  - split; [done|]. by eapply Hdone.
  - split; [done|]. by eapply Hdone.
  - destruct (String.eqb_spec k key) as [->|Hne'].
    + cbn [not_]. split; [done|]. by eapply Hdone.
    + unfold advance. rewrite (next_position_eq _ _ _ _ s) by done.
      rewrite probe_position_next. apply IH; [by right | lia |].
      intros j' Hj'. destruct (decide (j' = j)) as [->|]; [eauto | apply Hpre; lia].
Qed.

Lemma _hashy_probe_insert key self :
  2 ≤ Z.of_nat (length (array self)) →
  ∃ h s, hash_at (Z.of_nat (length (array self))) key = Return h ∧
         hash2_at (Z.of_nat (length (array self))) key = Return s ∧
         0 ≤ h < Z.of_nat (length (array self)) ∧
  match _hashy_probe key true self with
  | (Return p, self') => self' = self ∧ insert_slot self key h s p
  | (Raise e, self') => self' = self ∧ e = FullError ∧
                        count self = Z.of_nat (length (array self))
  | (Diverge, self') => self' = self
  end.
Proof.
  intros Hm.
  destruct (hash_at_range _ key Hm) as (h & Hh & Hhr).
  destruct (hash2_at_range _ key Hm) as (s & Hs & _).
  exists h, s. split; [done|]. split; [done|]. split; [done|].
  rewrite (_hashy_probe_eq _ _ _ h Hh).
  pose proof (probe_loop_insert key self h s Hs ltac:(lia) (S (length (array self))) 0%nat
                None ltac:(by left) ltac:(lia) ltac:(intros; lia)) as H.
  by rewrite probe_position_0 in H by done.
Qed.

(** A rehash request always moves [size_index], whatever else it does. *)
Lemma _rehash_with_moves (f : string → V → M V unit) self o self' :
  (∀ k v, preserves (f k v)) →
  _rehash_with f self = (o, self') → (size_index self < size_index self')%nat.
Proof.
  intros Hf. unfold _rehash_with.
  unfold mbind at 1 2, M_bind at 1 2, gets at 1, modify at 1.
  intros H.
  assert (preserves (V:=V) (
    i ← gets size_index;
    sizes ← gets self_TABLE_SIZES;
    if (i =? length sizes)%nat then mret tt
    else match sizes !! i with
         | None => raise IndexError
         | Some n =>
             a ← lift (ArrayR n);
             modify (set_array a);;
             modify (set_count 0);;
             for_each (array self) (λ item,
               match item with
               | Item key value => f key value
               | _ => mret tt
               end)
         end)) as Hpres.
  { apply preserves_bind; [apply preserves_gets | intros i].
    apply preserves_bind; [apply preserves_gets | intros sizes].
    destruct (i =? length sizes)%nat; [apply preserves_mret|].
    destruct (sizes !! i) as [n|]; [|apply preserves_raise].
    apply preserves_bind; [apply preserves_lift | intros a].
    apply preserves_bind; [apply preserves_modify; by split | intros _].
    apply preserves_bind; [apply preserves_modify; by split | intros _].
    apply preserves_for_each. intros [| |k v]; auto using preserves_mret. }
  apply Hpres in H as [_ H]. simpl in H. lia.
Qed.

Lemma preserves_setitem_callback fuel :
  ∀ k (v : V), preserves (V:=V) (match fuel with
                          | O => λ _ _, diverge
                          | S fuel' => setitem_fuel fuel'
                          end k v).
Proof.
  intros k v. destruct fuel; [apply preserves_diverge | apply preserves_setitem_fuel].
Qed.

(** [set] in any state, when it returns without a rehash request: exactly
    one slot was written, the one the insert walk chose, which held [None],
    a tombstone or the key itself; [count] went up only for [None]. *)
Lemma __setitem___one_slot key data self self' :
  2 ≤ Z.of_nat (length (array self)) →
  __setitem__ key data self = (Return tt, self') →
  size_index self' = size_index self →
  ∃ h s p c,
    hash_at (Z.of_nat (length (array self))) key = Return h ∧
    hash2_at (Z.of_nat (length (array self))) key = Return s ∧
    0 ≤ h < Z.of_nat (length (array self)) ∧
    insert_slot self key h s p ∧
    array self !! Z.to_nat p = Some c ∧
    self' = mkTable (self_TABLE_SIZES self) (size_index self)
              (<[Z.to_nat p := Item key data]> (array self))
              (match c with PyNone => count self + 1 | _ => count self end).
Proof.
  intros Hm Hset Hidx. unfold __setitem__ in Hset. rewrite setitem_fuel_unfold in Hset.
  set (g := match (length (self_TABLE_SIZES self) - size_index self)%nat with
            | O => λ _ _, diverge | S fuel' => setitem_fuel fuel' end) in Hset.
  destruct (_hashy_probe_insert key self Hm) as (h & s & Hh & Hs & Hhr & Hprobe).
  unfold setitem_body in Hset.
  apply bind_Return_inv in Hset as (p & self1 & Hp & Hset). rewrite Hp in Hprobe.
  destruct Hprobe as [-> Hslot].
  pose proof Hslot as (Hfull & j & Hj & Hpj & Hpre & c & Hc & Hkey).
  assert (0 ≤ p < Z.of_nat (length (array self))) as Hpr.
  { subst p. apply probe_position_nonneg. lia. }
  rewrite (bind_Return _ _ _ _ _ (array_getitem_eq _ _ _ (proj1 Hpr) Hc)) in Hset.
  apply bind_Return_inv in Hset as ([] & self2 & H2 & Hset).
  assert (self2 = set_count (match c with PyNone => count self + 1 | _ => count self end) self)
    as ->.
  { destruct c; unfold modify, mret, M_ret in H2; injection H2 as <-;
      [reflexivity | by destruct self..]. }
  apply bind_Return_inv in Hset as ([] & self3 & H3 & Hset).
  unfold array_setitem in H3. cbn [array set_count] in H3.
  destruct (Z.ltb_spec p 0); [lia|].
  destruct (Z.leb_spec (Z.of_nat (length (array self))) p); [lia|].
  cbn [orb] in H3. simplify_eq.
  apply bind_Return_inv in Hset as (n & self4 & H4 & Hset).
  assert (self4 = set_array (<[Z.to_nat (probe_position (Z.of_nat (length (array self))) h s j)
                               := Item key data]> (array self))
                    (set_count (match c with PyNone => count self + 1 | _ => count self end) self))
    as ->.
  { unfold len, __len__, gets, mbind, M_bind in H4.
    cbn [count set_array set_count] in H4.
    destruct (_ <? 0); unfold raise, mret, M_ret in H4; by simplify_eq. }
  apply bind_Return_inv in Hset as (m & self5 & H5 & Hset).
  rewrite table_size_eq in H5. simplify_eq.
  destruct (2 * _ <? 3 * n).
  - apply _rehash_with_moves in Hset; [|apply preserves_setitem_callback].
    cbn [size_index set_array set_count] in Hset. lia.
  - unfold mret, M_ret in Hset. simplify_eq.
    exists h, s, (probe_position (Z.of_nat (length (array self))) h s j), c.
    split_and!; try done; lia.
Qed.

(** Read your write, in any state: after a [set] that returned without a
    rehash request, on a table that is not full, [get] of the same key
    returns the value just set and changes nothing. *)
Theorem __getitem___after___setitem__ key data self self' :
  2 ≤ Z.of_nat (length (array self)) →
  __setitem__ key data self = (Return tt, self') →
  size_index self' = size_index self →
  count self' ≠ Z.of_nat (length (array self')) →
  __getitem__ key self' = (Return data, self').
Proof.
  intros Hm Hset Hidx Hfull'.
  destruct (__setitem___one_slot key data self self' Hm Hset Hidx)
    as (h & s & p & c & Hh & Hs & Hhr & Hslot & Hc & ->).
  destruct Hslot as (_ & j & Hj & -> & Hpre & c' & Hc' & Hkey).
  assert (c' = c) as -> by congruence.
  set (m := Z.of_nat (length (array self))) in *.
  set (self' := mkTable _ _ _ _) in *.
  assert (length (array self') = length (array self)) as Hlen
    by (subst self'; cbn [array]; by rewrite length_insert).
  pose proof (probe_position_nonneg m h s j ltac:(lia)) as Hp.
  pose proof (lookup_lt_Some _ _ _ Hc) as Hlt.
  assert (array self' !! Z.to_nat (probe_position m h s j) = Some (Item key data)) as Hat
    by (subst self'; cbn [array]; by apply list_lookup_insert_eq).
  assert (array self' ≠ []) as Hne by (intros E; by rewrite E in Hat).
  assert (∀ j', (j' < j)%nat →
     ∃ k' v', array self' !! Z.to_nat (probe_position m h s j') = Some (Item k' v') ∧ k' ≠ key)
    as Hpre'.
  { intros j' Hj'. destruct (Hpre j' Hj') as (k' & v' & Hlk & Hne').
    exists k', v'. split; [|done]. subst self'. cbn [array].
    rewrite list_lookup_insert_ne; [done|].
    intros E. rewrite E in Hc. rewrite Hc in Hlk. injection Hlk as ->. by cbn in Hkey. }
  unfold __getitem__.
  assert (_hashy_probe key false self' = (Return (probe_position m h s j), self')) as Hprobe.
  { rewrite (_hashy_probe_eq _ _ _ h) by (by rewrite Hlen).
    rewrite <- (probe_position_0 m h s) at 1 by done.
    replace (S (length (array self'))) with (j + S (length (array self) - j))%nat by lia.
    assert (Z.of_nat (length (array self')) = m) as Hm' by (by rewrite Hlen).
    destruct (walk_items key false self' h s Hfull' ltac:(by rewrite Hm') Hne j 0%nat
                None None (S (length (array self) - j))) as (step' & _ & Hwalk);
      [by left | |].
    { intros j' Hj'. rewrite Hm'. apply Hpre'. lia. }
    rewrite Hm' in Hwalk. rewrite Hwalk. cbn [Nat.add].
    rewrite probe_loop_unfold.
    by rewrite (iteration_found _ _ _ _ _ data); [|done | lia | done]. }
  rewrite (bind_Return _ _ _ _ _ Hprobe).
  by rewrite (bind_Return _ _ _ _ _ (array_getitem_eq _ _ _ (proj1 Hp) Hat)).
Qed.

Lemma __getitem___Diverge key self :
  (__getitem__ key self).1 = Diverge → (_hashy_probe key false self).1 = Diverge.
Proof.
  unfold __getitem__, mbind, M_bind.
  destruct (_hashy_probe key false self) as [[p| |] self1]; [|done..].
  cbn [fst]. intros H. destruct (array_getitem p self1) as [[c| |] self2] eqn:Hget.
  - destruct c; by cbn in H.
  - by cbn in H.
  - by apply array_getitem_self in Hget as [_ ?].
Qed.

Lemma __delitem___Diverge key self :
  (__delitem__ key self).1 = Diverge → (_hashy_probe key false self).1 = Diverge.
Proof.
  unfold __delitem__. unfold mbind at 1, M_bind at 1.
  destruct (_hashy_probe key false self) as [[p| |] self1]; [|done..].
  cbn [fst]. unfold mbind, M_bind, array_setitem, modify.
  by destruct (_ || _).
Qed.

(** No lookup runs forever while a slot holds [None]: on a table of prime
    capacity with a [None] slot, [get], [in] and [del] come back for every
    key, and so does the probe walk under either intent. *)
Theorem lookups_terminate key self :
  Z.prime (Z.of_nat (length (array self))) →
  PyNone ∈ array self →
  (__getitem__ key self).1 ≠ Diverge ∧
  (__contains__ key self).1 ≠ Diverge ∧
  (__delitem__ key self).1 ≠ Diverge ∧
  ∀ is_insert, (_hashy_probe key is_insert self).1 ≠ Diverge.
Proof.
  intros Hprime Hnone.
  pose proof (_hashy_probe_not_Diverge key false self Hprime Hnone) as Hterm.
  assert ((__getitem__ key self).1 ≠ Diverge) as Hget
    by (intros E; by apply __getitem___Diverge in E).
  split_and!; [done | | |].
  - unfold __contains__. destruct (__getitem__ key self) as [[v|e|] self1]; [done| |done].
    by destruct e.
  - intros E. by apply __delitem___Diverge in E.
  - intros is_insert. by apply _hashy_probe_not_Diverge.
Qed.

(** The lookup walk for a key bound in no slot ends at a [None] slot. *)
Lemma _hashy_probe_missing key self :
  Z.prime (Z.of_nat (length (array self))) →
  PyNone ∈ array self →
  key ∉ (bindings (array self)).*1 →
  _hashy_probe key false self = (Raise (KeyError key), self).
Proof.
  intros Hprime Hnone Hfresh.
  pose proof (Z.prime_ge_2 _ Hprime) as Hm.
  pose proof (_hashy_probe_not_Diverge key false self Hprime Hnone) as Hterm.
  pose proof (_hashy_probe_lookup key self Hm) as Hr.
  destruct (_hashy_probe key false self) as [[p| |] self1]; unfold lookup_result in Hr;
    cbn [fst snd] in Hr, Hterm; [|by destruct Hr as [-> ->] | done].
  destruct Hr as (_ & v & Hin & _). exfalso. apply Hfresh.
  apply list_elem_of_fmap. by exists (key, v).
Qed.

Lemma __getitem___missing key self :
  _hashy_probe key false self = (Raise (KeyError key), self) →
  __getitem__ key self = (Raise (KeyError key), self) ∧
  __contains__ key self = (Return false, self).
Proof.
  intros Hprobe.
  assert (__getitem__ key self = (Raise (KeyError key), self)) as Hget.
  { unfold __getitem__. by rewrite (bind_Raise _ _ _ _ _ Hprobe). }
  split; [done|]. unfold __contains__. by rewrite Hget.
Qed.

(** Missing key: on a table of prime capacity with a [None] slot, whatever
    else it holds, [get] and [del] of a key bound in no slot raise KeyError
    for it, [in] answers [False], and the table is untouched. *)
Theorem missing_key key self :
  Z.prime (Z.of_nat (length (array self))) →
  PyNone ∈ array self →
  key ∉ (bindings (array self)).*1 →
  __getitem__ key self = (Raise (KeyError key), self) ∧
  __contains__ key self = (Return false, self) ∧
  __delitem__ key self = (Raise (KeyError key), self).
Proof.
  intros Hprime Hnone Hfresh.
  pose proof (_hashy_probe_missing key self Hprime Hnone Hfresh) as Hprobe.
  destruct (__getitem___missing key self Hprobe) as [Hget Hin].
  split_and!; [done..|].
  unfold __delitem__. by rewrite (bind_Raise _ _ _ _ _ Hprobe).
Qed.

(** A key behind slots that only send a lookup on (tombstones and other
    keys) is found, in any state that is not full. *)
Lemma probe_loop_finds key self h s v :
  count self ≠ Z.of_nat (length (array self)) →
  hash2_at (Z.of_nat (length (array self))) key = Return s →
  0 < Z.of_nat (length (array self)) →
  ∀ d a n step fei,
    step = None ∨ step = Some s →
    fei_ok self fei →
    (∀ j, (a ≤ j < a + d)%nat →
       continues key false self (probe_position (Z.of_nat (length (array self))) h s j) = true) →
    array self !! Z.to_nat (probe_position (Z.of_nat (length (array self))) h s (a + d))
      = Some (Item key v) →
    ∃ p self',
      probe_loop (d + S n) key false
        (probe_position (Z.of_nat (length (array self))) h s a) step fei self
      = (Return p, self') ∧
      0 ≤ p ∧ array self' !! Z.to_nat p = Some (Item key v).
Proof.
  intros Hfull Hs Hm. induction d as [|d IH]; intros a n step fei Hstep Hfei Hcont Hat.
  - rewrite Nat.add_0_r in Hat. cbn [Nat.add].
    pose proof (probe_position_nonneg (Z.of_nat (length (array self))) h s a Hm) as Hp.
    rewrite probe_loop_unfold. unfold iteration.
    apply Z.eqb_neq in Hfull. rewrite Hfull.
    rewrite (array_getitem_eq _ _ _ (proj1 Hp) Hat), String.eqb_refl.
    destruct fei as [f|]; cbn [not_].
    + destruct (Z.eqb_spec f 0).
      { eexists _, _. split; [reflexivity|]. split; [lia|done]. }
      destruct Hfei as [Hf0 Hf]. unfold default. cbn [from_option id].
      rewrite (compact_eq _ _ _ _ _ (proj1 Hp) Hf0 Hat Hf).
      eexists _, _. split; [reflexivity|]. split; [lia|]. cbn [array set_array].
      rewrite list_lookup_insert_ne by (intros E; congruence).
      apply list_lookup_insert_eq. by eapply lookup_lt_Some.
    + eexists _, _. split; [reflexivity|]. split; [lia|done].
  - cbn [Nat.add]. rewrite probe_loop_unfold.
    pose proof (Hcont a ltac:(lia)) as Hc.
    pose proof Hc as (_ & Hp & c & Hlk & _ & Hcell)%continues_inv.
    assert (array self ≠ []) as Hne by (intros E; by rewrite E in Hlk).
    unfold iteration. apply Z.eqb_neq in Hfull as Hfull'. rewrite Hfull'.
    rewrite (array_getitem_eq _ _ _ (proj1 Hp) Hlk).
    destruct c as [| |k' v']; [destruct Hcell | |].
    + unfold advance. rewrite (next_position_eq _ _ _ _ s) by done.
      rewrite probe_position_next.
      apply IH; [by right | | intros j Hj; apply Hcont; lia |
                 by replace (S a + d)%nat with (a + S d)%nat by lia].
      destruct (not_ fei); [split; [lia | done] | done].
    + rewrite Hcell. unfold advance. rewrite (next_position_eq _ _ _ _ s) by done.
      rewrite probe_position_next.
      apply IH; [by right | done | intros j Hj; apply Hcont; lia |
                 by replace (S a + d)%nat with (a + S d)%nat by lia].
Qed.

Lemma tidy_free_slot self :
  tidy self → count self ≠ Z.of_nat (length (array self)) → PyNone ∈ array self.
Proof.
  intros Ht Hc.
  destruct (free_slot_exists (array self) (tidy_no_tombstone _ Ht)) as [q Hq].
  { pose proof (tidy_count _ Ht). pose proof (bindings_length_le (array self)). lia. }
  apply list_elem_of_lookup. eauto.
Qed.

Lemma tidy_binding_unique self i j k v w :
  tidy self → array self !! i = Some (Item k v) → array self !! j = Some (Item k w) → i = j.
Proof.
  intros Ht Hi Hj.
  destruct (tidy_placed _ Ht i k v Hi) as (h & s & a & Hh & Hs & Ha & Hpa & Hprea).
  destruct (tidy_placed _ Ht j k w Hj) as (h' & s' & b & Hh' & Hs' & Hb & Hpb & Hpreb).
  assert (h' = h) as -> by congruence. assert (s' = s) as -> by congruence.
  destruct (Nat.lt_trichotomy a b) as [Hlt|[->|Hlt]].
  - destruct (Hpreb a Hlt) as (k' & v' & Hlk & Hne). rewrite Hpa, Nat2Z.id, Hi in Hlk.
    by simplify_eq.
  - lia.
  - destruct (Hprea b Hlt) as (k' & v' & Hlk & Hne). rewrite Hpb, Nat2Z.id, Hj in Hlk.
    by simplify_eq.
Qed.

(** [del] of a stored key on a tidy table that is not full: it returns and
    [count] goes down by one; afterwards the key is gone ([in] is [False],
    [get] raises KeyError) and every other key still gives its value. *)
Theorem __delitem___tidy key v self :
  tidy self → count self ≠ Z.of_nat (length (array self)) →
  (key, v) ∈ bindings (array self) →
  ∃ self',
    __delitem__ key self = (Return tt, self') ∧
    count self' = count self - 1 ∧
    __contains__ key self' = (Return false, self') ∧
    __getitem__ key self' = (Raise (KeyError key), self') ∧
    ∀ k2 v2, k2 ≠ key → (k2, v2) ∈ bindings (array self) →
      ∃ self'', __getitem__ k2 self' = (Return v2, self'').
Proof.
  intros Ht Hc (i & Hi)%elem_of_bindings.
  pose proof (Z.prime_ge_2 _ (tidy_prime _ Ht)) as Hm.
  pose proof (lookup_lt_Some _ _ _ Hi) as Hilt.
  pose proof (tidy_count _ Ht) as Hcnt.
  pose proof (bindings_length_le (array self)) as Hble.
  set (self' := mkTable (self_TABLE_SIZES self) (size_index self)
                  (<[i := SENTINEL_DELETED]> (array self)) (count self - 1)).
  assert (length (array self') = length (array self)) as Hlen
    by (subst self'; cbn [array]; by rewrite length_insert).
  exists self'. split; [|split; [done|]].
  { unfold __delitem__.
    rewrite (bind_Return _ _ _ _ _ (_hashy_probe_finds _ _ _ _ Ht Hc Hi)).
    rewrite (bind_Return _ _ _ tt (set_array (<[i := SENTINEL_DELETED]> (array self)) self)).
    2:{ unfold array_setitem. destruct (Z.ltb_spec (Z.of_nat i) 0); [lia|].
        destruct (Z.leb_spec (Z.of_nat (length (array self))) (Z.of_nat i)); [lia|].
        cbn [orb]. by rewrite Nat2Z.id. }
    reflexivity. }
  assert ((key, v) :: bindings (array self') ≡ₚ bindings (array self)) as Hperm
    by (subst self'; cbn [array]; by apply bindings_insert_free).
  destruct (__getitem___missing key self') as (Hget & Hin);
    [apply _hashy_probe_missing|].
  { rewrite Hlen. apply Ht. }
  { apply list_elem_of_lookup.
    pose proof (tidy_free_slot self Ht Hc) as [q Hq]%list_elem_of_lookup. exists q.
    subst self'. cbn [array]. rewrite list_lookup_insert_ne; [done|]. intros ->. congruence. }
  { pose proof (tidy_NoDup _ Ht) as Hnd. rewrite <- Hperm in Hnd.
    cbn [fmap list_fmap fst] in Hnd. by apply NoDup_cons in Hnd as [? _]. }
  split; [done|]. split; [done|].
  intros k2 v2 Hk2 (i2 & Hi2)%elem_of_bindings.
  destruct (tidy_placed _ Ht i2 k2 v2 Hi2) as (h & s & j & Hh & Hs & Hj & Hpos & Hpre).
  assert (i2 ≠ i) as Hii by (intros ->; congruence).
  assert (count self' ≠ Z.of_nat (length (array self'))) as Hc'
    by (subst self'; cbn [count array]; rewrite length_insert; lia).
  destruct (hash_at_range _ k2 Hm) as (h' & Hh' & Hhr).
  assert (h' = h) as -> by congruence.
  destruct (probe_loop_finds k2 self' h s v2 Hc' ltac:(by rewrite Hlen) ltac:(lia)
              j 0%nat (length (array self) - j)%nat None None)
    as (p & self'' & Hprobe & Hp & Hat); [by left | done | |  |].
  { intros j' Hj'. rewrite Hlen. destruct (Hpre j' ltac:(lia)) as (k' & v' & Hlk & Hne).
    pose proof (probe_position_nonneg (Z.of_nat (length (array self))) h s j' ltac:(lia)) as Hr.
    unfold continues. apply Z.eqb_neq in Hc' as ->.
    destruct (Z.leb_spec 0 (probe_position (Z.of_nat (length (array self))) h s j')); [|lia].
    subst self'. cbn [array negb andb].
    destruct (decide (Z.to_nat (probe_position (Z.of_nat (length (array self))) h s j') = i))
      as [E|E].
    - rewrite E, list_lookup_insert_eq by done. reflexivity.
    - rewrite list_lookup_insert_ne by done. rewrite Hlk.
      apply negb_true_iff. by apply String.eqb_neq. }
  { rewrite Hlen, Nat.add_0_l, Hpos, Nat2Z.id. subst self'. cbn [array].
    by rewrite list_lookup_insert_ne. }
  exists self''. unfold __getitem__.
  assert (_hashy_probe k2 false self' = (Return p, self'')) as Hprobe'.
  { rewrite (_hashy_probe_eq _ _ _ h) by (by rewrite Hlen).
    rewrite Hlen in Hprobe |- *.
    rewrite probe_position_0 in Hprobe by done.
    by replace (j + S (length (array self) - j))%nat with (S (length (array self)))
      in Hprobe by lia. }
  rewrite (bind_Return _ _ _ _ _ Hprobe').
  by rewrite (bind_Return _ _ _ _ _ (array_getitem_eq _ _ _ Hp Hat)).
Qed.

(** On a tidy table that is not full, an insert walk for a stored key also
    ends on the key's slot. *)
Lemma _hashy_probe_finds_stored key v self i :
  tidy self → count self ≠ Z.of_nat (length (array self)) →
  array self !! i = Some (Item key v) →
  _hashy_probe key true self = (Return (Z.of_nat i), self).
Proof.
  intros Ht Hc Hlk.
  destruct (tidy_placed _ Ht i key v Hlk) as (h & s & j & Hh & Hs & Hj & Hpos & Hpre).
  pose proof (Z.prime_ge_2 _ (tidy_prime _ Ht)) as Hm.
  assert (array self ≠ []) as Hne by (intros E; by rewrite E in Hlk).
  rewrite (_hashy_probe_eq _ _ _ h Hh).
  destruct (hash_at_range _ key Hm) as (h' & Hh' & Hhr).
  assert (h' = h) as -> by congruence.
  rewrite <- (probe_position_0 (Z.of_nat (length (array self))) h s) at 1 by lia.
  replace (S (length (array self))) with (j + S (length (array self) - j))%nat by lia.
  destruct (walk_items key true self h s Hc Hs Hne j 0%nat None None
              (S (length (array self) - j))) as (step' & _ & ->); [by left | |].
  { intros j' Hj'. apply Hpre. lia. }
  cbn [Nat.add]. rewrite probe_loop_unfold, Hpos.
  rewrite (iteration_found _ _ _ _ _ v); [done..| lia |].
  by rewrite Nat2Z.id.
Qed.

Lemma tidy_overwrite self i key v v' :
  tidy self → array self !! i = Some (Item key v) →
  tidy (set_array (<[i := Item key v']> (array self)) self).
Proof.
  intros Ht Hi. pose proof (lookup_lt_Some _ _ _ Hi) as Hlt.
  pose proof (bindings_insert_over (array self) i key v key v' Hi) as Hperm.
  assert ((bindings (<[i := Item key v']> (array self))).*1 ≡ₚ (bindings (array self)).*1)
    as Hkeys.
  { apply (Permutation_cons_inv (a := key)).
    change (((key, v) :: bindings (<[i := Item key v']> (array self))).*1
            ≡ₚ ((key, v') :: bindings (array self)).*1).
    by rewrite Hperm. }
  assert (∀ x k w, array self !! x = Some (Item k w) →
            ∃ w', <[i := Item key v']> (array self) !! x = Some (Item k w')) as Hkeep.
  { intros x k w Hx. destruct (decide (x = i)) as [->|Hne].
    - rewrite list_lookup_insert_eq by done. rewrite Hi in Hx. simplify_eq. eauto.
    - rewrite list_lookup_insert_ne by done. eauto. }
  constructor; cbn [array set_array count].
  - rewrite length_insert. apply Ht.
  - intros [x Hx]%list_elem_of_lookup.
    apply list_lookup_insert_Some in Hx as [(_ & ? & _)|[_ Hx]]; [done|].
    apply (tidy_no_tombstone _ Ht), list_elem_of_lookup. eauto.
  - rewrite (tidy_count _ Ht). f_equal.
    apply Permutation_length in Hperm. cbn [length] in Hperm. lia.
  - rewrite Hkeys. apply Ht.
  - unfold placed. cbn [array set_array]. rewrite length_insert.
    intros x k w Hx.
    assert (∃ w0, array self !! x = Some (Item k w0)) as [w0 Hx0].
    { apply list_lookup_insert_Some in Hx as [(-> & Hkv & _)|[_ Hx]]; [|eauto].
      simplify_eq. eauto. }
    destruct (tidy_placed _ Ht x k w0 Hx0) as (h & s & j & Hh & Hs & Hj & Hpos & Hpre).
    exists h, s, j. split_and!; try done.
    intros j' Hj'. destruct (Hpre j' Hj') as (k' & w' & Hlk & Hne).
    destruct (Hkeep _ _ _ Hlk) as [w'' Hlk']. eauto.
Qed.

(** [set] of a stored key on a tidy table writes the slot that holds it. *)
Lemma __setitem___overwrites key v v' self :
  on_ladder self →
  (key, v) ∈ bindings (array self) →
  ∃ i,
    array self !! i = Some (Item key v) ∧
    __setitem__ key v' self
    = (Return tt, set_array (<[i := Item key v']> (array self)) self) ∧
    on_ladder (set_array (<[i := Item key v']> (array self)) self) ∧
    (key, v) :: bindings (<[i := Item key v']> (array self))
    ≡ₚ (key, v') :: bindings (array self).
Proof.
  intros [Ht Hrung Hload] (i & Hi)%elem_of_bindings.
  pose proof (Z.prime_ge_2 _ (tidy_prime _ Ht)) as Hm.
  pose proof (tidy_count _ Ht) as Hcnt.
  pose proof (lookup_lt_Some _ _ _ Hi) as Hlt.
  assert (count self ≠ Z.of_nat (length (array self))) as Hc by lia.
  set (self' := set_array (<[i := Item key v']> (array self)) self).
  assert (tidy self') as Ht' by (by eapply tidy_overwrite).
  assert (length (array self') = length (array self)) as Hlen
    by (subst self'; cbn [array set_array]; by rewrite length_insert).
  exists i. fold self'. split_and!; try done.
  - unfold __setitem__. rewrite setitem_fuel_unfold. unfold setitem_body.
    rewrite (bind_Return _ _ _ _ _ (_hashy_probe_finds_stored _ _ _ _ Ht Hc Hi)).
    rewrite (bind_Return _ _ _ (Item key v) self)
      by (apply array_getitem_eq; [lia | by rewrite Nat2Z.id]).
    rewrite (bind_Return _ _ _ tt self) by reflexivity.
    rewrite (bind_Return _ _ _ tt self').
    2:{ unfold array_setitem. destruct (Z.ltb_spec (Z.of_nat i) 0); [lia|].
        destruct (Z.leb_spec (Z.of_nat (length (array self))) (Z.of_nat i)); [lia|].
        cbn [orb]. by rewrite Nat2Z.id. }
    rewrite (bind_Return _ _ _ (count self) self').
    2:{ unfold len, __len__, gets, mbind, M_bind. cbn [count self' set_array].
        destruct (Z.ltb_spec (count self) 0); [lia | reflexivity]. }
    rewrite (bind_Return _ _ _ _ _ (table_size_eq _)). rewrite Hlen.
    destruct (Z.ltb_spec (2 * Z.of_nat (length (array self))) (3 * count self)); [lia|].
    reflexivity.
  - constructor; [done | by rewrite Hlen | by rewrite Hlen].
  - by apply bindings_insert_over.
Qed.

(** Update: [set] of a key that is stored, on a tidy table at or below the
    load factor, overwrites the value in place; [count], the capacity and
    every other binding stay, and [get] returns the new value. *)
Theorem __setitem___update key v v' self :
  on_ladder self →
  (key, v) ∈ bindings (array self) →
  ∃ self',
    __setitem__ key v' self = (Return tt, self') ∧
    on_ladder self' ∧
    count self' = count self ∧
    length (array self') = length (array self) ∧
    size_index self' = size_index self ∧
    (key, v) :: bindings (array self') ≡ₚ (key, v') :: bindings (array self) ∧
    __getitem__ key self' = (Return v', self').
Proof.
  intros Hon Hin.
  destruct (__setitem___overwrites key v v' self Hon Hin) as (i & Hi & Hset & Hon' & Hb).
  pose proof (lookup_lt_Some _ _ _ Hi) as Hlt.
  pose proof (Z.prime_ge_2 _ (tidy_prime _ (on_tidy _ Hon))) as Hm.
  pose proof (on_load _ Hon) as Hload.
  exists (set_array (<[i := Item key v']> (array self)) self).
  cbn [array set_array count size_index]. rewrite length_insert.
  split_and!; try done.
  apply __getitem___tidy; [apply Hon' | cbn [array set_array count]; rewrite length_insert; lia |].
  apply elem_of_bindings. exists i. cbn [array set_array]. by apply list_lookup_insert_eq.
Qed.









Lemma preserves___setitem__ key (data : V) : preserves (V:=V) (__setitem__ key data).
Proof. intros self o self' H. unfold __setitem__ in H. by eapply preserves_setitem_fuel. Qed.

(** [_rehash] on a tidy table that has a next rung: it returns, the table
    moves exactly one rung up into a fresh array of that rung's size, every
    binding is carried over, and every stored key is found again. *)
Theorem _rehash_keeps_bindings self m' :
  ladder_ok (self_TABLE_SIZES self) = true →
  on_ladder self →
  self_TABLE_SIZES self !! S (size_index self) = Some m' →
  ∃ self',
    _rehash self = (Return tt, self') ∧
    on_ladder self' ∧
    size_index self' = S (size_index self) ∧
    Z.of_nat (length (array self')) = m' ∧
    self_TABLE_SIZES self' = self_TABLE_SIZES self ∧
    bindings (array self') ≡ₚ bindings (array self) ∧
    ∀ k v, (k, v) ∈ bindings (array self) → __getitem__ k self' = (Return v, self').
Proof.
  intros Hok [Ht Hrung Hload] Hm'.
  pose proof (tidy_count _ Ht) as Hcnt.
  pose proof (ladder_ok_prime _ _ _ Hok Hm') as Hprime'.
  pose proof (Z.prime_ge_2 _ Hprime') as Hm'2.
  pose proof (grows_lookup _ ltac:(by apply andb_true_iff in Hok as [_ ?]) _ _ _ Hrung Hm')
    as Hgrow.
  pose proof (lookup_lt_Some _ _ _ Hm') as Hnext.
  set (fuel := length (self_TABLE_SIZES self)).
  destruct (reinsert_tidy fuel (array self)
              (mkTable (self_TABLE_SIZES self) (S (size_index self))
                 (replicate (Z.to_nat m') PyNone) 0))
    as (self' & Hrun & Ht' & Hb' & Hl' & Hs' & Hi').
  { apply tidy_fresh_array. by rewrite Z2Nat.id by lia. }
  { apply Ht. }
  { intros k _. simpl. rewrite bindings_replicate. apply not_elem_of_nil. }
  { cbn [count array]. rewrite length_replicate, <- Hcnt. lia. }
  simpl in Hl', Hs', Hi'. rewrite length_replicate in Hl'.
  cbn [array] in Hb'. rewrite bindings_replicate, app_nil_r in Hb'.
  assert (Hon' : on_ladder self').
  { constructor; [done | |].
    - rewrite Hs', Hi', Hl', Hm'. f_equal. lia.
    - rewrite (tidy_count _ Ht'), Hb', Hl', <- Hcnt. lia. }
  exists self'. split_and!; try done.
  - unfold _rehash.
    rewrite (_rehash_with_ext __setitem__ (setitem_fuel fuel) self).
    + unfold _rehash_with, mbind, M_bind, gets, modify, lift.
      cbn [self_TABLE_SIZES size_index set_size_index].
      destruct (Nat.eqb_spec (S (size_index self)) (length (self_TABLE_SIZES self))); [lia|].
      rewrite Hm'. unfold ArrayR. destruct (Z.leb_spec m' 0); [lia|]. exact Hrun.
    + apply preserves___setitem__.
    + intros k v self1 [Hs1 _] _ _. symmetry. apply setitem_fuel_decided.
      rewrite Hs1. subst fuel. lia.
  - rewrite Hl'. lia.
  - intros k v Hkv. apply __getitem___tidy; [done| |by rewrite Hb'].
    pose proof (on_load _ Hon') as Hld. rewrite Hl' in *. lia.
Qed.

(** A [set] that returns without moving to another rung writes one slot:
    the pair is stored afterwards, every binding of another key is kept as
    it was and none is added, the array keeps its size, and [count] goes up
    by at most one. *)
Theorem __setitem___keeps_other_keys key data self self' :
  2 ≤ Z.of_nat (length (array self)) →
  __setitem__ key data self = (Return tt, self') →
  size_index self' = size_index self →
  (key, data) ∈ bindings (array self') ∧
  (∀ k v, k ≠ key → (k, v) ∈ bindings (array self') ↔ (k, v) ∈ bindings (array self)) ∧
  length (array self') = length (array self) ∧
  self_TABLE_SIZES self' = self_TABLE_SIZES self ∧
  count self ≤ count self' ≤ count self + 1.
Proof.
  intros Hm Hset Hidx.
  destruct (__setitem___one_slot key data self self' Hm Hset Hidx)
    as (h & s & p & c & Hh & Hs & Hhr & Hslot & Hc & ->).
  cbn [array self_TABLE_SIZES count].
  destruct Hslot as (_ & j & Hj & -> & Hpre & c' & Hc' & Hkey).
  assert (c' = c) as -> by congruence.
  pose proof (lookup_lt_Some _ _ _ Hc) as Hlt.
  split_and!.
  - apply elem_of_bindings. eexists. by apply list_lookup_insert_eq.
  - intros k v Hne. rewrite !elem_of_bindings. split; intros [i Hi].
    + destruct (decide (i = Z.to_nat (probe_position (Z.of_nat (length (array self))) h s j)))
        as [->|Hni].
      * rewrite list_lookup_insert_eq in Hi by done. by simplify_eq.
      * rewrite list_lookup_insert_ne in Hi by done. by exists i.
    + exists i. rewrite list_lookup_insert_ne; [done|].
      intros <-. rewrite Hc in Hi. by simplify_eq.
  - by rewrite length_insert.
  - done.
  - destruct c; lia.
  - destruct c; lia.
Qed.

(** [set] with tombstones around: in any state of a table of prime capacity
    that has a [None] slot and stays at or below the load factor, [set]
    returns without exception and without rehash; it writes exactly one
    slot, which held [None], a tombstone or the key itself, and [count]
    goes up for [None] only. *)
Theorem __setitem___with_free_slot key data self :
  Z.prime (Z.of_nat (length (array self))) →
  PyNone ∈ array self →
  0 ≤ count self →
  3 * (count self + 1) ≤ 2 * Z.of_nat (length (array self)) →
  ∃ p c,
    0 ≤ p ∧
    array self !! Z.to_nat p = Some c ∧
    match c with Item k _ => k = key | _ => True end ∧
    __setitem__ key data self
    = (Return tt,
       mkTable (self_TABLE_SIZES self) (size_index self)
         (<[Z.to_nat p := Item key data]> (array self))
         (match c with PyNone => count self + 1 | _ => count self end)).
Proof.
  intros Hprime Hnone Hcount Hload.
  pose proof (Z.prime_ge_2 _ Hprime) as Hm.
  pose proof (_hashy_probe_not_Diverge key true self Hprime Hnone) as Hterm.
  destruct (_hashy_probe_insert key self Hm) as (h & s & Hh & Hs & Hhr & Hprobe).
  destruct (_hashy_probe key true self) as [[p|e|] self1] eqn:Hp;
    [|destruct Hprobe as (_ & _ & ?); lia | done].
  destruct Hprobe as [-> (_ & j & Hj & -> & _ & c & Hc & Hkey)].
  set (p := probe_position (Z.of_nat (length (array self))) h s j) in *.
  assert (0 ≤ p < Z.of_nat (length (array self))) as Hpr
    by (apply probe_position_nonneg; lia).
  exists p, c. split_and!; [lia | done | done |].
  set (n1 := match c with PyNone => count self + 1 | _ => count self end).
  assert (0 ≤ n1 ≤ count self + 1) as Hn1 by (subst n1; destruct c; lia).
  unfold __setitem__. rewrite setitem_fuel_unfold. unfold setitem_body.
  rewrite (bind_Return _ _ _ _ _ Hp).
  rewrite (bind_Return _ _ _ _ _ (array_getitem_eq _ _ _ (proj1 Hpr) Hc)).
  rewrite (bind_Return _ _ _ tt (set_count n1 self)).
  2:{ subst n1. destruct c; unfold modify, mret, M_ret; [done | by destruct self..]. }
  set (self' := mkTable (self_TABLE_SIZES self) (size_index self)
                  (<[Z.to_nat p := Item key data]> (array self)) n1).
  rewrite (bind_Return _ _ _ tt self').
  2:{ unfold array_setitem. cbn [array set_count].
      destruct (Z.ltb_spec p 0); [lia|].
      by destruct (Z.leb_spec (Z.of_nat (length (array self))) p); [lia|]. }
  rewrite (bind_Return _ _ _ n1 self').
  2:{ unfold len, __len__, gets, mbind, M_bind. cbn [count self'].
      by destruct (Z.ltb_spec n1 0); [lia|]. }
  rewrite (bind_Return _ _ _ _ _ (table_size_eq _)). subst self'. cbn [array].
  rewrite length_insert.
  by destruct (Z.ltb_spec (2 * Z.of_nat (length (array self))) (3 * n1)); [lia|].
Qed.

Lemma bind_inv {A B} (m : M V A) (f : A → M V B) self o self' :
  (m ≫= f) self = (o, self') →
  (∃ a self1, m self = (Return a, self1) ∧ f a self1 = (o, self')) ∨
  (∃ e, m self = (Raise e, self') ∧ o = Raise e) ∨
  (m self = (Diverge, self') ∧ o = Diverge).
Proof.
  unfold mbind, M_bind. destruct (m self) as [[a|e|] self1]; intros H.
  - left. eauto.
  - right. left. simplify_eq. eauto.
  - right. right. by simplify_eq.
Qed.

Lemma array_getitem_Return position self c self' :
  array_getitem position self = (Return c, self') →
  self' = self ∧ 0 ≤ position ∧ array self !! Z.to_nat position = Some c.
Proof.
  unfold array_getitem. destruct (Z.ltb_spec position 0); [done|].
  destruct (array self !! Z.to_nat position) eqn:E; [|done]. intros [= -> ->]. by split_and!.
Qed.

(** An insert walk never writes, and the slot it returns exists. *)
Lemma probe_loop_insert_effect key :
  ∀ n position step self o self',
    probe_loop n key true position step None self = (o, self') →
    self' = self ∧
    ∀ p, o = Return p → 0 ≤ p ∧ is_Some (array self !! Z.to_nat p).
Proof.
  induction n as [|n IH]; intros position step self o self' H.
  { cbn in H. unfold diverge in H. by simplify_eq. }
  rewrite probe_loop_unfold in H. unfold iteration in H.
  destruct (count self =? Z.of_nat (length (array self))); [by simplify_eq|].
  destruct (array_getitem position self) as [[c|e|] s1] eqn:Hg; [|by simplify_eq..].
  apply array_getitem_Return in Hg as (-> & Hp & Hc).
  assert (∀ p, Return position = Return p → 0 ≤ p ∧ is_Some (array self !! Z.to_nat p)) as Hret.
  { intros p [= <-]. eauto. }
  destruct c as [| |k v]; [by simplify_eq..|].
  cbn [not_] in H.
  destruct (String.eqb k key); [by simplify_eq|].
  unfold advance in H.
  destruct (next_position key position step self) as [[[p' s']|e|] s1] eqn:Hn.
  - by apply IH in H.
  - apply next_position_self in Hn as [-> _]. by simplify_eq.
  - apply next_position_self in Hn as [-> _]. by simplify_eq.
Qed.

(** A lookup walk only ever swaps the key's tuple with a tombstone, and the
    slot it returns holds the key. *)
Lemma probe_loop_lookup_effect key :
  ∀ n position step fei self o self',
    fei_ok self fei →
    probe_loop n key false position step fei self = (o, self') →
    length (array self') = length (array self) ∧
    self_TABLE_SIZES self' = self_TABLE_SIZES self ∧
    size_index self' = size_index self ∧
    count self' = count self ∧
    bindings (array self') ≡ₚ bindings (array self) ∧
    ∀ p, o = Return p → 0 ≤ p ∧ ∃ v, array self' !! Z.to_nat p = Some (Item key v).
Proof.
  induction n as [|n IH]; intros position step fei self o self' Hfei H.
  { cbn in H. unfold diverge in H. by simplify_eq. }
  rewrite probe_loop_unfold in H. unfold iteration in H.
  destruct (count self =? Z.of_nat (length (array self))); [by simplify_eq|].
  destruct (array_getitem position self) as [[c|e|] s1] eqn:Hg; [|by simplify_eq..].
  apply array_getitem_Return in Hg as (-> & Hp & Hc).
  destruct c as [| |k v]; [by simplify_eq| |].
  - unfold advance in H.
    destruct (next_position key position step self) as [[[p' s']|e|] s1] eqn:Hn.
    + apply IH in H; [done|]. destruct (not_ fei); [by split | done].
    + apply next_position_self in Hn as [-> _]. by simplify_eq.
    + apply next_position_self in Hn as [-> _]. by simplify_eq.
  - destruct (String.eqb_spec k key) as [->|Hne].
    + destruct fei as [f|]; cbn [not_] in H.
      * destruct (Z.eqb_spec f 0).
        { simplify_eq. split_and!; try done. intros p [= <-]. eauto. }
        destruct Hfei as [Hf0 Hf]. unfold default in H. cbn [from_option id] in H.
        rewrite (compact_eq _ _ _ _ _ Hp Hf0 Hc Hf) in H. simplify_eq.
        cbn [array set_array count self_TABLE_SIZES size_index].
        assert (Z.to_nat position ≠ Z.to_nat f) as Hpf by (intros E; congruence).
        split_and!; try done.
        -- by rewrite !length_insert.
        -- apply (Permutation_cons_inv (a := (key, v))).
           rewrite bindings_insert_free; [|by rewrite list_lookup_insert_ne, Hc |done].
           by rewrite (bindings_insert_Item _ _ SENTINEL_DELETED).
        -- intros p [= <-]. split; [done|]. exists v.
           rewrite list_lookup_insert_ne by done.
           apply list_lookup_insert_eq. by eapply lookup_lt_Some.
      * simplify_eq. split_and!; try done. intros p [= <-]. eauto.
    + unfold advance in H.
      destruct (next_position key position step self) as [[[p' s']|e|] s1] eqn:Hn.
      * by apply IH in H.
      * apply next_position_self in Hn as [-> _]. by simplify_eq.
      * apply next_position_self in Hn as [-> _]. by simplify_eq.
Qed.

Lemma _hashy_probe_insert_effect key self o self' :
  _hashy_probe key true self = (o, self') →
  self' = self ∧ ∀ p, o = Return p → 0 ≤ p ∧ is_Some (array self !! Z.to_nat p).
Proof.
  intros H. unfold _hashy_probe in H.
  apply bind_inv in H as [(h & s1 & Hh & H)|[(e & Hh & ->)|[Hh ->]]];
    rewrite hash_eq in Hh; injection Hh as Hh <-; [|done..].
  rewrite (bind_Return _ _ _ _ _ (table_size_eq _)) in H.
  by apply probe_loop_insert_effect in H.
Qed.

Lemma _hashy_probe_lookup_effect key self o self' :
  _hashy_probe key false self = (o, self') →
  length (array self') = length (array self) ∧
  self_TABLE_SIZES self' = self_TABLE_SIZES self ∧
  size_index self' = size_index self ∧
  count self' = count self ∧
  bindings (array self') ≡ₚ bindings (array self) ∧
  ∀ p, o = Return p → 0 ≤ p ∧ ∃ v, array self' !! Z.to_nat p = Some (Item key v).
Proof.
  intros H. unfold _hashy_probe in H.
  apply bind_inv in H as [(h & s1 & Hh & H)|[(e & Hh & ->)|[Hh ->]]];
    rewrite hash_eq in Hh; injection Hh as Hh <-; [|done..].
  rewrite (bind_Return _ _ _ _ _ (table_size_eq _)) in H.
  by apply probe_loop_lookup_effect in H.
Qed.

Lemma counted_lookup self self' :
  counted self →
  length (array self') = length (array self) →
  self_TABLE_SIZES self' = self_TABLE_SIZES self →
  count self' = count self →
  bindings (array self') ≡ₚ bindings (array self) →
  counted self'.
Proof. intros [? ? ?] Hl Hs Hc Hb. constructor; by rewrite ?Hl, ?Hs, ?Hc, ?Hb. Qed.

Lemma keeps___getitem__ key : keeps (V:=V) (__getitem__ key).
Proof.
  intros self o self' Hinv H. unfold __getitem__ in H.
  apply bind_inv in H as [(p & s1 & Hprobe & H)|[(e & Hprobe & ->)|[Hprobe ->]]];
    apply _hashy_probe_lookup_effect in Hprobe as (Hl & Hs & _ & Hc & Hb & Hret).
  - destruct (Hret p eq_refl) as (Hp & v & Hv).
    rewrite (bind_Return _ _ _ _ _ (array_getitem_eq _ _ _ Hp Hv)) in H.
    injection H as <- <-. by eapply counted_lookup.
  - by eapply counted_lookup.
  - by eapply counted_lookup.
Qed.

Lemma keeps___contains__ key : keeps (V:=V) (__contains__ key).
Proof.
  intros self o self' Hinv H. unfold __contains__ in H.
  destruct (__getitem__ key self) as [[v|e|] s1] eqn:Hget;
    apply keeps___getitem__ in Hget; try done.
  - by simplify_eq.
  - destruct e; by simplify_eq.
  - by simplify_eq.
Qed.

Lemma keeps___delitem__ key : keeps (V:=V) (__delitem__ key).
Proof.
  intros self o self' Hinv H. unfold __delitem__ in H.
  apply bind_inv in H as [(p & s1 & Hprobe & H)|[(e & Hprobe & ->)|[Hprobe ->]]];
    apply _hashy_probe_lookup_effect in Hprobe as (Hl & Hs & _ & Hc & Hb & Hret);
    pose proof (counted_lookup _ _ Hinv Hl Hs Hc Hb) as Hinv1; [|done..].
  destruct (Hret p eq_refl) as (Hp & v & Hv).
  pose proof (lookup_lt_Some _ _ _ Hv) as Hlt.
  unfold mbind, M_bind, array_setitem, modify in H.
  destruct (Z.ltb_spec p 0); [lia|].
  destruct (Z.leb_spec (Z.of_nat (length (array s1))) p); [lia|].
  cbn in H. injection H as <- <-. destruct Hinv1 as [Hle Hrung Hpos].
  constructor; cbn [array set_array set_count count self_TABLE_SIZES].
  - pose proof (bindings_insert_free (array s1) (Z.to_nat p) SENTINEL_DELETED key v Hv eq_refl)
      as Hperm.
    apply Permutation_length in Hperm. cbn [length] in Hperm. lia.
  - by rewrite length_insert.
  - by rewrite length_insert.
Qed.

Lemma keeps_for_each {A} (l : list A) (body : A → M V unit) :
  (∀ x, keeps (body x)) → keeps (for_each l body).
Proof.
  intros Hb. induction l as [|x l IH]; intros self o self' Hinv H; cbn [for_each] in H.
  - by injection H as <- <-.
  - apply bind_inv in H as [(a & s1 & Hx & H)|[(e & Hx & ->)|[Hx ->]]].
    + eapply IH; [|done]. by eapply Hb.
    + by eapply Hb.
    + by eapply Hb.
Qed.

Lemma keeps__rehash_with (setitem : string → V → M V unit) :
  (∀ k v, keeps (setitem k v)) → keeps (_rehash_with setitem).
Proof.
  intros Hs self o self' Hinv H.
  unfold _rehash_with, mbind, M_bind, gets, modify, lift, mret, M_ret in H.
  cbn [size_index set_size_index self_TABLE_SIZES] in H.
  assert (counted (set_size_index (S (size_index self)) self)) as Hinv1
    by (by destruct Hinv).
  destruct (S (size_index self) =? length (self_TABLE_SIZES self))%nat;
    [by injection H as <- <-|].
  destruct (self_TABLE_SIZES self !! S (size_index self)) as [n|] eqn:Hn;
    [|by injection H as <- <-].
  unfold ArrayR, raise in H. destruct (Z.leb_spec n 0); [by injection H as <- <-|].
  eapply (keeps_for_each (array self)); [| |exact H].
  - intros [| |k v]; [by intros ? ? ? ? [= <- <-].. | apply Hs].
  - constructor; cbn [array set_array set_count set_size_index count self_TABLE_SIZES].
    + rewrite bindings_replicate. cbn. lia.
    + rewrite length_replicate, Z2Nat.id by lia. by eapply list_elem_of_lookup_2.
    + rewrite length_replicate. lia.
Qed.

Lemma len_self self o self' : len self = (o, self') → self' = self.
Proof.
  unfold len, __len__, gets, mbind, M_bind, raise, mret, M_ret.
  destruct (count self <? 0); by intros [= _ <-].
Qed.

Lemma keeps_setitem_body (setitem : string → V → M V unit) key data :
  (∀ k v, keeps (setitem k v)) → keeps (setitem_body setitem key data).
Proof.
  intros Hs self o self' Hinv H. unfold setitem_body in H.
  apply bind_inv in H as [(p & s1 & Hprobe & H)|[(e & Hprobe & ->)|[Hprobe ->]]];
    apply _hashy_probe_insert_effect in Hprobe as [-> Hret]; [|done..].
  destruct (Hret p eq_refl) as (Hp & c & Hc).
  pose proof (lookup_lt_Some _ _ _ Hc) as Hlt.
  rewrite (bind_Return _ _ _ _ _ (array_getitem_eq _ _ _ Hp Hc)) in H.
  set (n1 := match c with PyNone => count self + 1 | _ => count self end).
  set (self1 := mkTable (self_TABLE_SIZES self) (size_index self)
                  (<[Z.to_nat p := Item key data]> (array self)) n1).
  assert (counted self1) as Hinv1.
  { destruct Hinv as [Hle Hrung Hpos].
    constructor; subst self1 n1; cbn [array count self_TABLE_SIZES];
      [|by rewrite length_insert..].
    destruct c as [| |k v].
    - rewrite (bindings_insert_Item _ _ PyNone) by done. cbn [length]. lia.
    - rewrite (bindings_insert_Item _ _ SENTINEL_DELETED) by done. cbn [length]. lia.
    - pose proof (bindings_insert_over (array self) (Z.to_nat p) k v key data Hc) as Hperm.
      apply Permutation_length in Hperm. cbn [length] in Hperm. lia. }
  assert (match c with
          | PyNone => modify (λ self, set_count (count self + 1) self)
          | _ => mret tt
          end self = (Return tt, set_count n1 self)) as HA.
  { subst n1. destruct c; unfold modify, mret, M_ret; [done | by destruct self..]. }
  rewrite (bind_Return _ _ _ _ _ HA) in H.
  assert (array_setitem p (Item key data) (set_count n1 self) = (Return tt, self1)) as HB.
  { unfold array_setitem. cbn [array set_count].
    destruct (Z.ltb_spec p 0); [lia|].
    by destruct (Z.leb_spec (Z.of_nat (length (array self))) p); [lia|]. }
  rewrite (bind_Return _ _ _ _ _ HB) in H.
  apply bind_inv in H as [(n & s2 & Hlen & H)|[(e & Hlen & ->)|[Hlen ->]]];
    apply len_self in Hlen as ->; [|done..].
  rewrite (bind_Return _ _ _ _ _ (table_size_eq _)) in H.
  destruct (_ <? _).
  - by eapply keeps__rehash_with.
  - by injection H as <- <-.
Qed.

Lemma keeps_setitem_fuel : ∀ fuel key data, keeps (V:=V) (setitem_fuel fuel key data).
Proof.
  induction fuel as [|fuel IH]; intros key data self o self' Hinv H;
    rewrite setitem_fuel_unfold in H; eapply keeps_setitem_body; try done.
  intros k v s1 o1 s1' Hs1 [= _ <-]. done.
Qed.

Lemma keeps_perform (c : call V) : keeps (perform c).
Proof.
  intros self o self' Hinv H. destruct c as [key data|key|key|key|]; unfold perform in H;
    apply bind_inv in H as [(a & s1 & Hm & H)|[(e & Hm & ->)|[Hm ->]]];
    try (injection H as <- <-).
  1-3: by eapply keeps_setitem_fuel.
  1-3: by eapply keeps___getitem__.
  1-3: by eapply keeps___delitem__.
  1-3: by eapply keeps___contains__.
  1-3: by apply len_self in Hm as ->.
Qed.

Lemma keeps_run (calls : list (call V)) :
  ∀ self outs self', counted self → run calls self = (outs, self') → counted self'.
Proof.
  induction calls as [|c calls IH]; intros self outs self' Hinv H; cbn [run] in H.
  { by injection H as <- <-. }
  destruct (perform c self) as [o s1] eqn:Hc. apply keeps_perform in Hc; [|done].
  destruct (run calls s1) as [os s2] eqn:Hrun. apply IH in Hrun; [|done].
  destruct o; by injection H as <- <-.
Qed.

Lemma counted___init__ sizes (self0 : HashyStepTable V) :
  __init__ sizes = Return self0 → counted self0.
Proof.
  unfold __init__. destruct (default TABLE_SIZES sizes !! 0%nat) as [n|] eqn:Hn; [|done].
  unfold ArrayR. destruct (Z.leb_spec n 0); [done|]. cbn. intros [= <-].
  constructor; cbn [array count self_TABLE_SIZES].
  - rewrite bindings_replicate. cbn. lia.
  - rewrite length_replicate, Z2Nat.id by lia. by eapply list_elem_of_lookup_2.
  - rewrite length_replicate. lia.
Qed.

(** In every state a client can reach, whatever it called and whatever was
    raised on the way, [count] does not exceed the number of stored tuples
    and the array has the size of one of the rungs of the ladder. *)
Theorem reachable_counted self :
  reachable self →
  count self ≤ Z.of_nat (length (bindings (array self))) ∧
  Z.of_nat (length (array self)) ∈ self_TABLE_SIZES self ∧
  (0 < length (array self))%nat.
Proof.
  intros (sizes & self0 & calls & outs & Hinit & Hrun & _).
  destruct (keeps_run calls self0 outs self (counted___init__ _ _ Hinit) Hrun). done.
Qed.

End Further.

(** ** The table as a dictionary *)

Section AsDictionary.
Context {V : Type}.
Implicit Types (self : HashyStepTable V) (key : string) (d : list (string * V)).

Lemma dict_get_Some d key v :
  NoDup d.*1 → dict_get d key = Some v ↔ (key, v) ∈ d.
Proof.
  unfold dict_get. induction d as [|[k w] d IH]; intros Hnd; cbn.
  { split; [done | by intros ?%elem_of_nil]. }
  cbn in Hnd. apply NoDup_cons in Hnd as [Hk Hnd].
  destruct (String.eqb_spec k key) as [->|Hne]; cbn.
  - split; [intros [= ->]; left|].
    intros [[= ->]|Hin]%elem_of_cons; [done|].
    exfalso. apply Hk. apply list_elem_of_fmap. by exists (key, v).
  - rewrite IH by done. split; [by right|].
    intros [[= -> ->]|Hin]%elem_of_cons; done.
Qed.

Lemma dict_get_None d key : dict_get d key = None ↔ key ∉ d.*1.
Proof.
  unfold dict_get. induction d as [|[k w] d IH]; cbn.
  { split; [intros _; apply not_elem_of_nil | done]. }
  destruct (String.eqb_spec k key) as [->|Hne]; cbn.
  - split; [done|]. intros H. exfalso. apply H. left.
  - rewrite IH, not_elem_of_cons. split; [by intros ?; split; [intros ->|] | by intros [_ ?]].
Qed.

Lemma filter_absent d key :
  key ∉ d.*1 → filter (λ kv, kv.1 ≠ key) d = d.
Proof.
  induction d as [|[k w] d IH]; [done|]. intros H.
  cbn [fmap list_fmap fst] in H. apply not_elem_of_cons in H as [Hne Hd].
  rewrite filter_cons_True by (cbn; congruence). by rewrite IH.
Qed.

Lemma filter_other_keys d key v :
  NoDup d.*1 → (key, v) ∈ d → d ≡ₚ (key, v) :: filter (λ kv, kv.1 ≠ key) d.
Proof.
  induction d as [|[k w] d IH]; intros Hnd Hin; [by apply elem_of_nil in Hin|].
  cbn in Hnd. apply NoDup_cons in Hnd as [Hk Hnd].
  destruct (decide (k = key)) as [->|Hne].
  - rewrite filter_cons_False by (cbn; tauto). rewrite filter_absent by done.
    apply elem_of_cons in Hin as [[= <-]|Hin]; [done|].
    exfalso. apply Hk. apply list_elem_of_fmap. by exists (key, v).
  - rewrite filter_cons_True by done.
    apply elem_of_cons in Hin as [[= <- <-]|Hin]; [done|].
    rewrite (IH Hnd Hin) at 1. apply Permutation_swap.
Qed.

Lemma dict_set_NoDup d key data : NoDup d.*1 → NoDup (dict_set key data d).*1.
Proof.
  intros Hnd. unfold dict_set. cbn. apply NoDup_cons. split.
  - intros ([k w] & -> & [Hne _]%list_elem_of_filter)%list_elem_of_fmap. by cbn in Hne.
  - eapply sublist_NoDup; [done | apply fmap_sublist, sublist_filter].
Qed.

Lemma dict_set_length d key data :
  NoDup d.*1 → (length d ≤ length (dict_set key data d))%nat.
Proof.
  intros Hnd. unfold dict_set. cbn [length].
  destruct (dict_get d key) as [w|] eqn:E.
  - apply dict_get_Some in E; [|done].
    rewrite (Permutation_length (filter_other_keys d key w Hnd E)) at 1. done.
  - apply dict_get_None in E. rewrite filter_absent by done. lia.
Qed.

Lemma dict_perform_NoDup (c : call V) d :
  is_Del c = false → NoDup d.*1 →
  NoDup (dict_perform c d).2.*1 ∧ (length d ≤ length (dict_perform c d).2)%nat.
Proof.
  intros Hc Hnd. destruct c; try done; cbn [dict_perform snd]; try by split.
  split; [by apply dict_set_NoDup | by apply dict_set_length].
Qed.

Lemma dict_run_cons (c : call V) calls d :
  dict_run (c :: calls) d
  = ((dict_perform c d).1 :: (dict_run calls (dict_perform c d).2).1,
     (dict_run calls (dict_perform c d).2).2).
Proof.
  change (dict_run (c :: calls) d)
    with (let '(o, d') := dict_perform c d in
          let '(os, d'') := dict_run calls d' in (o :: os, d'')).
  destruct (dict_perform c d) as [o d']. cbn [fst snd].
  by destruct (dict_run calls d') as [os d''].
Qed.

Lemma dict_run_length (calls : list (call V)) :
  ∀ d, forallb (λ c, negb (is_Del c)) calls = true → NoDup d.*1 →
       (length d ≤ length (dict_run calls d).2)%nat.
Proof.
  induction calls as [|c calls IH]; intros d Hcalls Hnd; [done|].
  cbn [forallb] in Hcalls. apply andb_true_iff in Hcalls as [Hc Hcalls].
  apply negb_true_iff in Hc.
  rewrite dict_run_cons. cbn [snd].
  destruct (dict_perform_NoDup c d Hc Hnd) as [Hnd' Hlen].
  specialize (IH _ Hcalls Hnd'). lia.
Qed.

Lemma run_cons_returns (c : call V) calls self o self1 :
  perform c self = (o, self1) → o ≠ Diverge →
  run (c :: calls) self = (o :: (run calls self1).1, (run calls self1).2).
Proof.
  intros Hc Ho. cbn [run]. rewrite Hc. destruct (run calls self1) as [os s2].
  by destruct o.
Qed.

(** One call that does not delete, on a tidy table that stores the
    dictionary [d]: the table answers as the dictionary does. *)
Lemma perform_as_dict (c : call V) self d mlast :
  is_Del c = false →
  ladder_ok (self_TABLE_SIZES self) = true →
  last (self_TABLE_SIZES self) = Some mlast →
  on_ladder self →
  bindings (array self) ≡ₚ d →
  3 * Z.of_nat (length (dict_perform c d).2) ≤ 2 * mlast →
  ∃ self',
    perform c self = ((dict_perform c d).1, self') ∧
    (dict_perform c d).1 ≠ Diverge ∧
    self_TABLE_SIZES self' = self_TABLE_SIZES self ∧
    on_ladder self' ∧
    bindings (array self') ≡ₚ (dict_perform c d).2.
Proof.
  intros Hc Hok Hlast Hon Hb Hroom.
  pose proof (on_tidy _ Hon) as Ht.
  assert (NoDup d.*1) as Hnd by (rewrite <- Hb; apply (tidy_NoDup _ Ht)).
  pose proof (Z.prime_ge_2 _ (tidy_prime _ Ht)) as Hm.
  pose proof (on_load _ Hon) as Hload.
  pose proof (tidy_count _ Ht) as Hcount.
  assert (count self ≠ Z.of_nat (length (array self))) as Hfull by lia.
  assert (∀ key, key ∉ d.*1 →
            __getitem__ key self = (Raise (KeyError key), self) ∧
            __contains__ key self = (Return false, self)) as Hmiss.
  { intros key Hkey.
    apply __getitem___missing.
    apply _hashy_probe_missing; [apply Ht | by apply tidy_free_slot | by rewrite Hb]. }
  destruct c as [key data|key|key|key|]; [| |done| |]; cbn [dict_perform fst snd] in *.
  - (* set *)
    destruct (dict_get d key) as [w|] eqn:E.
    + apply dict_get_Some in E; [|done].
      destruct (__setitem___overwrites key w data self Hon ltac:(by rewrite Hb))
        as (i & _ & Hset & Hon' & Hb').
      eexists. split_and!; [by apply perform_Set__Return | done | done.. |].
      unfold dict_set. cbn [array set_array]. apply (Permutation_cons_inv (a := (key, w))).
      rewrite Hb', Hb, (filter_other_keys d key w Hnd E) at 1. apply Permutation_swap.
    + apply dict_get_None in E.
      destruct (__setitem___on_ladder key data self mlast Hok Hlast Hon)
        as (self' & Hset & Hon' & Hb' & Hs'); [by rewrite Hb | |].
      { unfold dict_set in Hroom. rewrite filter_absent in Hroom by done.
        cbn [length] in Hroom. rewrite Hcount, Hb. lia. }
      exists self'. split_and!; [by apply perform_Set__Return | done..|].
      unfold dict_set. by rewrite filter_absent, Hb', Hb.
  - (* get *)
    exists self. destruct (dict_get d key) as [v|] eqn:E.
    + apply dict_get_Some in E; [|done].
      split_and!; try done. unfold perform.
      by rewrite (bind_Return _ _ _ _ _
                    (__getitem___tidy key v self Ht Hfull ltac:(by rewrite Hb))).
    + apply dict_get_None in E. split_and!; try done. unfold perform.
      by rewrite (bind_Raise _ _ _ _ _ (proj1 (Hmiss key E))).
  - (* in *)
    exists self. split_and!; try done. unfold perform.
    destruct (decide (key ∈ d.*1)) as [Hin|Hin].
    + rewrite bool_decide_true by done.
      apply list_elem_of_fmap in Hin as ([k v] & -> & Hin). cbn.
      assert (__contains__ k self = (Return true, self)) as Hcont.
      { unfold __contains__.
        by rewrite (__getitem___tidy k v self Ht Hfull ltac:(by rewrite Hb)). }
      by rewrite (bind_Return _ _ _ _ _ Hcont).
    + rewrite bool_decide_false by done.
      by rewrite (bind_Return _ _ _ _ _ (proj2 (Hmiss key Hin))).
  - (* len *)
    exists self. split_and!; try done. unfold perform.
    assert (len self = (Return (Z.of_nat (length d)), self)) as Hlen.
    { assert (count self = Z.of_nat (length d)) as Hcd by (by rewrite Hcount, Hb).
      unfold len, __len__, gets, mbind, M_bind. rewrite Hcd.
      by destruct (Z.ltb_spec (Z.of_nat (length d)) 0); [lia|]. }
    by rewrite (bind_Return _ _ _ _ _ Hlen).
Qed.

Lemma run_as_dict mlast (calls : list (call V)) :
  ∀ self d,
    forallb (λ c, negb (is_Del c)) calls = true →
    ladder_ok (self_TABLE_SIZES self) = true →
    last (self_TABLE_SIZES self) = Some mlast →
    on_ladder self →
    bindings (array self) ≡ₚ d →
    3 * Z.of_nat (length (dict_run calls d).2) ≤ 2 * mlast →
    ∃ self',
      run calls self = ((dict_run calls d).1, self') ∧
      on_ladder self' ∧
      bindings (array self') ≡ₚ (dict_run calls d).2.
Proof.
  induction calls as [|c calls IH]; intros self d Hcalls Hok Hlast Hon Hb Hroom.
  { exists self. by split_and!. }
  cbn [forallb] in Hcalls. apply andb_true_iff in Hcalls as [Hc Hcalls].
  apply negb_true_iff in Hc.
  assert (NoDup d.*1) as Hnd by (rewrite <- Hb; apply (tidy_NoDup _ (on_tidy _ Hon))).
  destruct (dict_perform_NoDup c d Hc Hnd) as [Hnd' _].
  rewrite dict_run_cons in Hroom |- *. cbn [fst snd] in Hroom |- *.
  pose proof (dict_run_length calls _ Hcalls Hnd') as Hlen.
  destruct (perform_as_dict c self d mlast Hc Hok Hlast Hon Hb ltac:(lia))
    as (self1 & Hperf & Hnot & Hs1 & Hon1 & Hb1).
  destruct (IH self1 (dict_perform c d).2 Hcalls) as (self' & Hrun & Hon' & Hb');
    [by rewrite Hs1 | by rewrite Hs1 | done..|].
  exists self'. split_and!; [|done..].
  rewrite (run_cons_returns _ _ _ _ _ Hperf Hnot). by rewrite Hrun.
Qed.

(** Without deletions the table is a dictionary: from the empty table, any
    sequence of [set], [get], [in] and [len] calls gets the answers a
    dictionary gives, and the table ends up storing exactly the
    dictionary's pairs, as long as the keys fit the last rung of the ladder
    at a load of 2/3. *)
Theorem dictionary_without_deletions sizes mlast (self0 : HashyStepTable V)
    (calls : list (call V)) :
  __init__ sizes = Return self0 →
  ladder_ok (default TABLE_SIZES sizes) = true →
  last (default TABLE_SIZES sizes) = Some mlast →
  forallb (λ c, negb (is_Del c)) calls = true →
  3 * Z.of_nat (length (dict_run calls []).2) ≤ 2 * mlast →
  ∃ self,
    run calls self0 = ((dict_run calls []).1, self) ∧
    bindings (array self) ≡ₚ (dict_run calls []).2.
Proof.
  intros Hinit Hok Hlast Hcalls Hroom.
  destruct (__init___on_ladder _ _ Hinit Hok) as (Hs0 & Hc0 & Hb0 & Hon0).
  destruct (run_as_dict mlast calls self0 [] Hcalls) as (self & Hrun & _ & Hb);
    [by rewrite Hs0 | by rewrite Hs0 | done | by rewrite Hb0 | done |].
  by exists self.
Qed.

End AsDictionary.

(** ** The further properties on small tables

    The table that holds ("a", 1) on the first rung of the default ladder
    is tidy: it is what [set] makes of the empty table. *)

Lemma on_ladder_after_one_set :
  on_ladder (mkTable TABLE_SIZES 0 [PyNone; PyNone; Item "a" 1; PyNone; PyNone] 1).
Proof.
  destruct (__init___on_ladder None (mkTable TABLE_SIZES 0 (replicate 5 (@PyNone Z)) 0)
              eq_refl TABLE_SIZES_ok) as (_ & _ & Hb0 & Hon0).
  destruct (__setitem___on_ladder "a" 1 (mkTable TABLE_SIZES 0 (replicate 5 PyNone) 0)
              1572869 TABLE_SIZES_ok TABLE_SIZES_last Hon0)
    as (self' & Hset & Hon & _).
  { rewrite Hb0. apply not_elem_of_nil. }
  { cbn. lia. }
  assert (__setitem__ "a" 1 (mkTable TABLE_SIZES 0 (replicate 5 (@PyNone Z)) 0)
          = (Return tt, mkTable TABLE_SIZES 0 [PyNone; PyNone; Item "a" 1; PyNone; PyNone] 1))
    as E by (vm_compute; reflexivity).
  rewrite E in Hset. by injection Hset as <-.
Qed.

Lemma round_trip_on_ladder_witness :
  ∃ self : HashyStepTable Z,
    run (sets [("a", 1); ("b", 2); ("c", 3); ("d", 4); ("e", 5); ("f", 6)])
        (mkTable [7; 17] 0 (replicate 7 PyNone) 0)
      = (map (λ _, Return Done) [("a", 1); ("b", 2); ("c", 3); ("d", 4); ("e", 5); ("f", 6)],
         self) ∧
    ∀ k v, (k, v) ∈ [("a", 1); ("b", 2); ("c", 3); ("d", 4); ("e", 5); ("f", 6)] →
           __getitem__ k self = (Return v, self).
Proof.
  apply (round_trip_on_ladder (Some [7; 17]) 17
           (mkTable [7; 17] 0 (replicate 7 PyNone) 0)
           [("a", 1); ("b", 2); ("c", 3); ("d", 4); ("e", 5); ("f", 6)]).
  - reflexivity.
  - vm_compute. reflexivity.
  - reflexivity.
  - apply (bool_decide_unpack _). vm_compute. exact I.
  - vm_compute. discriminate.
Defined.

Lemma __getitem___any_state_witness :
  ∃ v, __getitem__ "a" (mkTable TABLE_SIZES 0 [PyNone; PyNone; Item "a" 1; PyNone; PyNone] 1)
       = (Return v, mkTable TABLE_SIZES 0 [PyNone; PyNone; Item "a" 1; PyNone; PyNone] 1) ∧
       ("a", v) ∈ bindings [PyNone; PyNone; Item "a" 1; PyNone; PyNone].
Proof.
  exists 1. split; [reflexivity|].
  exact (proj1 (__getitem___any_state "a"
                  (mkTable TABLE_SIZES 0 [PyNone; PyNone; Item "a" 1; PyNone; PyNone] 1)
                  ltac:(cbn; lia))).
Defined.

Lemma __contains___any_state_witness :
  __contains__ "a" (mkTable TABLE_SIZES 0 [PyNone; PyNone; Item "a" 1; PyNone; PyNone] 1)
  = (Return true, mkTable TABLE_SIZES 0 [PyNone; PyNone; Item "a" 1; PyNone; PyNone] 1) ∧
  "a" ∈ (bindings [PyNone; PyNone; Item "a" 1; PyNone; PyNone]).*1.
Proof.
  split; [reflexivity|].
  exact (proj1 (__contains___any_state "a"
                  (mkTable TABLE_SIZES 0 [PyNone; PyNone; Item "a" 1; PyNone; PyNone] 1)
                  ltac:(cbn; lia))).
Defined.

Lemma __delitem___any_state_witness :
  __delitem__ "a" (mkTable TABLE_SIZES 0 [PyNone; PyNone; Item "a" 1; PyNone; PyNone] 1)
  = (Return tt, mkTable TABLE_SIZES 0 [PyNone; PyNone; SENTINEL_DELETED; PyNone; PyNone] 0) ∧
  ∃ v, (("a", v) :: bindings [PyNone; PyNone; SENTINEL_DELETED; PyNone; PyNone])
       ≡ₚ bindings [PyNone; PyNone; Item "a" 1; PyNone; PyNone].
Proof.
  split; [reflexivity|].
  exact (proj1 (__delitem___any_state "a"
                  (mkTable TABLE_SIZES 0 [PyNone; PyNone; Item "a" 1; PyNone; PyNone] 1)
                  ltac:(cbn; lia))).
Defined.

Lemma lookups_terminate_witness :
  (__getitem__ "a" (mkTable TABLE_SIZES 0 (replicate 5 (@PyNone Z)) 0)).1 ≠ Diverge ∧
  (__contains__ "a" (mkTable TABLE_SIZES 0 (replicate 5 (@PyNone Z)) 0)).1 ≠ Diverge ∧
  (__delitem__ "a" (mkTable TABLE_SIZES 0 (replicate 5 (@PyNone Z)) 0)).1 ≠ Diverge ∧
  ∀ is_insert,
    (_hashy_probe "a" is_insert (mkTable TABLE_SIZES 0 (replicate 5 (@PyNone Z)) 0)).1
    ≠ Diverge.
Proof.
  apply (lookups_terminate "a" (mkTable TABLE_SIZES 0 (replicate 5 (@PyNone Z)) 0)).
  - apply is_prime_sound. reflexivity.
  - vm_compute. left.
Defined.

Lemma __getitem___after___setitem___witness :
  __setitem__ "a" 7 (mkTable TABLE_SIZES 0 [PyNone; PyNone; Item "a" 1; PyNone; PyNone] 1)
  = (Return tt, mkTable TABLE_SIZES 0 [PyNone; PyNone; Item "a" 7; PyNone; PyNone] 1) ∧
  __getitem__ "a" (mkTable TABLE_SIZES 0 [PyNone; PyNone; Item "a" 7; PyNone; PyNone] 1)
  = (Return 7, mkTable TABLE_SIZES 0 [PyNone; PyNone; Item "a" 7; PyNone; PyNone] 1).
Proof.
  split; [reflexivity|].
  apply (__getitem___after___setitem__ "a" 7
           (mkTable TABLE_SIZES 0 [PyNone; PyNone; Item "a" 1; PyNone; PyNone] 1)).
  - cbn. lia.
  - reflexivity.
  - reflexivity.
  - cbn. lia.
Defined.

Lemma missing_key_witness :
  __getitem__ "b" (mkTable TABLE_SIZES 0 [PyNone; PyNone; Item "a" 1; PyNone; PyNone] 1)
  = (Raise (KeyError "b"),
     mkTable TABLE_SIZES 0 [PyNone; PyNone; Item "a" 1; PyNone; PyNone] 1) ∧
  __contains__ "b" (mkTable TABLE_SIZES 0 [PyNone; PyNone; Item "a" 1; PyNone; PyNone] 1)
  = (Return false, mkTable TABLE_SIZES 0 [PyNone; PyNone; Item "a" 1; PyNone; PyNone] 1) ∧
  __delitem__ "b" (mkTable TABLE_SIZES 0 [PyNone; PyNone; Item "a" 1; PyNone; PyNone] 1)
  = (Raise (KeyError "b"),
     mkTable TABLE_SIZES 0 [PyNone; PyNone; Item "a" 1; PyNone; PyNone] 1).
Proof.
  apply (missing_key "b"
           (mkTable TABLE_SIZES 0 [PyNone; PyNone; Item "a" 1; PyNone; PyNone] 1)).
  - apply is_prime_sound. reflexivity.
  - vm_compute. left.
  - apply (bool_decide_unpack _). vm_compute. exact I.
Defined.

Lemma __delitem___tidy_witness :
  ∃ self',
    __delitem__ "a" (mkTable TABLE_SIZES 0 [PyNone; PyNone; Item "a" 1; PyNone; PyNone] 1)
    = (Return tt, self') ∧
    count self' = 1 - 1 ∧
    __contains__ "a" self' = (Return false, self') ∧
    __getitem__ "a" self' = (Raise (KeyError "a"), self') ∧
    ∀ k2 v2, k2 ≠ "a" →
      (k2, v2) ∈ bindings [PyNone; PyNone; Item "a" 1; PyNone; PyNone] →
      ∃ self'', __getitem__ k2 self' = (Return v2, self'').
Proof.
  apply (__delitem___tidy "a" 1
           (mkTable TABLE_SIZES 0 [PyNone; PyNone; Item "a" 1; PyNone; PyNone] 1)).
  - apply on_ladder_after_one_set.
  - cbn. lia.
  - vm_compute. left.
Defined.

Lemma __setitem___update_witness :
  ∃ self',
    __setitem__ "a" 7 (mkTable TABLE_SIZES 0 [PyNone; PyNone; Item "a" 1; PyNone; PyNone] 1)
    = (Return tt, self') ∧
    on_ladder self' ∧
    count self' = 1 ∧
    length (array self') = 5%nat ∧
    size_index self' = 0%nat ∧
    (("a", 1) :: bindings (array self'))
    ≡ₚ ("a", 7) :: bindings [PyNone; PyNone; Item "a" 1; PyNone; PyNone] ∧
    __getitem__ "a" self' = (Return 7, self').
Proof.
  apply (__setitem___update "a" 1 7
           (mkTable TABLE_SIZES 0 [PyNone; PyNone; Item "a" 1; PyNone; PyNone] 1)).
  - apply on_ladder_after_one_set.
  - vm_compute. left.
Defined.

Lemma __setitem___keeps_other_keys_witness :
  ("b", 2) ∈ bindings [PyNone; PyNone; Item "a" 1; Item "b" 2; PyNone] ∧
  (∀ k (v : Z), k ≠ "b" →
     (k, v) ∈ bindings [PyNone; PyNone; Item "a" 1; Item "b" 2; PyNone] ↔
     (k, v) ∈ bindings [PyNone; PyNone; Item "a" 1; PyNone; PyNone]) ∧
  length [PyNone; PyNone; Item "a" 1; Item "b" 2; @PyNone Z] = 5%nat ∧
  TABLE_SIZES = TABLE_SIZES ∧
  1 ≤ 2 ≤ 1 + 1.
Proof.
  apply (__setitem___keeps_other_keys "b" 2
           (mkTable TABLE_SIZES 0 [PyNone; PyNone; Item "a" 1; PyNone; PyNone] 1)
           (mkTable TABLE_SIZES 0 [PyNone; PyNone; Item "a" 1; Item "b" 2; PyNone] 2)).
  - cbn. lia.
  - reflexivity.
  - reflexivity.
Defined.

Lemma __setitem___with_free_slot_witness :
  ∃ p c,
    0 ≤ p ∧
    [SENTINEL_DELETED; PyNone; Item "a" 1; PyNone; PyNone] !! Z.to_nat p = Some c ∧
    match c with Item k _ => k = "d" | _ => True end ∧
    __setitem__ "d" 4
      (mkTable TABLE_SIZES 0 [SENTINEL_DELETED; PyNone; Item "a" 1; PyNone; PyNone] 1)
    = (Return tt,
       mkTable TABLE_SIZES 0
         (<[Z.to_nat p := Item "d" 4]> [SENTINEL_DELETED; PyNone; Item "a" 1; PyNone; PyNone])
         (match c with PyNone => 1 + 1 | _ => 1 end)).
Proof.
  apply (__setitem___with_free_slot "d" 4
           (mkTable TABLE_SIZES 0 [SENTINEL_DELETED; PyNone; Item "a" 1; PyNone; PyNone] 1)).
  - apply is_prime_sound. reflexivity.
  - vm_compute. right. left.
  - cbn. lia.
  - cbn. lia.
Defined.

Lemma _rehash_keeps_bindings_witness :
  ∃ self',
    _rehash (mkTable TABLE_SIZES 0 [PyNone; PyNone; Item "a" 1; PyNone; PyNone] 1)
    = (Return tt, self') ∧
    on_ladder self' ∧
    size_index self' = 1%nat ∧
    Z.of_nat (length (array self')) = 13 ∧
    self_TABLE_SIZES self' = TABLE_SIZES ∧
    bindings (array self') ≡ₚ bindings [PyNone; PyNone; Item "a" 1; PyNone; PyNone] ∧
    ∀ k v, (k, v) ∈ bindings [PyNone; PyNone; Item "a" 1; PyNone; PyNone] →
           __getitem__ k self' = (Return v, self').
Proof.
  apply (_rehash_keeps_bindings
           (mkTable TABLE_SIZES 0 [PyNone; PyNone; Item "a" 1; PyNone; PyNone] 1) 13).
  - vm_compute. reflexivity.
  - apply on_ladder_after_one_set.
  - reflexivity.
Defined.



Lemma reachable_counted_witness :
  count (mkTable TABLE_SIZES 0 [PyNone; PyNone; Item "a" 2; PyNone; PyNone] 0)
  ≤ Z.of_nat (length (bindings [PyNone; PyNone; Item "a" 2; PyNone; @PyNone Z])) ∧
  5 ∈ TABLE_SIZES ∧ (0 < 5)%nat.
Proof.
  apply (reachable_counted
           (mkTable TABLE_SIZES 0 [PyNone; PyNone; Item "a" 2; PyNone; PyNone] 0)).
  exists None. eexists _, [Set_ "a" 1; Del "a"; Set_ "a" 2], _.
  split; [reflexivity|]. split; [vm_compute; reflexivity | reflexivity].
Defined.

Lemma dictionary_without_deletions_witness :
  ∃ self : HashyStepTable Z,
    run [Set_ "a" 1; Get "a"; Set_ "a" 2; Get "b"; Contains "a"; Len]
        (mkTable TABLE_SIZES 0 (replicate 5 PyNone) 0)
    = ([Return Done; Return (Value 1); Return Done; Raise (KeyError "b");
        Return (Truth true); Return (Int 1)], self) ∧
    bindings (array self) ≡ₚ [("a", 2)].
Proof.
  apply (dictionary_without_deletions None 1572869
           (mkTable TABLE_SIZES 0 (replicate 5 PyNone) 0)
           [Set_ "a" 1; Get "a"; Set_ "a" 2; Get "b"; Contains "a"; Len]).
  - reflexivity.
  - vm_compute. reflexivity.
  - reflexivity.
  - reflexivity.
  - vm_compute. discriminate.
Defined.

(** * Properties of the season's fixtures *)

Section Fixtures.
Context {Team : Type} {team_ops : TeamOps Team}.
Implicit Types (g game : Game Team) (w : list (Game Team)).

Lemma Game_eq_spec g1 g2 : Game_eq g1 g2 = true ↔ g1 = g2.
Proof.
  unfold Game_eq. rewrite andb_true_iff, !bool_decide_eq_true.
  destruct g1, g2; cbn. split; [by intros [-> ->] | by intros [= -> ->]].
Qed.

Lemma yield_from_drop (gs : list (Game Team)) (wk : Z) :
  ∀ n i, (i ≤ length gs)%nat → (length gs - i < n)%nat →
    yield_from n (mkWeek gs wk (Some (Z.of_nat i)))
    = Some (inr (drop i gs), mkWeek gs wk (Some (Z.of_nat (length gs)))).
Proof.
  induction n as [|n IH]; intros i Hi Hn; [lia|].
  cbn [yield_from]. unfold WeekOfGames___next__. cbn [next_game_index games week].
  destruct (Z.leb_spec (Z.of_nat (length gs)) (Z.of_nat i)).
  - assert (i = length gs) as -> by lia. by rewrite drop_all.
  - destruct (Z.ltb_spec (Z.of_nat i) 0); [lia|]. rewrite Nat2Z.id.
    destruct (lookup_lt_is_Some_2 gs i ltac:(lia)) as [g Hg]. rewrite Hg.
    replace (Z.of_nat i + 1) with (Z.of_nat (S i)) by lia.
    rewrite IH by lia. by rewrite (drop_S _ _ _ Hg).
Qed.

(** Iterating over a week yields its games, each once and in order, however
    far an earlier iteration got; afterwards [next] keeps raising
    StopIteration and changes nothing. *)
Theorem WeekOfGames_yields_its_games (self : WeekOfGames Team) :
  let done := mkWeek (games self) (week self) (Some (Z.of_nat (length (games self)))) in
  yield_from (S (length (games self))) (WeekOfGames___iter__ self)
  = Some (inr (get_games self), done) ∧
  WeekOfGames___next__ done = (inl StopIteration, done).
Proof.
  split.
  - unfold WeekOfGames___iter__, get_games.
    apply (yield_from_drop (games self) (week self) _ 0%nat); lia.
  - unfold WeekOfGames___next__. cbn [next_game_index games].
    by rewrite Z.leb_refl.
Qed.

End Fixtures.

Section Schedule.
Context {Team : Type} {team_ops : TeamOps Team} {structures : Structures}.
Implicit Types (g game : Game Team) (w l : list (Game Team)) (teams : list Team)
         (st : week_state Team).

Lemma list_remove_spec g l :
  g ∈ l → ∃ l', list_remove g l = Return l' ∧ g :: l' ≡ₚ l.
Proof.
  induction l as [|g' l IH]; intros Hin; [by apply elem_of_nil in Hin|].
  cbn [list_remove]. destruct (Game_eq g' g) eqn:E.
  - apply Game_eq_spec in E as ->. by exists l.
  - apply elem_of_cons in Hin as [->|Hin].
    { pose proof (proj2 (Game_eq_spec g' g') eq_refl). congruence. }
    destruct (IH Hin) as (l' & -> & Hp). exists (g' :: l'). split; [done|].
    by rewrite Permutation_swap, Hp.
Qed.

Lemma elem_of_matchups teams g :
  g ∈ matchups teams ↔
  ∃ i j, (i < j)%nat ∧ teams !! i = Some (home_team g) ∧ teams !! j = Some (away_team g).
Proof.
  unfold matchups. rewrite list_elem_of_bind. split.
  - intros (i & (j & Hg & Hj)%list_elem_of_bind & Hi).
    apply elem_of_seq in Hi, Hj. exists i, j.
    destruct (teams !! i) as [a|], (teams !! j) as [b|]; try by apply elem_of_nil in Hg.
    apply list_elem_of_singleton in Hg as ->. cbn. split_and!; [lia|done..].
  - intros (i & j & Hij & Hi & Hj). exists i.
    pose proof (lookup_lt_Some _ _ _ Hi). pose proof (lookup_lt_Some _ _ _ Hj).
    split; [|apply elem_of_seq; lia].
    apply list_elem_of_bind. exists j. split; [|apply elem_of_seq; lia].
    rewrite Hi, Hj. destruct g. apply list_elem_of_singleton. done.
Qed.

Lemma NoDup_matchups teams : NoDup teams → NoDup (matchups teams).
Proof.
  intros Hnd. unfold matchups. apply NoDup_bind; [| |apply NoDup_seq].
  - intros i1 i2 g _ _ (j1 & Hg1 & _)%list_elem_of_bind (j2 & Hg2 & _)%list_elem_of_bind.
    destruct (teams !! i1) as [a1|] eqn:E1, (teams !! j1) as [b1|];
      try by apply elem_of_nil in Hg1.
    destruct (teams !! i2) as [a2|] eqn:E2, (teams !! j2) as [b2|];
      try by apply elem_of_nil in Hg2.
    apply list_elem_of_singleton in Hg1, Hg2. subst g. injection Hg2 as <- <-.
    by eapply NoDup_lookup.
  - intros i _. apply NoDup_bind; [| |apply NoDup_seq].
    + intros j1 j2 g _ _ Hg1 Hg2.
      destruct (teams !! i) as [a|]; [|by apply elem_of_nil in Hg1].
      destruct (teams !! j1) as [b1|] eqn:E1; [|by apply elem_of_nil in Hg1].
      destruct (teams !! j2) as [b2|] eqn:E2; [|by apply elem_of_nil in Hg2].
      apply list_elem_of_singleton in Hg1, Hg2. subst g. injection Hg2 as <-.
      by eapply NoDup_lookup.
    + intros j _. destruct (teams !! i), (teams !! j); try apply NoDup_nil_2.
      apply NoDup_singleton.
Qed.

Lemma numbers_app w1 w2 : numbers (w1 ++ w2) = (numbers w1 ++ numbers w2)%list.
Proof. unfold numbers. apply bind_app. Qed.

Lemma numbers_flip_week w : numbers (flip_week w) ≡ₚ numbers w.
Proof.
  induction w as [|g w IH]; [done|]. unfold numbers, flip_week in *.
  rewrite fmap_cons, !bind_cons, IH. cbn. apply Permutation_swap.
Qed.

Lemma concat_fmap_flip (ws : list (list (Game Team))) :
  concat (flip_week <$> ws) = flip_week (concat ws).
Proof.
  induction ws as [|w ws IH]; [done|]. cbn. rewrite IH. unfold flip_week. by rewrite fmap_app.
Qed.

Section WithStructures.
Hypothesis Hok : structures_ok.

Lemma tracks_new : tracks BSet_new [].
Proof.
  intros y Hy. rewrite (BSet_contains_new Hok y Hy).
  by rewrite bool_decide_false by apply not_elem_of_nil.
Qed.

(** One game of the copy: it is left where it is when one of its teams is
    used this week, and moved into the week otherwise. *)
Lemma pick_spec game st :
  tracks (used_teams st) (current_week st) →
  0 < get_number (home_team game) → 0 < get_number (away_team game) →
  game ∈ remaining st →
  ∃ st', pick game st = Return st' ∧
         tracks (used_teams st') (current_week st') ∧
         ((st' = st ∧ (get_number (home_team game) ∈ numbers (current_week st) ∨
                       get_number (away_team game) ∈ numbers (current_week st))) ∨
          ((get_number (home_team game) ∉ numbers (current_week st)) ∧
           (get_number (away_team game) ∉ numbers (current_week st)) ∧
           current_week st' = (current_week st ++ [game])%list ∧
           flipped_week st' = (flipped_week st ++ [flip_game game])%list ∧
           game :: remaining st' ≡ₚ remaining st)).
Proof.
  intros Htr Hh Ha Hin. unfold pick.
  rewrite (Htr _ Hh). cbn.
  destruct (decide (get_number (home_team game) ∈ numbers (current_week st))) as [Hhu|Hhu].
  { rewrite bool_decide_true by done. exists st. split_and!; [done..|]. left. eauto. }
  rewrite bool_decide_false by done.
  rewrite (Htr _ Ha). cbn.
  destruct (decide (get_number (away_team game) ∈ numbers (current_week st))) as [Hau|Hau].
  { rewrite bool_decide_true by done. exists st. split_and!; [done..|]. left. eauto. }
  rewrite bool_decide_false by done.
  destruct (BSet_add_spec Hok (used_teams st) _ Hh) as (s1 & -> & Hs1). cbn.
  destruct (BSet_add_spec Hok s1 _ Ha) as (s2 & -> & Hs2). cbn.
  destruct (list_remove_spec game (remaining st) Hin) as (rest & -> & Hrest). cbn.
  eexists. split; [reflexivity|]. cbn [current_week used_teams flipped_week remaining].
  split; [|right; by split_and!].
  intros y Hy. rewrite (Hs2 y Hy), numbers_app.
  change (numbers [game]) with [get_number (home_team game); get_number (away_team game)].
  destruct (decide (y = get_number (away_team game))) as [->|Hya].
  { rewrite bool_decide_true; [done|]. rewrite elem_of_app, !elem_of_cons. tauto. }
  rewrite (Hs1 y Hy).
  destruct (decide (y = get_number (home_team game))) as [->|Hyh].
  { rewrite bool_decide_true; [done|]. rewrite elem_of_app, !elem_of_cons. tauto. }
  rewrite (Htr y Hy). f_equal. apply bool_decide_ext.
  rewrite elem_of_app, !elem_of_cons, elem_of_nil. tauto.
Qed.

Lemma fill_week_spec copy :
  ∀ st,
    positive_numbers copy →
    copy ⊆+ remaining st →
    tracks (used_teams st) (current_week st) →
    ∃ st' extra,
      fill_week copy st = Return st' ∧
      tracks (used_teams st') (current_week st') ∧
      current_week st' = (current_week st ++ extra)%list ∧
      flipped_week st' = (flipped_week st ++ flip_week extra)%list ∧
      extra ++ remaining st' ≡ₚ remaining st ∧
      (distinct_numbers copy → NoDup (numbers (current_week st)) →
       NoDup (numbers (current_week st'))) ∧
      match copy with
      | game :: _ =>
          get_number (home_team game) ∉ numbers (current_week st) →
          get_number (away_team game) ∉ numbers (current_week st) →
          extra ≠ []
      | [] => True
      end.
Proof.
  induction copy as [|game copy IH]; intros st Hpos Hsub Htr.
  - exists st, []. cbn. rewrite !app_nil_r. by split_and!.
  - cbn [fill_week].
    destruct (Hpos game ltac:(left)) as [Hh Ha].
    assert (game ∈ remaining st) as Hin by (eapply elem_of_submseteq; [left | done]).
    destruct (pick_spec game st Htr Hh Ha Hin) as (st1 & -> & Htr1 & Hcase). cbn.
    assert (positive_numbers copy) as Hpos' by (intros g' Hg'; apply Hpos; by right).
    destruct Hcase as [[-> Hused]|(Hhu & Hau & Hcw & Hfw & Hrem)].
    + destruct (IH st Hpos') as (st' & extra & Hrun & Htr' & Hcw' & Hfw' & Hrem' & Hnd' & _);
        [|done|].
      * eapply submseteq_cons_l in Hsub as (k' & Hk' & Hsub').
        rewrite Hk'. by apply submseteq_cons.
      * exists st', extra. split_and!; try done.
        -- intros Hd. apply Hnd'. intros g' Hg'. apply Hd. by right.
        -- intros ? ?. by destruct Hused.
    + destruct (IH st1 Hpos') as (st' & extra & Hrun & Htr' & Hcw' & Hfw' & Hrem' & Hnd' & _);
        [|done|].
      * rewrite <- Hrem in Hsub. by apply (submseteq_app_inv_l _ _ [game]) in Hsub.
      * exists st', (game :: extra). split_and!; try done.
        -- rewrite Hcw', Hcw. by rewrite <- app_assoc.
        -- rewrite Hfw', Hfw. by rewrite <- app_assoc.
        -- cbn. by rewrite Hrem'.
        -- intros Hd Hnd. apply Hnd'; [intros g' Hg'; apply Hd; by right|].
           rewrite Hcw, numbers_app. apply NoDup_app. split; [done|]. split.
           ++ intros x Hx.
              change (numbers [game])
                with [get_number (home_team game); get_number (away_team game)].
              rewrite !elem_of_cons, elem_of_nil. intros [->| [->|[]]]; done.
           ++ change (numbers [game])
                with [get_number (home_team game); get_number (away_team game)].
              pose proof (Hd game ltac:(left)). apply NoDup_cons.
              split; [by rewrite elem_of_cons, elem_of_nil; intros [|[]]|].
              apply NoDup_singleton.
Qed.

Lemma allocate_spec :
  ∀ fuel l weekly_games flipped_weeks,
    (length l ≤ fuel)%nat →
    positive_numbers l →
    ∃ weeks,
      allocate fuel l weekly_games flipped_weeks
      = Return ((weekly_games ++ weeks)%list, (flipped_weeks ++ (flip_week <$> weeks))%list) ∧
      concat weeks ≡ₚ l ∧
      Forall (λ w, w ≠ []) weeks ∧
      (distinct_numbers l → Forall (λ w, NoDup (numbers w)) weeks).
Proof.
  induction fuel as [|fuel IH]; intros l wg fws Hlen Hpos.
  - destruct l; [|cbn in Hlen; lia]. exists []. cbn. rewrite !app_nil_r. by split_and!.
  - destruct l as [|game rest].
    { exists []. cbn. rewrite !app_nil_r. by split_and!. }
    cbn [allocate].
    destruct (fill_week_spec (game :: rest)
                (mkWeekState [] [] BSet_new (game :: rest)) Hpos)
      as (st' & extra & -> & Htr' & Hcw' & Hfw' & Hrem' & Hnd' & Hne);
      [done | apply tracks_new |].
    cbn [current_week flipped_week remaining app] in Hcw', Hfw', Hrem', Hnd', Hne.
    specialize (Hne ltac:(apply not_elem_of_nil) ltac:(apply not_elem_of_nil)).
    cbn. rewrite Hcw', Hfw'.
    rewrite (from_list_spec Hok _ extra Hne). cbn.
    rewrite (from_list_spec Hok _ (flip_week extra)); [|by destruct extra]. cbn.
    assert (remaining st' ⊆+ game :: rest) as Hsub.
    { rewrite <- Hrem'. apply submseteq_inserts_l. done. }
    destruct (IH (remaining st') (wg ++ [extra])%list (fws ++ [flip_week extra])%list)
      as (weeks & -> & Hcat & Hall & Hnd).
    { apply Permutation_length in Hrem'.
      rewrite length_app in Hrem'. cbn [length] in *. destruct extra; [done|].
      cbn [length] in Hrem'. lia. }
    { intros g' Hg'. apply Hpos. by eapply elem_of_submseteq. }
    exists (extra :: weeks). rewrite <- !app_assoc. split_and!.
    + done.
    + cbn. by rewrite Hcat.
    + by constructor.
    + intros Hd. constructor.
      * rewrite <- Hcw'. apply Hnd'; [done | apply NoDup_nil_2].
      * apply Hnd. intros g' Hg'. apply Hd. by eapply elem_of_submseteq.
Qed.

Lemma matchups_positive teams :
  (∀ t, t ∈ teams → 0 < get_number t) → positive_numbers (matchups teams).
Proof.
  intros Hpos g (i & j & _ & Hi & Hj)%elem_of_matchups.
  split; apply Hpos; by eapply list_elem_of_lookup_2.
Qed.

Lemma matchups_distinct teams :
  NoDup (get_number <$> teams) → distinct_numbers (matchups teams).
Proof.
  intros Hnd g (i & j & Hij & Hi & Hj)%elem_of_matchups E.
  assert (i = j); [|lia].
  apply (NoDup_lookup _ i j (get_number (home_team g)) Hnd).
  - by rewrite list_lookup_fmap, Hi.
  - by rewrite list_lookup_fmap, Hj, E.
Qed.

Lemma _generate_schedule_weeks teams :
  Forall (λ t, 0 < get_number t) teams →
  (2 ≤ length teams)%nat →
  ∃ weeks,
    _generate_schedule teams = Return (weeks ++ (flip_week <$> weeks))%list ∧
    concat weeks ≡ₚ matchups teams ∧
    Forall (λ w, w ≠ []) weeks ∧
    (distinct_numbers (matchups teams) → Forall (λ w, NoDup (numbers w)) weeks).
Proof.
  intros Hpos Hlen. rewrite Forall_forall in Hpos. unfold _generate_schedule.
  destruct (allocate_spec (length (matchups teams)) (matchups teams) [] [] ltac:(done)
              (matchups_positive teams Hpos)) as (weeks & -> & Hcat & Hne & Hnd).
  cbn. exists weeks. split_and!; [|done..].
  apply (from_list_spec Hok). intros [E _]%app_eq_nil. subst weeks.
  destruct teams as [|a [|b teams]]; [cbn in Hlen; lia..|].
  assert (mkGame a b ∈ matchups (a :: b :: teams)) as Hin.
  { apply elem_of_matchups. exists 0%nat, 1%nat. split_and!; [lia | done..]. }
  rewrite <- Hcat in Hin. by apply elem_of_nil in Hin.
Qed.

(** The schedule of two or more teams: a first half of non-empty weeks
    that holds every matchup of the two nested loops exactly once, followed
    by the same weeks with home and away swapped. *)
Theorem _generate_schedule_two_halves teams :
  Forall (λ t, 0 < get_number t) teams →
  (2 ≤ length teams)%nat →
  ∃ weeks,
    _generate_schedule teams = Return (weeks ++ (flip_week <$> weeks))%list ∧
    concat weeks ≡ₚ matchups teams ∧
    Forall (λ w, w ≠ []) weeks.
Proof.
  intros Hpos Hlen.
  destruct (_generate_schedule_weeks teams Hpos Hlen) as (weeks & Hrun & Hcat & Hne & _).
  by exists weeks.
Qed.

(** Double round robin: with pairwise different teams, the games of the
    schedule are exactly the ordered pairs of different teams, each once. *)
Theorem _generate_schedule_double_round_robin teams :
  Forall (λ t, 0 < get_number t) teams →
  (2 ≤ length teams)%nat →
  NoDup teams →
  ∃ schedule,
    _generate_schedule teams = Return schedule ∧
    NoDup (concat schedule) ∧
    ∀ a b, mkGame a b ∈ concat schedule ↔ a ∈ teams ∧ b ∈ teams ∧ a ≠ b.
Proof.
  intros Hpos Hlen Hnd.
  destruct (_generate_schedule_weeks teams Hpos Hlen) as (weeks & Hrun & Hcat & _).
  exists (weeks ++ (flip_week <$> weeks))%list. split; [done|].
  rewrite concat_app, concat_fmap_flip.
  assert (concat weeks ++ flip_week (concat weeks)
          ≡ₚ matchups teams ++ flip_week (matchups teams)) as Hperm.
  { unfold flip_week. by rewrite Hcat. }
  assert (∀ g, g ∈ flip_week (matchups teams) ↔ flip_game g ∈ matchups teams) as Hflip.
  { intros g. unfold flip_week. rewrite list_elem_of_fmap. split.
    - intros (g' & -> & Hg'). by destruct g'.
    - intros Hg. exists (flip_game g). split; [by destruct g | done]. }
  split.
  - rewrite Hperm. apply NoDup_app. split_and!.
    + by apply NoDup_matchups.
    + intros g (i & j & Hij & Hi & Hj)%elem_of_matchups
             (i' & j' & Hij' & Hi' & Hj')%Hflip%elem_of_matchups.
      cbn in Hi', Hj'.
      pose proof (NoDup_lookup _ _ _ _ Hnd Hi Hj').
      pose proof (NoDup_lookup _ _ _ _ Hnd Hj Hi'). lia.
    + unfold flip_week. apply NoDup_fmap_2; [|by apply NoDup_matchups].
      intros [a b] [a' b'] [= -> ->]. done.
  - intros a b. rewrite Hperm, elem_of_app, Hflip, !elem_of_matchups. cbn. split.
    + intros [(i & j & Hij & Hi & Hj)|(i & j & Hij & Hi & Hj)].
      * split_and!; [by eapply list_elem_of_lookup_2..|].
        intros ->. pose proof (NoDup_lookup _ _ _ _ Hnd Hi Hj). lia.
      * split_and!; [by eapply list_elem_of_lookup_2..|].
        intros ->. pose proof (NoDup_lookup _ _ _ _ Hnd Hi Hj). lia.
    + intros ([i Hi]%list_elem_of_lookup & [j Hj]%list_elem_of_lookup & Hab).
      destruct (Nat.lt_trichotomy i j) as [Hij|[->|Hij]].
      * left. by exists i, j.
      * congruence.
      * right. by exists j, i.
Qed.

(** No team plays twice in a week: when the teams carry pairwise different
    numbers, as the counter of [Team.__init__] gives them, the numbers of
    the home and away teams of every week of the schedule are pairwise
    different. *)
Theorem _generate_schedule_one_game_a_week teams :
  Forall (λ t, 0 < get_number t) teams →
  (2 ≤ length teams)%nat →
  NoDup (get_number <$> teams) →
  ∃ schedule,
    _generate_schedule teams = Return schedule ∧
    ∀ w, w ∈ schedule → NoDup (numbers w).
Proof.
  intros Hpos Hlen Hnd.
  destruct (_generate_schedule_weeks teams Hpos Hlen) as (weeks & Hrun & _ & _ & Hweeks).
  specialize (Hweeks (matchups_distinct teams Hnd)).
  exists (weeks ++ (flip_week <$> weeks))%list. split; [done|].
  rewrite Forall_forall in Hweeks.
  intros w [Hw|(w' & -> & Hw')%list_elem_of_fmap]%elem_of_app; [by apply Hweeks|].
  rewrite numbers_flip_week. by apply Hweeks.
Qed.

End WithStructures.
End Schedule.

Lemma list_structures_ok : @structures_ok list_structures.
Proof.
  constructor.
  - intros x Hx. cbn. destruct (Z.leb_spec x 0); [lia|].
    by rewrite bool_decide_false by apply not_elem_of_nil.
  - intros s x Hx. cbn. destruct (Z.leb_spec x 0); [lia|].
    eexists. split; [reflexivity|]. intros y Hy.
    destruct (Z.leb_spec y 0); [lia|]. destruct (decide (y = x)) as [->|Hne].
    + rewrite bool_decide_true; [done | left].
    + f_equal. apply bool_decide_ext. rewrite elem_of_cons. tauto.
  - intros A [|a l] Hl; done.
Qed.

Lemma _generate_schedule_two_halves_witness :
  ∃ weeks : list (list (Game Z)),
    _generate_schedule (team_ops := numbered_teams) (structures := list_structures)
      [1; 2; 3; 4]
    = Return (weeks ++ (flip_week <$> weeks))%list ∧
    concat weeks ≡ₚ matchups [1; 2; 3; 4] ∧
    Forall (λ w, w ≠ []) weeks.
Proof.
  apply (_generate_schedule_two_halves (team_ops := numbered_teams)
           (structures := list_structures) list_structures_ok [1; 2; 3; 4]).
  - apply (bool_decide_unpack _). vm_compute. exact I.
  - cbn. lia.
Defined.

Lemma _generate_schedule_double_round_robin_witness :
  ∃ schedule : list (list (Game Z)),
    _generate_schedule (team_ops := numbered_teams) (structures := list_structures)
      [1; 2; 3; 4]
    = Return schedule ∧
    NoDup (concat schedule) ∧
    ∀ a b, mkGame a b ∈ concat schedule ↔ a ∈ [1; 2; 3; 4] ∧ b ∈ [1; 2; 3; 4] ∧ a ≠ b.
Proof.
  apply (_generate_schedule_double_round_robin (team_ops := numbered_teams)
           (structures := list_structures) list_structures_ok [1; 2; 3; 4]).
  - apply (bool_decide_unpack _). vm_compute. exact I.
  - cbn. lia.
  - apply (bool_decide_unpack _). vm_compute. exact I.
Defined.

Lemma _generate_schedule_one_game_a_week_witness :
  ∃ schedule : list (list (Game Z)),
    _generate_schedule (team_ops := numbered_teams) (structures := list_structures)
      [1; 2; 3; 4]
    = Return schedule ∧
    ∀ w, w ∈ schedule → NoDup (numbers (team_ops := numbered_teams) w).
Proof.
  apply (_generate_schedule_one_game_a_week (team_ops := numbered_teams)
           (structures := list_structures) list_structures_ok [1; 2; 3; 4]).
  - apply (bool_decide_unpack _). vm_compute. exact I.
  - cbn. lia.
  - apply (bool_decide_unpack _). vm_compute. exact I.
Defined.
